(** * goodreads-sync: the acquisition pipeline, embedded and verified

    A shallow embedding of [src/index.js] (fuzzy match engine, catalog
    search, download subsystem, queue manager), [src/db.js] (the prepared
    statements over the [books], [users] and [user_books] tables),
    [src/utils.js] and [src/config.js].

    Conventions of the embedding:
    - a JS string is a [string] of code units below 256 (Latin-1); a value
      that may be [null]/[undefined] is an [option string];
    - a SQLite table is the list of its rows in rowid order; [NULL] is [None];
    - [CURRENT_TIMESTAMP] and [date('now')] read an explicit clock, counted in
      seconds (an [N]); [date(t)] is the day number [t / 86400];
    - everything the process obtains from the outside (mirror listings,
      HTTP bodies, the outcome of a file copy, elapsed time) is read from an
      explicit [Attempt] record, one per processed queue item;
    - a thrown exception is the [Err] branch of a result type. *)

From Stdlib Require Import QArith.
From Stdlib Require Import String Ascii.
From stdpp Require Import base list gmap strings.

Local Open Scope string_scope.
Local Open Scope nat_scope.

(** ** Fuzzy match engine ([normalizeText], [wordOverlap], [isGoodMatch]) *)

Module Match.

(** JS [\s] restricted to code units below 256: TAB, LF, VT, FF, CR, SPACE
    and NBSP. [String.prototype.trim] strips the same class. *)
Definition is_space (c : ascii) : bool :=
  let n := nat_of_ascii c in
  ((9 <=? n) && (n <=? 13)) || (n =? 32) || (n =? 160).

(** JS [\w]: [A-Za-z0-9_]. *)
Definition is_word (c : ascii) : bool :=
  let n := nat_of_ascii c in
  ((48 <=? n) && (n <=? 57)) || ((65 <=? n) && (n <=? 90))
  || (n =? 95) || ((97 <=? n) && (n <=? 122)).

(** The characters the regex dot does not match (no [s] flag). *)
Definition is_line_terminator (c : ascii) : bool :=
  let n := nat_of_ascii c in (n =? 10) || (n =? 13).

Definition lower_char (c : ascii) : ascii :=
  let n := nat_of_ascii c in
  if ((65 <=? n) && (n <=? 90))
     || ((192 <=? n) && (n <=? 222) && negb (n =? 215))
  then ascii_of_nat (n + 32) else c.

Fixpoint toLowerCase (s : string) : string :=
  match s with
  | EmptyString => EmptyString
  | String c r => String (lower_char c) (toLowerCase r)
  end.

(** Number of characters the lazy [.*?] consumes before the first [")"],
    when one is reachable without crossing a line terminator. *)
Fixpoint close_index (s : string) : option nat :=
  match s with
  | EmptyString => None
  | String c r =>
      if Ascii.eqb c ")" then Some 0
      else if is_line_terminator c then None
      else S <$> close_index r
  end.

(** [.replace(/\(.*?\)/g, '')]; [skip] counts the characters of the current
    match that are still to be dropped. *)
Fixpoint strip_parens_from (skip : nat) (s : string) : string :=
  match s with
  | EmptyString => EmptyString
  | String c r =>
      match skip with
      | S k => strip_parens_from k r
      | O =>
          if Ascii.eqb c "("
          then match close_index r with
               | Some k => strip_parens_from (S k) r
               | None => String c (strip_parens_from 0 r)
               end
          else String c (strip_parens_from 0 r)
      end
  end.

Definition strip_parens (s : string) : string := strip_parens_from 0 s.

Fixpoint skip_spaces (s : string) : string :=
  match s with
  | EmptyString => EmptyString
  | String c r => if is_space c then skip_spaces r else s
  end.

(** [s] matches [\s*a novel$] case-insensitively. *)
Definition a_novel_tail (s : string) : bool :=
  String.eqb (toLowerCase (skip_spaces s)) "a novel".

(** [.replace(/:\s*a novel$/i, '')]: the match runs to the end of input. *)
Fixpoint strip_a_novel (s : string) : string :=
  match s with
  | EmptyString => EmptyString
  | String c r =>
      if (if Ascii.eqb c ":" then a_novel_tail r else false) then EmptyString
      else String c (strip_a_novel r)
  end.

(** [.replace(/[^\w\s]/g, '')] *)
Fixpoint remove_punct (s : string) : string :=
  match s with
  | EmptyString => EmptyString
  | String c r =>
      if is_word c || is_space c then String c (remove_punct r)
      else remove_punct r
  end.

(** [.replace(/\s+/g, ' ')]; [in_run] holds inside a run of whitespace whose
    replacement has already been emitted. *)
Fixpoint collapse_from (in_run : bool) (s : string) : string :=
  match s with
  | EmptyString => EmptyString
  | String c r =>
      if is_space c
      then if in_run then collapse_from true r
           else String " " (collapse_from true r)
      else String c (collapse_from false r)
  end.

Definition collapse_ws (s : string) : string := collapse_from false s.

Fixpoint trim_end (s : string) : string :=
  match s with
  | EmptyString => EmptyString
  | String c r =>
      let r' := trim_end r in
      if is_space c && String.eqb r' EmptyString then EmptyString
      else String c r'
  end.

Definition trim (s : string) : string := trim_end (skip_spaces s).

(** JS truthiness of a nullable string: neither [null] nor empty. *)
Definition truthy (x : option string) : bool :=
  match x with
  | Some (String _ _) => true
  | _ => false
  end.

Definition normalizeText (str : option string) : string :=
  match str with
  | Some (String _ _ as s) =>
      trim (collapse_ws (remove_punct (strip_a_novel (strip_parens (toLowerCase s)))))
  | _ => EmptyString
  end.

(** [s.split(sep)] for a one-character separator. *)
Fixpoint split (sep : ascii) (s : string) : list string :=
  match s with
  | EmptyString => [EmptyString]
  | String c r =>
      if Ascii.eqb c sep then EmptyString :: split sep r
      else match split sep r with
           | t :: ts => String c t :: ts
           | [] => [String c EmptyString]
           end
  end.

Definition nonempty (w : string) : bool := negb (String.eqb w EmptyString).

(** [.split(' ').filter(Boolean)] *)
Definition words (s : string) : list string :=
  List.filter nonempty (split " " s).

(** A JS [Set] of strings: its elements in insertion order. *)
Definition has (s : list string) (w : string) : bool :=
  existsb (String.eqb w) s.

Definition add (s : list string) (w : string) : list string :=
  if has s w then s else s ++ [w].

Definition new_Set (l : list string) : list string := fold_left add l [].

(** The loop [for (const w of smaller) if (larger.has(w)) matches++]. *)
Definition count_matches (smaller larger : list string) : nat :=
  fold_left (fun m w => if has larger w then S m else m) smaller 0%nat.

Definition ratio (m n : nat) : Q := Z.of_nat m # Pos.of_nat n.

(** [wordOverlap]. The JS result is the double nearest to
    [matches / smaller.size]; the embedding keeps the exact quotient. The
    only use of the result, [titleScore < 0.7], agrees on both: rounding is
    monotone, and a quotient with denominator [n] other than 7/10 lies at
    least [1/(10 n)] away from it, far more than the spacing of doubles
    for any word count a JS string can hold. *)
Definition wordOverlap (a b : option string) : Q :=
  let wordsA := new_Set (words (normalizeText a)) in
  let wordsB := new_Set (words (normalizeText b)) in
  if (length wordsA =? 0)%nat || (length wordsB =? 0)%nat then 0%Q
  else
    let '(smaller, larger) :=
      if (length wordsA <=? length wordsB)%nat then (wordsA, wordsB)
      else (wordsB, wordsA) in
    ratio (count_matches smaller larger) (length smaller).

Definition threshold : Q := 7 # 10.

Definition Qltb (x y : Q) : bool := negb (Qle_bool y x).

(** [haystack.includes(needle)] *)
Fixpoint includes (haystack needle : string) : bool :=
  String.prefix needle haystack
  || match haystack with
     | EmptyString => false
     | String _ r => includes r needle
     end.

Definition isGoodMatch
    (expectedTitle expectedAuthor resultTitle resultAuthor : option string)
    : bool :=
  let titleScore := wordOverlap expectedTitle resultTitle in
  if Qltb titleScore threshold then false
  else if truthy expectedAuthor then
    let expectedParts :=
      List.filter (fun w => (2 <? String.length w)%nat)
                  (split " " (normalizeText expectedAuthor)) in
    let resultAuthorNorm := normalizeText resultAuthor in
    let authorHit := existsb (fun part => includes resultAuthorNorm part) expectedParts in
    if negb authorHit then false else true
  else true.

End Match.

(** ** Persistent store ([db.js]) *)

Module Db.

(** [books.status]: the three values the code ever writes. *)
Inductive Status := pending | downloaded | failed.

#[global] Instance Status_eq_dec : EqDecision Status.
Proof. solve_decision. Defined.

(** A row of [books]; [rowid] is the [id INTEGER PRIMARY KEY]. *)
Record Book := {
  rowid : nat;
  goodreads_book_id : option string;
  isbn : option string;
  title : option string;
  author : option string;
  status : Status;
  attempts : nat;
  file_path : option string;
  added_at : N;
  updated_at : N;
  downloaded_at : option N
}.

(** A row of [users]. *)
Record User := {
  user_rowid : nat;
  name : string;
  goodreads_id : string;
  download_path : string;
  email : option string
}.

(** A row of [user_books]. *)
Record Link := {
  user_id : nat;
  book_id : nat;
  is_notified : bool
}.

(** The database; [book_seq] is the AUTOINCREMENT counter of [books]. *)
Record Store := {
  books : list Book;
  users : list User;
  user_books : list Link;
  book_seq : nat
}.

Definition with_books (st : Store) (bs : list Book) : Store :=
  {| books := bs; users := users st; user_books := user_books st;
     book_seq := book_seq st |}.

(** SQLite [date(t)]: the calendar day of a timestamp. *)
Definition date (t : N) : N := (t / 86400)%N.

(** [COALESCE(x, y)] *)
Definition COALESCE {A} (x y : option A) : option A :=
  match x with Some _ => x | None => y end.

Definition has_key (k : string) (b : Book) : Prop :=
  goodreads_book_id b = Some k.

#[global] Instance has_key_dec k b : Decision (has_key k b).
Proof. unfold has_key. apply _. Defined.

(** The [DO UPDATE SET] arm of the upsert, on the conflicting row. *)
Definition upsert_update (now : N) (i t a : option string) (b : Book) : Book :=
  {| rowid := rowid b;
     goodreads_book_id := goodreads_book_id b;
     isbn := COALESCE i (isbn b);
     title := COALESCE t (title b);
     author := COALESCE a (author b);
     status := status b;
     attempts := attempts b;
     file_path := file_path b;
     added_at := added_at b;
     updated_at := now;
     downloaded_at := downloaded_at b |}.

(** The row [INSERT INTO books (goodreads_book_id, isbn, title, author)]
    creates: the other columns take their defaults. *)
Definition new_book (now : N) (id : nat) (k : option string)
    (i t a : option string) : Book :=
  {| rowid := id; goodreads_book_id := k; isbn := i; title := t; author := a;
     status := pending; attempts := 0; file_path := None;
     added_at := now; updated_at := now; downloaded_at := None |}.

Definition insert_book (now : N) (k i t a : option string) (st : Store) : Store :=
  let id := S (book_seq st) in
  {| books := books st ++ [new_book now id k i t a];
     users := users st; user_books := user_books st; book_seq := id |}.

(** [stmts.upsertBookByGoodreadsId]. A [NULL] key never conflicts. On a
    conflict the id that the [INSERT] had drawn is not given to any row,
    but the AUTOINCREMENT counter keeps it: the next new row gets the id
    after it. *)
Definition upsertBookByGoodreadsId (now : N) (k i t a : option string)
    (st : Store) : Store :=
  match k with
  | Some key =>
      if decide (Exists (has_key key) (books st))
      then {| books :=
                (fun b => if decide (has_key key b) then upsert_update now i t a b
                          else b) <$> books st;
              users := users st; user_books := user_books st;
              book_seq := S (book_seq st) |}
      else insert_book now k i t a st
  | None => insert_book now k i t a st
  end.

(** [stmts.getBookByGoodreadsId] *)
Definition getBookByGoodreadsId (key : string) (st : Store) : option Book :=
  head (filter (has_key key) (books st)).

(** [stmts.linkUserBook]: [INSERT OR IGNORE] under the primary key
    [(user_id, book_id)]. *)
Definition linkUserBook (u b : nat) (st : Store) : Store :=
  if decide (Exists (fun l => user_id l = u ∧ book_id l = b) (user_books st))
  then st
  else {| books := books st; users := users st;
          user_books := user_books st ++ [{| user_id := u; book_id := b; is_notified := false |}];
          book_seq := book_seq st |}.

(** The [WHERE] clause shared by [stmts.getNextPending] and the query that
    [processQueue] builds when books were skipped ([id NOT IN (...)]). *)
Definition selectable (max : nat) (excl : list nat) (b : Book) : Prop :=
  status b = pending ∧ attempts b < max ∧ rowid b ∉ excl.

#[global] Instance selectable_dec max excl b : Decision (selectable max excl b).
Proof. unfold selectable. apply _. Defined.

(** [ORDER BY attempts ASC LIMIT 1]: among the rows with the least
    [attempts], the first one in rowid order. *)
Fixpoint least_attempts (l : list Book) : option Book :=
  match l with
  | [] => None
  | b :: r =>
      match least_attempts r with
      | None => Some b
      | Some m => if decide (attempts b ≤ attempts m) then Some b else Some m
      end
  end.

Definition nextPending (max : nat) (excl : list nat) (st : Store) : option Book :=
  least_attempts (filter (selectable max excl) (books st)).

(** [stmts.getNextPending] *)
Definition getNextPending (max : nat) (st : Store) : option Book :=
  nextPending max [] st.

Definition update_where (id : nat) (f : Book → Book) (st : Store) : Store :=
  with_books st ((fun b => if decide (rowid b = id) then f b else b) <$> books st).

(** [stmts.incrementAttempts] *)
Definition incrementAttempts (now : N) (id : nat) (st : Store) : Store :=
  update_where id (fun b =>
    {| rowid := rowid b; goodreads_book_id := goodreads_book_id b;
       isbn := isbn b; title := title b; author := author b;
       status := status b; attempts := attempts b + 1;
       file_path := file_path b; added_at := added_at b;
       updated_at := now; downloaded_at := downloaded_at b |}) st.

(** [stmts.markDownloaded] *)
Definition markDownloaded (now : N) (filename : string) (id : nat) (st : Store)
    : Store :=
  update_where id (fun b =>
    {| rowid := rowid b; goodreads_book_id := goodreads_book_id b;
       isbn := isbn b; title := title b; author := author b;
       status := downloaded; attempts := attempts b;
       file_path := Some filename; added_at := added_at b;
       updated_at := now; downloaded_at := Some now |}) st.

(** [stmts.markFailed] *)
Definition markFailed (now : N) (id : nat) (st : Store) : Store :=
  update_where id (fun b =>
    {| rowid := rowid b; goodreads_book_id := goodreads_book_id b;
       isbn := isbn b; title := title b; author := author b;
       status := failed; attempts := attempts b;
       file_path := file_path b; added_at := added_at b;
       updated_at := now; downloaded_at := downloaded_at b |}) st.

(** [status = 'downloaded' AND date(downloaded_at) = <day>]; a [NULL]
    timestamp has no date and satisfies no comparison. *)
Definition downloaded_on (day : N) (b : Book) : Prop :=
  status b = downloaded ∧ date <$> downloaded_at b = Some day.

#[global] Instance downloaded_on_dec (day : N) b : Decision (downloaded_on day b).
Proof. unfold downloaded_on. apply _. Defined.

Definition countDownloadsOn (day : N) (st : Store) : nat :=
  length (filter (downloaded_on day) (books st)).

(** [stmts.countDownloadsToday] *)
Definition countDownloadsToday (now : N) (st : Store) : nat :=
  countDownloadsOn (date now) st.

Definition links_of (u : nat) (b : Book) (st : Store) : list Link :=
  filter (fun l => book_id l = rowid b ∧ user_id l = u) (user_books st).

Definition countUserDownloadsOn (day : N) (u : nat) (st : Store) : nat :=
  length (b ← filter (downloaded_on day) (books st); links_of u b st).

(** [stmts.countUserDownloadsToday]: rows of [books JOIN user_books]. *)
Definition countUserDownloadsToday (now : N) (u : nat) (st : Store) : nat :=
  countUserDownloadsOn (date now) u st.

(** [stmts.getUsersForBook]: rows of [users JOIN user_books], taken in
    the order of [users]. *)
Definition getUsersForBook (b : nat) (st : Store) : list User :=
  u ← users st;
  _ ← filter (fun l => user_id l = user_rowid u ∧ book_id l = b) (user_books st);
  [u].

(** [stmts.getUsers] *)
Definition getUsers (st : Store) : list User := users st.

End Db.

(** ** Configuration ([config.js]) and helpers ([utils.js]) *)

Definition MAX_ATTEMPTS : nat := 5.

(** [QUEUE_COOLDOWN_MS = 5000], in seconds of the clock. *)
Definition QUEUE_COOLDOWN : N := 5.

Definition AA_DOMAINS : list string := ["annas-archive.li"; "annas-archive.gl"].

(** [join(dirname(DB_PATH), 'tmp')] for the default [DB_PATH]. *)
Definition tempDir : string := "/app/data/tmp".

(** [path.join] where the code joins a file name to the temporary
    directory: on a normalized directory and a plain file name it puts a
    slash in between and changes nothing else ([join_tempDir] below). *)
Definition join (dir file : string) : string := dir ++ "/" ++ file.

(** [path.join] (POSIX) of two arbitrary strings, as Node computes it: the
    non-empty arguments are put together with a slash in between and the
    result goes through [path.normalize]. This is the one used for the
    destinations in the users' folders, whose [download_path] is stored as
    it was typed.

    [segments path] are the pieces of [path] between its slashes. *)
Fixpoint segments_from (acc path : string) : list string :=
  match path with
  | EmptyString => [acc]
  | String c r =>
      if Ascii.eqb c "/" then acc :: segments_from EmptyString r
      else segments_from (acc ++ String c EmptyString) r
  end.

Definition segments (path : string) : list string :=
  segments_from EmptyString path.

(** One round of [normalizeString]: an empty piece and a single dot are
    dropped; two dots take away the piece before them, unless there is none
    or it is two dots itself, in which case they are kept when
    [allowAboveRoot] holds and dropped otherwise; any other piece is kept. *)
Definition push_segment (allowAboveRoot : bool) (res : list string)
    (seg : string) : list string :=
  if String.eqb seg "" || String.eqb seg "." then res
  else if String.eqb seg ".." then
    match last res with
    | Some l =>
        if String.eqb l ".."
        then (if allowAboveRoot then res ++ [".."] else res)
        else removelast res
    | None => if allowAboveRoot then [".."] else []
    end
  else res ++ [seg].

Definition normalizeString (path : string) (allowAboveRoot : bool) : string :=
  String.concat "/" (foldl (push_segment allowAboveRoot) [] (segments path)).

Fixpoint ends_with_slash (path : string) : bool :=
  match path with
  | EmptyString => false
  | String c EmptyString => Ascii.eqb c "/"
  | String _ r => ends_with_slash r
  end.

(** [path.normalize] *)
Definition normalize (path : string) : string :=
  match path with
  | EmptyString => "."
  | String c _ =>
      let isAbsolute := Ascii.eqb c "/" in
      let trailingSeparator := ends_with_slash path in
      let p := normalizeString path (negb isAbsolute) in
      if String.eqb p ""
      then (if isAbsolute then "/" else if trailingSeparator then "./" else ".")
      else (if isAbsolute then "/" else "") ++ p
             ++ (if trailingSeparator then "/" else "")
  end.

Definition path_join (a b : string) : string :=
  match a, b with
  | EmptyString, EmptyString => "."
  | EmptyString, _ => normalize b
  | _, EmptyString => normalize a
  | _, _ => normalize (a ++ "/" ++ b)
  end.

(** The character class of [sanitizeFilename], by code unit: less-than,
    greater-than, colon, double quote, slash, backslash, bar, question mark
    and star. *)
Definition is_illegal (c : ascii) : bool :=
  let n := nat_of_ascii c in
  bool_decide (n ∈ [60; 62; 58; 34; 47; 92; 124; 63; 42]).

Fixpoint remove_illegal (s : string) : string :=
  match s with
  | EmptyString => EmptyString
  | String c r =>
      if is_illegal c then remove_illegal r else String c (remove_illegal r)
  end.

Definition sanitizeFilename (name : string) : string :=
  String.substring 0 200 (Match.trim (Match.collapse_ws (remove_illegal name))).

(** [x || 'Unknown'] *)
Definition or_else (x : option string) (d : string) : string :=
  if Match.truthy x then default d x else d.

(** [path.extname] of a bare file name: from the last dot, unless that dot
    starts the name. *)
Fixpoint last_dot (s : string) : option string :=
  match s with
  | EmptyString => None
  | String c r =>
      match last_dot r with
      | Some e => Some e
      | None => if Ascii.eqb c "." then Some s else None
      end
  end.

Definition extname (file : string) : string :=
  match file with
  | EmptyString => EmptyString
  | String c r =>
      if String.eqb file ".." then EmptyString
      else default EmptyString (last_dot r)
  end.

(** ** The outside world, one record per processed queue item *)

(** One entry of a mirror's result listing: the text of the title and
    author links, and the hash parsed from the first [/md5/] link, if any. *)
Record SearchResult := {
  resultTitle : string;
  resultAuthor : string;
  md5 : option string
}.

(** What the solving proxy yields for one mirror: a soft failure (HTTP
    status other than 200, solver status other than ok, missing results
    container, thrown error) or the parsed listing. *)
Inductive MirrorReply :=
  | Unavailable
  | Listing (results : list SearchResult).

(** [downloadWithBrowser]: it throws, or the browser has deposited a file
    of the given name and size in the download directory. *)
Inductive BrowserResult :=
  | BrowserThrows
  | BrowserSaved (file : string) (size : N).

(** [axios.get] and the piping of the body: the request throws, or a
    response arrives whose headers give [extension] (the value of
    [getFileExtension(response)]) and whose body, [size] bytes, is written
    to the temporary file; [complete = false] when the pipeline rejects. *)
Inductive StreamResult :=
  | AxiosThrows
  | Response (extension : string) (size : N) (complete : bool).

Record Attempt := {
  reply : string → string → MirrorReply;   (* domain, query *)
  browser : BrowserResult;
  stream : StreamResult;
  copy_ok : nat → bool;      (* mkdirSync and copyFileSync succeed for this user *)
  unlink_ok : bool;          (* unlinkSync of the temporary file succeeds *)
  elapsed : N                (* seconds spent searching, downloading, copying *)
}.

Inductive Error :=
  | NoSearchTerm
  | NotFound
  | BrowserFailed
  | HttpFailed
  | StreamFailed
  | TooSmall (size : N)
  | CopyFailed (user : nat).

Inductive Result (A : Type) :=
  | Ok (a : A)
  | Err (e : Error).
Arguments Ok {A} a.
Arguments Err {A} e.

(** The file system: the size in bytes under each path, a path being the
    string that is handed to the functions of [fs]. *)
Abbreviation Fs := (gmap string N).

(** ** Catalog search ([findBookOnAnna]) *)

Section Search.
Variable AA_API_KEY : option string.

Definition download_url (domain hash : string) : string :=
  if Match.truthy AA_API_KEY
  then "https://" ++ domain ++ "/fast_download/" ++ hash ++ "/0/0?key="
         ++ default EmptyString AA_API_KEY
  else "https://" ++ domain ++ "/md5/" ++ hash.

(** The loop over the top results of one mirror. *)
Fixpoint first_match (domain : string) (expectedTitle expectedAuthor : option string)
    (rs : list SearchResult) : option string :=
  match rs with
  | [] => None
  | r :: rest =>
      match md5 r with
      | None => first_match domain expectedTitle expectedAuthor rest
      | Some hash =>
          if Match.isGoodMatch expectedTitle expectedAuthor
               (Some (resultTitle r)) (Some (resultAuthor r))
          then Some (download_url domain hash)
          else first_match domain expectedTitle expectedAuthor rest
      end
  end.

Definition MAX_RESULTS_TO_CHECK : nat := 5.

Fixpoint search_domains (a : Attempt) (domains : list string) (query : string)
    (expectedTitle expectedAuthor : option string) : option string :=
  match domains with
  | [] => None
  | domain :: rest =>
      match reply a domain query with
      | Unavailable => search_domains a rest query expectedTitle expectedAuthor
      | Listing rs =>
          match first_match domain expectedTitle expectedAuthor
                  (take MAX_RESULTS_TO_CHECK rs) with
          | Some url => Some url
          | None => search_domains a rest query expectedTitle expectedAuthor
          end
      end
  end.

Definition findBookOnAnna (a : Attempt) (query : string)
    (expectedTitle expectedAuthor : option string) : option string :=
  search_domains a AA_DOMAINS query expectedTitle expectedAuthor.
End Search.

(** ** Download subsystem ([downloadBook]) *)

Definition temp_name (job : Db.Book) : string :=
  sanitizeFilename (or_else (Db.author job) "Unknown" ++ " - "
                    ++ or_else (Db.title job) "Unknown").

Definition downloadBook (a : Attempt) (fs : Fs) (url : string) (job : Db.Book)
    : Fs * Result (string * string) :=
  let safeTitle := temp_name job in
  if Match.includes url "/fast_download/" then
    match browser a with
    | BrowserThrows => (fs, Err BrowserFailed)
    | BrowserSaved file size =>
        let downloadedPath := join tempDir file in
        let fs := <[downloadedPath := size]> fs in
        if (size <? 1024)%N then (delete downloadedPath fs, Err (TooSmall size))
        else
          let ext := Match.toLowerCase (extname file) in
          let extension := if String.eqb ext EmptyString then ".epub" else ext in
          let tempPath := join tempDir (safeTitle ++ extension) in
          if decide (downloadedPath = tempPath) then (fs, Ok (tempPath, extension))
          else (<[tempPath := size]> (delete downloadedPath (delete tempPath fs)),
                Ok (tempPath, extension))
    end
  else
    match stream a with
    | AxiosThrows => (fs, Err HttpFailed)
    | Response extension size complete =>
        let tempPath := join tempDir (safeTitle ++ extension) in
        let fs := <[tempPath := size]> fs in
        if negb complete then (fs, Err StreamFailed)
        else if (size <? 1024)%N then (delete tempPath fs, Err (TooSmall size))
        else (fs, Ok (tempPath, extension))
    end.

(** ** Queue manager ([processQueue]) *)

Local Open Scope list_scope.

(** The log lines that the properties below speak of. *)
Inductive Event :=
  | LogSaved (path : string) (user : nat)
  | LogCleanupFailed (path : string)
  | LogSuccess (book : nat)
  | LogFailed (book : nat) (e : Error)
  | LogPermanentlyFailed (book : nat)
  | LogWillRetry (book : nat)
  | LogUserLimit (user : nat)
  | LogDailyLimit.

(** The variables of [processQueue], together with the store, the file
    system, the clock and the log it acts on. *)
Record Loop := {
  store : Db.Store;
  files : Fs;
  clock : N;
  log : list Event;
  processed : nat;
  succeeded : nat;
  failed : nat;
  skippedLimit : nat;
  skippedBookIds : list nat;
  rateLimitedUserIds : gset nat;
  downloadedPerUser : gmap nat (list (option string * option string))
}.

Inductive Control := Continue (l : Loop) | Break (l : Loop).

Definition state_of (c : Control) : Loop :=
  match c with Continue l => l | Break l => l end.

(** [(job.title || '').replace(/\(.*?\)/g, '').trim()] and
    [[cleanTitle, job.author].filter(Boolean).join(' ').trim()] *)
Definition searchTerm (job : Db.Book) : string :=
  let cleanTitle := Match.trim (Match.strip_parens (or_else (Db.title job) EmptyString)) in
  Match.trim
    (match Match.truthy (Some cleanTitle), Match.truthy (Db.author job) with
     | true, true => cleanTitle +:+ " " +:+ default EmptyString (Db.author job)
     | true, false => cleanTitle
     | false, true => default EmptyString (Db.author job)
     | false, false => EmptyString
     end).

(** The copy loop over the eligible users; it stops at the first
    destination whose [mkdirSync] or [copyFileSync] throws. *)
Fixpoint copy_to_users (a : Attempt) (tempPath filename : string)
    (us : list Db.User) (fs : Fs) (lg : list Event)
    : Fs * list Event * Result unit :=
  match us with
  | [] => (fs, lg, Ok tt)
  | user :: rest =>
      let destPath := path_join (Db.download_path user) filename in
      match fs !! tempPath with
      | Some size =>
          if copy_ok a (Db.user_rowid user)
          then copy_to_users a tempPath filename rest (<[destPath := size]> fs)
                 (lg ++ [LogSaved destPath (Db.user_rowid user)])
          else (fs, lg, Err (CopyFailed (Db.user_rowid user)))
      | None => (fs, lg, Err (CopyFailed (Db.user_rowid user)))
      end
  end.

(** [downloadedPerUser.get(user.id).books.push(...)] for each user. *)
Definition track_downloads (job : Db.Book) (us : list Db.User)
    (m : gmap nat (list (option string * option string)))
    : gmap nat (list (option string * option string)) :=
  foldl (fun m user =>
           <[Db.user_rowid user :=
               default [] (m !! Db.user_rowid user)
                 ++ [(Db.title job, Db.author job)]]> m)
        m us.

(** [linkedUsers.filter(u => !rateLimitedUserIds.has(u.id))] over
    [stmts.getUsersForBook.all(job.id)] *)
Definition eligible (l : Loop) (job : Db.Book) : list Db.User :=
  let linkedUsers := Db.getUsersForBook (Db.rowid job) (store l) in
  filter (fun u => Db.user_rowid u ∉ rateLimitedUserIds l) linkedUsers.

Section Queue.
(** The caps are read from the environment ([config.js]); their defaults
    are 50 a day overall and 10 a day per user. *)
Variable MAX_DOWNLOADS_PER_DAY : nat.
Variable MAX_DOWNLOADS_PER_USER_PER_DAY : nat.
Variable AA_API_KEY : option string.

(** The users whose count for the day has reached the per-user cap. *)
Definition at_user_limit (now : N) (st : Db.Store) (us : list Db.User) : list nat :=
  Db.user_rowid <$>
    filter (fun u => MAX_DOWNLOADS_PER_USER_PER_DAY
                       ≤ Db.countUserDownloadsToday now (Db.user_rowid u) st) us.

(** Steps 1 to 3 of the [try] block: search, download, copy, clean up.
    Returns the file name stored by [markDownloaded]. *)
Definition attempt (a : Attempt) (job : Db.Book) (eligibleUsers : list Db.User)
    (fs : Fs) (lg : list Event) : Fs * list Event * Result string :=
  let term := searchTerm job in
  if String.eqb term EmptyString then (fs, lg, Err NoSearchTerm)
  else
    match findBookOnAnna AA_API_KEY a term (Db.title job) (Db.author job) with
    | None => (fs, lg, Err NotFound)
    | Some downloadUrl =>
        match downloadBook a fs downloadUrl job with
        | (fs, Err e) => (fs, lg, Err e)
        | (fs, Ok (tempPath, extension)) =>
            let filename := temp_name job +:+ extension in
            match copy_to_users a tempPath filename eligibleUsers fs lg with
            | (fs, lg, Err e) => (fs, lg, Err e)
            | (fs, lg, Ok _) =>
                if unlink_ok a then (delete tempPath fs, lg, Ok filename)
                else (fs, lg ++ [LogCleanupFailed tempPath], Ok filename)
            end
        end
    end.

(** One pass through the body of [while (true)]: the daily limit is
    checked, the next job selected, skipped when no linked user has quota
    left, and otherwise attempted. [incrementAttempts] runs at the time of
    selection, [markDownloaded] or [markFailed] once the attempt has taken
    its time, and the cooldown follows. After a success [fresh] holds the
    eligible users, not yet in the set, whose count has reached the cap. *)
Definition iteration (a : Attempt) (l : Loop) : Control :=
  let st := store l in
  if decide (MAX_DOWNLOADS_PER_DAY ≤ Db.countDownloadsToday (clock l) st)
  then Break {| store := st; files := files l; clock := clock l;
                log := log l ++ [LogDailyLimit];
                processed := processed l; succeeded := succeeded l;
                failed := failed l; skippedLimit := skippedLimit l;
                skippedBookIds := skippedBookIds l;
                rateLimitedUserIds := rateLimitedUserIds l;
                downloadedPerUser := downloadedPerUser l |}
  else
    match Db.nextPending MAX_ATTEMPTS (skippedBookIds l) st with
    | None => Break l
    | Some job =>
        let eligibleUsers := eligible l job in
        match eligibleUsers with
        | [] =>
            Continue {| store := st; files := files l; clock := clock l;
                        log := log l;
                        processed := processed l; succeeded := succeeded l;
                        failed := failed l; skippedLimit := S (skippedLimit l);
                        skippedBookIds := skippedBookIds l ++ [Db.rowid job];
                        rateLimitedUserIds := rateLimitedUserIds l;
                        downloadedPerUser := downloadedPerUser l |}
        | _ :: _ =>
            let st1 := Db.incrementAttempts (clock l) (Db.rowid job) st in
            let now := (clock l + elapsed a)%N in
            match attempt a job eligibleUsers (files l) (log l) with
            | (fs, lg, Ok filename) =>
                let st2 := Db.markDownloaded now filename (Db.rowid job) st1 in
                let fresh :=
                  at_user_limit now st2
                    (filter (fun u => Db.user_rowid u ∉ rateLimitedUserIds l)
                            eligibleUsers) in
                Continue {| store := st2; files := fs;
                            clock := (now + QUEUE_COOLDOWN)%N;
                            log := lg ++ [LogSuccess (Db.rowid job)]
                                      ++ (LogUserLimit <$> fresh);
                            processed := S (processed l);
                            succeeded := S (succeeded l);
                            failed := failed l; skippedLimit := skippedLimit l;
                            skippedBookIds := skippedBookIds l;
                            rateLimitedUserIds :=
                              rateLimitedUserIds l ∪ list_to_set fresh;
                            downloadedPerUser :=
                              track_downloads job eligibleUsers (downloadedPerUser l) |}
            | (fs, lg, Err e) =>
                let exhausted := bool_decide (MAX_ATTEMPTS ≤ Db.attempts job + 1) in
                let st2 := if exhausted then Db.markFailed now (Db.rowid job) st1
                           else st1 in
                Continue {| store := st2; files := fs;
                            clock := (now + QUEUE_COOLDOWN)%N;
                            log := lg ++ [LogFailed (Db.rowid job) e;
                                          if exhausted
                                          then LogPermanentlyFailed (Db.rowid job)
                                          else LogWillRetry (Db.rowid job)];
                            processed := S (processed l);
                            succeeded := succeeded l;
                            failed := S (failed l); skippedLimit := skippedLimit l;
                            skippedBookIds := skippedBookIds l;
                            rateLimitedUserIds := rateLimitedUserIds l;
                            downloadedPerUser := downloadedPerUser l |}
            end
        end
    end.

(** The [while (true)] loop; [env n] is what the world holds for the
    item processed after [n] others. *)
Fixpoint run (fuel : nat) (env : nat → Attempt) (l : Loop) : option Loop :=
  match fuel with
  | O => None
  | S fuel =>
      match iteration (env (processed l)) l with
      | Break l' => Some l'
      | Continue l' => run fuel env l'
      end
  end.

(** The state on entry to the loop. *)
Definition start (st : Db.Store) (fs : Fs) (now : N) : Loop :=
  let limited := at_user_limit now st (Db.getUsers st) in
  {| store := st; files := fs; clock := now;
     log := LogUserLimit <$> limited;
     processed := 0; succeeded := 0; failed := 0; skippedLimit := 0;
     skippedBookIds := [];
     rateLimitedUserIds := list_to_set limited;
     downloadedPerUser := ∅ |}.

(** Every pass either leaves the loop or uses up part of this budget:
    the attempts left to the rows that can still be selected. *)
Definition weight (excl : list nat) (b : Db.Book) : nat :=
  if decide (Db.selectable MAX_ATTEMPTS excl b)
  then MAX_ATTEMPTS - Db.attempts b else 0.

Definition budget (l : Loop) : nat :=
  sum_list (weight (skippedBookIds l) <$> Db.books (store l)).

(** The early [return] of [processQueue], taken when the daily limit is
    reached before the loop: nothing is touched, and the caller sees no
    downloads ([undefined], which [runCycle] treats as an empty map). *)
Definition idle (st : Db.Store) (fs : Fs) (now : N) : Loop :=
  {| store := st; files := fs; clock := now; log := [LogDailyLimit];
     processed := 0; succeeded := 0; failed := 0; skippedLimit := 0;
     skippedBookIds := []; rateLimitedUserIds := ∅; downloadedPerUser := ∅ |}.

(** [processQueue]: the state in which the function returns. The loop is
    given fuel beyond its budget, so [None] never arises
    (see [processQueue_returns]). *)
Definition processQueue (env : nat → Attempt) (st : Db.Store) (fs : Fs) (now : N)
    : option Loop :=
  if decide (MAX_DOWNLOADS_PER_DAY ≤ Db.countDownloadsToday now st)
  then Some (idle st fs now)
  else
    let l := start st fs now in
    run (S (budget l)) env l.
End Queue.

(** ** Maintenance ([reset-limits.js] and the migration of [initDb]) *)

(** [date('now', '-1 day')]: midnight of the day before. *)
Definition yesterday (now : N) : N := ((Db.date now - 1) * 86400)%N.

Definition reset_row (now : N) (b : Db.Book) : Db.Book :=
  if decide (Db.downloaded_on (Db.date now) b)
  then {| Db.rowid := Db.rowid b; Db.goodreads_book_id := Db.goodreads_book_id b;
          Db.isbn := Db.isbn b; Db.title := Db.title b; Db.author := Db.author b;
          Db.status := Db.status b; Db.attempts := Db.attempts b;
          Db.file_path := Db.file_path b; Db.added_at := Db.added_at b;
          Db.updated_at := Db.updated_at b;
          Db.downloaded_at := Some (yesterday now) |}
  else b.

(** The statement of [reset-limits.js], with the number of rows it
    changed. *)
Definition reset_limits (now : N) (st : Db.Store) : Db.Store * nat :=
  (Db.with_books st (reset_row now <$> Db.books st),
   Db.countDownloadsToday now st).

(** [UPDATE books SET downloaded_at = updated_at WHERE status =
    'downloaded' AND downloaded_at IS NULL], run when the column is
    added. *)
Definition backfill_row (b : Db.Book) : Db.Book :=
  if decide (Db.status b = Db.downloaded ∧ Db.downloaded_at b = None)
  then {| Db.rowid := Db.rowid b; Db.goodreads_book_id := Db.goodreads_book_id b;
          Db.isbn := Db.isbn b; Db.title := Db.title b; Db.author := Db.author b;
          Db.status := Db.status b; Db.attempts := Db.attempts b;
          Db.file_path := Db.file_path b; Db.added_at := Db.added_at b;
          Db.updated_at := Db.updated_at b;
          Db.downloaded_at := Some (Db.updated_at b) |}
  else b.

Definition backfill (st : Db.Store) : Db.Store :=
  Db.with_books st (backfill_row <$> Db.books st).

(** ** The match engine as the specification words it

    Nothing in this module refers to the embedding of the code: the
    character classes, the stages of [normalize], the tokenizer and the
    score are written down a second time, from the description, and are
    compared with [Match] further down. *)

Module Spec.

(** White space: TAB, LF, VT, FF, CR, SPACE and NBSP. *)
Definition blank (c : ascii) : bool :=
  bool_decide (nat_of_ascii c ∈ [9; 10; 11; 12; 13; 32; 160]).

(** The end of a line: LF and CR. *)
Definition newline (c : ascii) : bool :=
  bool_decide (nat_of_ascii c ∈ [10; 13]).

(** Letters, digits and the underscore. *)
Definition word_char (c : ascii) : bool :=
  bool_decide
    (c ∈ list_ascii_of_string
           "abcdefghijklmnopqrstuvwxyzABCDEFGHIJKLMNOPQRSTUVWXYZ0123456789_").

(** The capital letters of Latin-1 by code unit, each with its small
    letter: A to Z, and the accented capitals but for the multiplication
    sign that sits among them. *)
Definition small_letters : list (nat * nat) :=
  zip (seq 65 26 ++ seq 192 23 ++ seq 216 7)
      (seq 97 26 ++ seq 224 23 ++ seq 248 7).

Definition lower (c : ascii) : ascii :=
  match List.find (fun p => fst p =? nat_of_ascii c) small_letters with
  | Some p => ascii_of_nat (snd p)
  | None => c
  end.

Fixpoint map_chars (f : ascii → ascii) (s : string) : string :=
  match s with
  | EmptyString => EmptyString
  | String c r => String (f c) (map_chars f r)
  end.

Fixpoint keep_chars (p : ascii → bool) (s : string) : string :=
  match s with
  | EmptyString => EmptyString
  | String c r => if p c then String c (keep_chars p r) else keep_chars p r
  end.

Fixpoint drop_while (p : ascii → bool) (s : string) : string :=
  match s with
  | EmptyString => EmptyString
  | String c r => if p c then drop_while p r else s
  end.

(** Stage 1: lowercase. *)
Definition lowercase (s : string) : string := map_chars lower s.

(** Stage 2: strip parenthetical spans. A span runs from an opening
    parenthesis to the first closing one after it on the same line;
    [after_close s] is what follows the first closing parenthesis of the
    line that [s] starts in. *)
Fixpoint after_close (s : string) : option string :=
  match s with
  | EmptyString => None
  | String c r =>
      if Ascii.eqb c ")" then Some r
      else if newline c then None
      else after_close r
  end.

Fixpoint strip_spans_upto (n : nat) (s : string) : string :=
  match n, s with
  | S m, String c r =>
      if Ascii.eqb c "("
      then match after_close r with
           | Some rest => strip_spans_upto m rest
           | None => String c (strip_spans_upto m r)
           end
      else String c (strip_spans_upto m r)
  | _, _ => EmptyString
  end.

Definition strip_spans (s : string) : string :=
  strip_spans_upto (String.length s) s.

(** Stage 3: strip a trailing generic subtitle marker: a colon, white
    space if any, and the words "a novel" in either case, at the very end
    of the text. The marker holds no colon, so it can only start at the
    last colon of the text. *)
Fixpoint split_last_colon (s : string) : option (string * string) :=
  match s with
  | EmptyString => None
  | String c r =>
      match split_last_colon r with
      | Some (pre, post) => Some (String c pre, post)
      | None => if Ascii.eqb c ":" then Some (EmptyString, r) else None
      end
  end.

Definition strip_marker (s : string) : string :=
  match split_last_colon s with
  | Some (pre, post) =>
      if String.eqb (lowercase (drop_while blank post)) "a novel" then pre
      else s
  | None => s
  end.

(** Stage 4: strip punctuation, which is whatever is neither a word
    character nor white space. *)
Definition strip_punctuation (s : string) : string :=
  keep_chars (fun c => word_char c || blank c) s.

(** [chunks sep acc s]: the maximal runs of characters of [s] that are not
    separators, the first one continuing [acc]. *)
Fixpoint chunks (sep : ascii → bool) (acc s : string) : list string :=
  match s with
  | EmptyString =>
      match acc with EmptyString => [] | _ => [acc] end
  | String c r =>
      if sep c
      then match acc with
           | EmptyString => chunks sep EmptyString r
           | _ => acc :: chunks sep EmptyString r
           end
      else chunks sep (acc +:+ String c EmptyString) r
  end.

Definition unwords (ws : list string) : string := String.concat " " ws.

(** Stage 5: collapse white space: the runs of other characters, one
    space between two of them and none at either end. *)
Definition collapse_whitespace (s : string) : string :=
  unwords (chunks blank EmptyString s).

(** [normalize(text)]; a missing text normalizes to the empty string. *)
Definition normalize (text : option string) : string :=
  match text with
  | Some s =>
      collapse_whitespace
        (strip_punctuation (strip_marker (strip_spans (lowercase s))))
  | None => EmptyString
  end.

(** The tokens of a normalized string: its pieces between spaces. *)
Definition tokens (s : string) : list string :=
  chunks (fun c => Ascii.eqb c " ") EmptyString s.

Definition word_set (text : option string) : gset string :=
  list_to_set (tokens (normalize text)).

(** [titleScore]: with [S] the smaller and [L] the larger of the two word
    sets, the quotient of the size of their intersection by the size of
    [S]; zero when either set is empty. *)
Definition titleScore (expected candidate : option string) : Q :=
  let A := word_set expected in
  let B := word_set candidate in
  if decide (A = ∅ ∨ B = ∅) then 0%Q
  else
    let S := if decide (size A ≤ size B) then A else B in
    let L := if decide (size A ≤ size B) then B else A in
    Z.of_nat (size (S ∩ L)) # Pos.of_nat (size S).

(** An argument is present when it is given and not empty. *)
Definition present (x : option string) : Prop :=
  ∃ s, x = Some s ∧ s ≠ EmptyString.

Definition substring_of (part s : string) : Prop :=
  ∃ pre post, s = pre +:+ part +:+ post.

(** At least one token of length above 2 of the normalized expected
    author appears as a substring of the normalized candidate author. *)
Definition author_verified (expectedAuthor candidateAuthor : option string)
    : Prop :=
  ∃ tok, tok ∈ tokens (normalize expectedAuthor)
         ∧ 2 < String.length tok
         ∧ substring_of tok (normalize candidateAuthor).

End Spec.

(** ** Specification-level definitions *)

(** The words that [wordOverlap] collects from a text, as a finite set. *)
Definition word_set (x : option string) : gset string :=
  list_to_set (Match.words (Match.normalizeText x)).

(** The score over these sets: with [S] the smaller and [L] the larger
    one, the share of [S] that lies in [L]; zero when either set is
    empty. *)
Definition titleScore_spec (expected candidate : option string) : Q :=
  let A := word_set expected in
  let B := word_set candidate in
  if decide (A = ∅ ∨ B = ∅) then 0%Q
  else
    let S := if decide (size A ≤ size B) then A else B in
    let L := if decide (size A ≤ size B) then B else A in
    Match.ratio (size (S ∩ L)) (size S).

Definition is_substring (part s : string) : Prop :=
  ∃ pre post, s = pre +:+ part +:+ post.

(** Some token longer than two characters of the normalized expected author
    occurs inside the normalized candidate author. *)
Definition author_verified (expectedAuthor candidateAuthor : option string) : Prop :=
  ∃ tok, tok ∈ Match.words (Match.normalizeText expectedAuthor)
         ∧ 2 < String.length tok
         ∧ is_substring tok (Match.normalizeText candidateAuthor).

(** The life of one book row over queue operations: identity and attempt
    budget are kept, a row that cannot be selected is left as it is, and a
    pending row becomes [failed] exactly when its attempts reach
    [MAX_ATTEMPTS] on an attempt that did not succeed. *)
Definition unselectable (b : Db.Book) : Prop :=
  Db.status b ≠ Db.pending ∨ MAX_ATTEMPTS ≤ Db.attempts b.

Definition evolves (b b' : Db.Book) : Prop :=
  Db.rowid b' = Db.rowid b
  ∧ Db.attempts b ≤ Db.attempts b'
  ∧ (Db.attempts b ≤ MAX_ATTEMPTS → Db.attempts b' ≤ MAX_ATTEMPTS)
  ∧ (unselectable b → b' = b)
  ∧ (Db.status b = Db.pending →
       (Db.status b' = Db.failed
        ↔ Db.attempts b < MAX_ATTEMPTS ∧ Db.attempts b' = MAX_ATTEMPTS
          ∧ Db.status b' ≠ Db.downloaded)).

(** The primary key of [books]. *)
Definition unique_rowids (st : Db.Store) : Prop :=
  NoDup (Db.rowid <$> Db.books st).

(** The [UNIQUE] constraint on [books.goodreads_book_id] ([NULL]s apart). *)
Definition unique_keys (st : Db.Store) : Prop :=
  ∀ k, length (filter (Db.has_key k) (Db.books st)) ≤ 1.

(** No success timestamp lies in the future of the clock. *)
Definition no_future (now : N) (st : Db.Store) : Prop :=
  Forall (fun b => ∀ t, Db.downloaded_at b = Some t → (t ≤ now)%N) (Db.books st).

(** No calendar day holds more successes than the global cap. *)
Definition within_daily_cap (cap : nat) (st : Db.Store) : Prop :=
  ∀ day, Db.countDownloadsOn day st ≤ cap.

(** The effect of [UPDATE books ... WHERE id = ?] on one row. *)
Definition touch (id : nat) (f : Db.Book → Db.Book) (b : Db.Book) : Db.Book :=
  if decide (Db.rowid b = id) then f b else b.

(** What the loop maintains about the global cap. *)
Definition cap_invariant (cap : nat) (l : Loop) : Prop :=
  unique_rowids (store l) ∧ no_future (clock l) (store l)
  ∧ within_daily_cap cap (store l).

(** The effect of a conflicting upsert on one row. *)
Definition upsert_row (now : N) (key : string) (i t a : option string)
    (b : Db.Book) : Db.Book :=
  if decide (Db.has_key key b) then Db.upsert_update now i t a b else b.

(** Two rows that the daily counts cannot tell apart. *)
Definition same_success (b b' : Db.Book) : Prop :=
  Db.rowid b' = Db.rowid b ∧ Db.status b' = Db.status b
  ∧ Db.downloaded_at b' = Db.downloaded_at b.

(** ** Sample data *)

Module Sample.

(** A word made of [n] letters x and a closing w; distinct for distinct [n]. *)
Fixpoint word_of (n : nat) : string :=
  match n with
  | O => "w"
  | S k => String "x" (word_of k)
  end.

(** A title made of the words numbered [ns]. *)
Definition title_of (ns : list nat) : option string :=
  Some (String.concat " " (word_of <$> ns)).

(** Ten words against ten, seven of them shared. *)
Definition ten_expected : option string := title_of (seq 0 10).
Definition ten_candidate : option string := title_of (seq 0 7 ++ seq 20 3).

(** A hundred words against a hundred, sixty-nine of them shared. *)
Definition hundred_expected : option string := title_of (seq 0 100).
Definition hundred_candidate : option string := title_of (seq 0 69 ++ seq 100 31).

Definition dune : Db.Book :=
  {| Db.rowid := 1; Db.goodreads_book_id := Some "44767458"; Db.isbn := None;
     Db.title := Some "Dune (Dune, #1)"; Db.author := Some "Frank Herbert";
     Db.status := Db.pending; Db.attempts := 0; Db.file_path := None;
     Db.added_at := 100; Db.updated_at := 100; Db.downloaded_at := None |}.

(** A second book, on its last attempt. *)
Definition emma : Db.Book :=
  {| Db.rowid := 2; Db.goodreads_book_id := Some "6969"; Db.isbn := None;
     Db.title := Some "Emma"; Db.author := Some "Jane Austen";
     Db.status := Db.pending; Db.attempts := 4; Db.file_path := None;
     Db.added_at := 50; Db.updated_at := 900; Db.downloaded_at := None |}.

(** A book delivered earlier on the day of the clock value [1000]. *)
Definition ulysses : Db.Book :=
  {| Db.rowid := 3; Db.goodreads_book_id := Some "338798"; Db.isbn := None;
     Db.title := Some "Ulysses"; Db.author := Some "James Joyce";
     Db.status := Db.downloaded; Db.attempts := 1;
     Db.file_path := Some "James Joyce - Ulysses.epub";
     Db.added_at := 10; Db.updated_at := 400; Db.downloaded_at := Some 400%N |}.

(** A pending row whose attempts are used up, as a crash between the
    attempt increment and the status update leaves it. *)
Definition stuck : Db.Book :=
  {| Db.rowid := 4; Db.goodreads_book_id := Some "1885"; Db.isbn := None;
     Db.title := Some "Pride and Prejudice"; Db.author := Some "Jane Austen";
     Db.status := Db.pending; Db.attempts := 5; Db.file_path := None;
     Db.added_at := 20; Db.updated_at := 950; Db.downloaded_at := None |}.

Definition alice : Db.User :=
  {| Db.user_rowid := 1; Db.name := "Alice"; Db.goodreads_id := "104614681";
     Db.download_path := "/downloads/Alice"; Db.email := None |}.

Definition bob : Db.User :=
  {| Db.user_rowid := 2; Db.name := "Bob"; Db.goodreads_id := "104614682";
     Db.download_path := "/downloads/Bob"; Db.email := Some "bob@example.com" |}.

Definition link (u b : nat) : Db.Link :=
  {| Db.user_id := u; Db.book_id := b; Db.is_notified := false |}.

(** The database right after [initDb] on a fresh file. *)
Definition empty_store : Db.Store :=
  {| Db.books := []; Db.users := []; Db.user_books := []; Db.book_seq := 0 |}.

(** Dune wanted by Alice and Bob. *)
Definition library : Db.Store :=
  {| Db.books := [dune]; Db.users := [alice; bob];
     Db.user_books := [link 1 1; link 2 1]; Db.book_seq := 1 |}.

(** Dune wanted by Alice alone, Emma by Bob, Ulysses delivered to Alice. *)
Definition shelves : Db.Store :=
  {| Db.books := [dune; emma; ulysses]; Db.users := [alice; bob];
     Db.user_books := [link 1 1; link 2 2; link 1 3]; Db.book_seq := 3 |}.

(** Dune delivered to Alice and Bob on the second day of the clock. *)
Definition delivered : Db.Store :=
  Db.markDownloaded 90000 "Frank Herbert - Dune (Dune, #1).epub" 1 library.

(** A database from before the [downloaded_at] column, right after the
    column was added: Ulysses was delivered to Alice, and the upsert of a
    later ingestion has set its [updated_at]. *)
Definition legacy : Db.Store :=
  {| Db.books :=
       [{| Db.rowid := 3; Db.goodreads_book_id := Some "338798";
           Db.isbn := None; Db.title := Some "Ulysses";
           Db.author := Some "James Joyce"; Db.status := Db.downloaded;
           Db.attempts := 1; Db.file_path := Some "James Joyce - Ulysses.epub";
           Db.added_at := 10; Db.updated_at := 90000;
           Db.downloaded_at := None |}];
     Db.users := [alice; bob]; Db.user_books := [link 1 3];
     Db.book_seq := 3 |}.

(** Dune and the stuck row, both wanted by Alice. *)
Definition jammed : Db.Store :=
  {| Db.books := [dune; stuck]; Db.users := [alice; bob];
     Db.user_books := [link 1 1; link 1 4]; Db.book_seq := 4 |}.

(** The second mirror lists the book; the direct download yields [size]
    bytes; copies succeed for the users [copies] accepts. *)
Definition world (size : N) (copies : nat → bool) : Attempt :=
  {| reply := fun domain _ =>
       if String.eqb domain "annas-archive.gl"
       then Listing
              [ {| resultTitle := "Dune"; resultAuthor := "Herbert, Frank";
                   md5 := Some "d41d8cd98f00b204e9800998ecf8427e" |} ]
       else Unavailable;
     browser := BrowserSaved "dune.epub" size;
     stream := Response ".epub" size true;
     copy_ok := copies; unlink_ok := true; elapsed := 30 |}.

(** Five megabytes arrive, and the copy into Bob's folder fails. *)
Definition picky : Attempt := world 5242880 (fun u => negb (u =? 2)).

(** Five megabytes arrive and every copy succeeds. *)
Definition smooth : Attempt := world 5242880 (fun _ => true).

(** An error page of 900 bytes arrives instead of the book. *)
Definition stingy : Attempt := world 900 (fun _ => true).

(** Nothing can be found anywhere. *)
Definition barren : Attempt :=
  {| reply := fun _ _ => Unavailable;
     browser := BrowserThrows; stream := AxiosThrows;
     copy_ok := fun _ => true; unlink_ok := true; elapsed := 30 |}.

End Sample.

(** ** Further specification-level definitions *)

(** A lower-case word character: [a-z0-9_]. *)
Definition lower_word (c : ascii) : bool :=
  let n := nat_of_ascii c in
  Match.is_word c && negb ((65 <=? n) && (n <=? 90)).

(** [shape p s]: [s] is made of lower-case word characters and single
    spaces, does not end in a space, and does not start with one when [p]
    holds. *)
Fixpoint shape (p : bool) (s : string) : bool :=
  match s with
  | EmptyString => negb p
  | String c r =>
      if lower_word c then shape false r
      else if Ascii.eqb c " " && negb p then shape true r
      else false
  end.

(** The form of a normalized text: empty, or words of lower-case word
    characters separated by single spaces. *)
Definition normal (s : string) : bool :=
  match s with
  | EmptyString => true
  | String _ _ => shape true s
  end.

(** [spaced p s]: as [shape], without the condition on the end. *)
Fixpoint spaced (p : bool) (s : string) : bool :=
  match s with
  | EmptyString => true
  | String c r =>
      if lower_word c then spaced false r
      else if Ascii.eqb c " " && negb p then spaced true r
      else false
  end.

(** Every character of [s] satisfies [P]. *)
Fixpoint all_chars (P : ascii → bool) (s : string) : bool :=
  match s with
  | EmptyString => true
  | String c r => P c && all_chars P r
  end.

Definition is_upper (c : ascii) : bool :=
  let n := nat_of_ascii c in (65 <=? n) && (n <=? 90).

(** [tidy p s]: whitespace occurs in [s] only as single spaces, and not
    at the start when [p] holds. *)
Fixpoint tidy (p : bool) (s : string) : bool :=
  match s with
  | EmptyString => true
  | String c r =>
      if Match.is_space c then Ascii.eqb c " " && negb p && tidy true r
      else tidy false r
  end.

(** A hexadecimal digit, as the pattern for the hash admits. *)
Definition is_hex (c : ascii) : bool :=
  let n := nat_of_ascii c in
  ((48 <=? n) && (n <=? 57)) || ((65 <=? n) && (n <=? 70))
  || ((97 <=? n) && (n <=? 102)).

(** A listed result that [findBookOnAnna] would take: it carries a hash
    and passes [isGoodMatch]. *)
Definition acceptable (expectedTitle expectedAuthor : option string)
    (r : SearchResult) : bool :=
  match md5 r with
  | Some _ =>
      Match.isGoodMatch expectedTitle expectedAuthor
        (Some (resultTitle r)) (Some (resultAuthor r))
  | None => false
  end.

(** A mirror offers the book when it answers with a listing whose first
    [MAX_RESULTS_TO_CHECK] results hold an acceptable one. *)
Definition offers (a : Attempt) (query : string)
    (expectedTitle expectedAuthor : option string) (domain : string) : bool :=
  match reply a domain query with
  | Unavailable => false
  | Listing rs =>
      existsb (acceptable expectedTitle expectedAuthor)
              (take MAX_RESULTS_TO_CHECK rs)
  end.

(** ** Further sample data *)

Module Shelf.

(** A row whose title is made of question marks only. *)
Definition untitled : Db.Book :=
  {| Db.rowid := 5; Db.goodreads_book_id := Some "77"; Db.isbn := None;
     Db.title := Some "???"; Db.author := Some "Anonymous";
     Db.status := Db.pending; Db.attempts := 0; Db.file_path := None;
     Db.added_at := 100; Db.updated_at := 100; Db.downloaded_at := None |}.

(** Dune wanted by Alice and Bob, the untitled book by Alice. *)
Definition odd : Db.Store :=
  {| Db.books := [Sample.dune; untitled];
     Db.users := [Sample.alice; Sample.bob];
     Db.user_books := [Sample.link 1 1; Sample.link 2 1; Sample.link 1 5];
     Db.book_seq := 5 |}.

(** A user whose folder was entered with a slash at its end. *)
Definition carol : Db.User :=
  {| Db.user_rowid := 3; Db.name := "Carol"; Db.goodreads_id := "104614683";
     Db.download_path := "/downloads/Carol/"; Db.email := None |}.

End Shelf.

(** [under dir p]: the path [p] lies inside the directory [dir]. *)
Definition under (dir p : string) : bool := String.prefix (dir +:+ "/") p.

(** The columns of a book row that queue processing has no statement
    for. *)
Definition same_book (b b' : Db.Book) : Prop :=
  Db.rowid b' = Db.rowid b
  ∧ Db.goodreads_book_id b' = Db.goodreads_book_id b
  ∧ Db.isbn b' = Db.isbn b ∧ Db.title b' = Db.title b
  ∧ Db.author b' = Db.author b ∧ Db.added_at b' = Db.added_at b.


Definition slash_free (s : string) : bool :=
  all_chars (fun c => negb (Ascii.eqb c "/")) s.

(** A file name: not empty, without a slash, and neither of the two dot
    names. *)
Definition plain (f : string) : Prop :=
  f ≠ EmptyString ∧ f ≠ "." ∧ f ≠ ".." ∧ slash_free f = true.

(** What [path.join] puts in front of a plain name that is joined to
    [dir]: the normalized directory, closed by a slash; nothing when [dir]
    is the current directory. *)
Definition folder (dir : string) : string :=
  let isAbsolute := String.prefix "/" dir in
  (if isAbsolute then "/" else "")
  +:+ match foldl (push_segment (negb isAbsolute)) [] (segments dir) with
      | [] => EmptyString
      | res => String.concat "/" res +:+ "/"
      end.



(** The attempts that the pending rows of a store have left. *)
Definition attempts_left (st : Db.Store) : nat :=
  sum_list ((fun b => if decide (Db.status b = Db.pending)
                      then MAX_ATTEMPTS - Db.attempts b else 0)
              <$> Db.books st).

(** The effect of the three queue statements on the row they address. *)
Definition bump (now : N) (b : Db.Book) : Db.Book :=
  {| Db.rowid := Db.rowid b; Db.goodreads_book_id := Db.goodreads_book_id b;
     Db.isbn := Db.isbn b; Db.title := Db.title b; Db.author := Db.author b;
     Db.status := Db.status b; Db.attempts := Db.attempts b + 1;
     Db.file_path := Db.file_path b; Db.added_at := Db.added_at b;
     Db.updated_at := now; Db.downloaded_at := Db.downloaded_at b |}.

Definition deliver (now : N) (filename : string) (b : Db.Book) : Db.Book :=
  {| Db.rowid := Db.rowid b; Db.goodreads_book_id := Db.goodreads_book_id b;
     Db.isbn := Db.isbn b; Db.title := Db.title b; Db.author := Db.author b;
     Db.status := Db.downloaded; Db.attempts := Db.attempts b;
     Db.file_path := Some filename; Db.added_at := Db.added_at b;
     Db.updated_at := now; Db.downloaded_at := Some now |}.

Definition abandon (now : N) (b : Db.Book) : Db.Book :=
  {| Db.rowid := Db.rowid b; Db.goodreads_book_id := Db.goodreads_book_id b;
     Db.isbn := Db.isbn b; Db.title := Db.title b; Db.author := Db.author b;
     Db.status := Db.failed; Db.attempts := Db.attempts b;
     Db.file_path := Db.file_path b; Db.added_at := Db.added_at b;
     Db.updated_at := now; Db.downloaded_at := Db.downloaded_at b |}.

(** What one pass of the loop, from [l] to [l'], does to a row: nothing,
    or the effect of a successful or of a failed attempt on the selected
    row. *)
Definition row_step (key : option string) (a : Attempt) (l l' : Loop)
    (b b' : Db.Book) : Prop :=
  (clock l ≤ clock l')%N
  ∧ (b' = b
     ∨ (Db.nextPending MAX_ATTEMPTS (skippedBookIds l) (store l) = Some b
        ∧ eligible l b ≠ []
        ∧ clock l' = (clock l + elapsed a + QUEUE_COOLDOWN)%N
        ∧ ((∃ fs lg fn,
              attempt key a b (eligible l b) (files l) (log l) = (fs, lg, Ok fn)
              ∧ b' = deliver (clock l + elapsed a) fn (bump (clock l) b))
           ∨ (∃ fs lg e,
                attempt key a b (eligible l b) (files l) (log l) = (fs, lg, Err e)
                ∧ b' = if bool_decide (MAX_ATTEMPTS ≤ Db.attempts b + 1)
                       then abandon (clock l + elapsed a) (bump (clock l) b)
                       else bump (clock l) b)))).

Definition total_attempts (st : Db.Store) : nat :=
  sum_list (Db.attempts <$> Db.books st).

Definition count_status (s : Db.Status) (st : Db.Store) : nat :=
  length (filter (fun b => Db.status b = s) (Db.books st)).

(** How a row at the end of a cycle that started at [now] relates to the
    row [b] it was at the start: unchanged; or [b] was pending, the row did
    not become downloaded and keeps its success columns; or [b] was pending
    and the row became downloaded at a time [t] of the cycle, under the
    sanitized file name. *)
Definition cycle_outcome (now : N) (l' : Loop) (b b' : Db.Book) : Prop :=
  b' = b
  ∨ (Db.status b = Db.pending
     ∧ Db.title b' = Db.title b ∧ Db.author b' = Db.author b
     ∧ Db.attempts b < Db.attempts b'
     ∧ ((Db.status b' ≠ Db.downloaded
         ∧ Db.downloaded_at b' = Db.downloaded_at b
         ∧ Db.file_path b' = Db.file_path b)
        ∨ (Db.status b' = Db.downloaded
           ∧ ∃ t ext,
               Db.downloaded_at b' = Some t ∧ Db.updated_at b' = t
               ∧ (now ≤ t)%N ∧ (t + QUEUE_COOLDOWN ≤ clock l')%N
               ∧ Db.file_path b' = Some (temp_name b +:+ ext)))).

(** ** Feed ingestion ([syncRSS]) *)

Module Feed.

(** An item as the feed parser hands it over; every field may be absent.
    [content] is the description, [book_id], [isbn] and [author_name] are
    the custom fields, [creator] is the Dublin Core one. *)
Record Item := {
  book_id : option string;
  isbn : option string;
  content : option string;
  title : option string;
  author_name : option string;
  creator : option string
}.

(** [rssParser.parseURL]: it throws, or yields the items, which are then
    stored at time [now]. *)
Inductive Reply :=
  | Throws
  | Items (now : N) (items : list Item).

(** The counters of the summary line for one user. *)
Record Stats := {
  newBooks : nat;
  existingBooks : nat;
  skipped : nat
}.

End Feed.

Definition is_digit (c : ascii) : bool :=
  let n := nat_of_ascii c in (48 <=? n) && (n <=? 57).

(** [n] digits at the start of [s]. *)
Fixpoint digits (n : nat) (s : string) : option string :=
  match n with
  | O => Some EmptyString
  | S k =>
      match s with
      | EmptyString => None
      | String c r =>
          if is_digit c then String c <$> digits k r else None
      end
  end.

Fixpoint drop_chars (n : nat) (s : string) : string :=
  match n, s with
  | S k, String _ r => drop_chars k r
  | _, _ => s
  end.

(** The capture of the leftmost match of the pattern that looks for the
    word isbn13, a colon, optional white space and thirteen digits. *)
Fixpoint isbn13Match (s : string) : option string :=
  match s with
  | EmptyString => None
  | String _ r =>
      match (if String.prefix "isbn13:" s
             then digits 13 (Match.skip_spaces (drop_chars 7 s))
             else None) with
      | Some d => Some d
      | None => isbn13Match r
      end
  end.

(** [x || null] *)
Definition or_null (x : option string) : option string :=
  if Match.truthy x then x else None.

(** The isbn of an item: the trimmed [isbn] field when that is not empty,
    else the capture from the description. *)
Definition item_isbn (item : Feed.Item) : option string :=
  let isbn :=
    match Feed.isbn item with
    | Some s =>
        if Match.truthy (Some s) && (0 <? String.length (Match.trim s))
        then Some (Match.trim s) else None
    | None => None
    end in
  match isbn with
  | Some _ => isbn
  | None =>
      if Match.truthy (Feed.content item)
      then isbn13Match (default EmptyString (Feed.content item))
      else None
  end.

(** [item.author_name || item.creator || null] *)
Definition item_author (item : Feed.Item) : option string :=
  if Match.truthy (Feed.author_name item) then Feed.author_name item
  else or_null (Feed.creator item).

Definition count_new (n : Feed.Stats) : Feed.Stats :=
  {| Feed.newBooks := S (Feed.newBooks n);
     Feed.existingBooks := Feed.existingBooks n; Feed.skipped := Feed.skipped n |}.

Definition count_existing (n : Feed.Stats) : Feed.Stats :=
  {| Feed.newBooks := Feed.newBooks n;
     Feed.existingBooks := S (Feed.existingBooks n); Feed.skipped := Feed.skipped n |}.

Definition count_skipped (n : Feed.Stats) : Feed.Stats :=
  {| Feed.newBooks := Feed.newBooks n;
     Feed.existingBooks := Feed.existingBooks n; Feed.skipped := S (Feed.skipped n) |}.

(** The body of the loop over the items of one feed. *)
Definition sync_item (now : N) (user : Db.User)
    (acc : Db.Store * Feed.Stats) (item : Feed.Item) : Db.Store * Feed.Stats :=
  let '(st, n) := acc in
  match or_null (Feed.book_id item) with
  | None => (st, count_skipped n)
  | Some goodreadsBookId =>
      let existing := Db.getBookByGoodreadsId goodreadsBookId st in
      let st := Db.upsertBookByGoodreadsId now (Some goodreadsBookId)
                  (item_isbn item) (or_null (Feed.title item))
                  (item_author item) st in
      match Db.getBookByGoodreadsId goodreadsBookId st with
      | None => (st, n)
      | Some book =>
          let st := Db.linkUserBook (Db.user_rowid user) (Db.rowid book) st in
          (st, match existing with
               | Some _ => count_existing n
               | None => count_new n
               end)
      end
  end.

Definition no_stats : Feed.Stats :=
  {| Feed.newBooks := 0; Feed.existingBooks := 0; Feed.skipped := 0 |}.

(** The body of the loop over the users: a feed that cannot be fetched
    is logged and passed over. *)
Definition sync_user (feeds : Db.User → Feed.Reply)
    (acc : Db.Store * list (option Feed.Stats)) (user : Db.User)
    : Db.Store * list (option Feed.Stats) :=
  let '(st, report) := acc in
  match feeds user with
  | Feed.Throws => (st, report ++ [None])
  | Feed.Items now items =>
      let '(st, n) := foldl (sync_item now user) (st, no_stats) items in
      (st, report ++ [Some n])
  end.

(** [syncRSS]: the store it leaves and the summary for each user, in the
    order of [getUsers]. *)
Definition syncRSS (feeds : Db.User → Feed.Reply) (st : Db.Store)
    : Db.Store * list (option Feed.Stats) :=
  foldl (sync_user feeds) (st, []) (Db.getUsers st).

(** The book under [key] is in the store and linked to user [u]. *)
Definition wanted (key : string) (u : nat) (st : Db.Store) : Prop :=
  ∃ b k, b ∈ Db.books st ∧ Db.has_key key b
         ∧ k ∈ Db.user_books st
         ∧ Db.user_id k = u ∧ Db.book_id k = Db.rowid b.

(** The columns of a book row that ingestion has no statement for. *)
Definition kept (b b' : Db.Book) : Prop :=
  Db.rowid b' = Db.rowid b
  ∧ Db.goodreads_book_id b' = Db.goodreads_book_id b
  ∧ Db.status b' = Db.status b ∧ Db.attempts b' = Db.attempts b
  ∧ Db.file_path b' = Db.file_path b ∧ Db.added_at b' = Db.added_at b
  ∧ Db.downloaded_at b' = Db.downloaded_at b.

(** A row as ingestion creates it. *)
Definition queued (b : Db.Book) : Prop :=
  Db.status b = Db.pending ∧ Db.attempts b = 0
  ∧ Db.file_path b = None ∧ Db.downloaded_at b = None.

(** How ingestion extends a store: the users stay, the rows stay in place
    with the columns of [kept], rows are added at the end as [queued], and
    links are added at the end. *)
Definition extends (st st' : Db.Store) : Prop :=
  Db.users st' = Db.users st
  ∧ (∃ olds fresh, Db.books st' = olds ++ fresh
                   ∧ Forall2 kept (Db.books st) olds ∧ Forall queued fresh)
  ∧ (∃ more, Db.user_books st' = Db.user_books st ++ more).

(** The AUTOINCREMENT counter is at least every id in use. *)
Definition seq_bounds (st : Db.Store) : Prop :=
  Forall (fun b => Db.rowid b ≤ Db.book_seq st) (Db.books st).

Definition total_new (report : list (option Feed.Stats)) : nat :=
  sum_list ((fun r => match r with Some n => Feed.newBooks n | None => 0 end)
              <$> report).

(** What the summary of one user says: nothing when the feed could not be
    fetched; else counters that add up to the number of items, the skipped
    ones being the items without a book id. *)
Definition summary_of (feeds : Db.User → Feed.Reply) (user : Db.User)
    (x : option Feed.Stats) : Prop :=
  match feeds user with
  | Feed.Throws => x = None
  | Feed.Items _ items =>
      ∃ n, x = Some n
           ∧ Feed.newBooks n + Feed.existingBooks n + Feed.skipped n = length items
           ∧ Feed.skipped n
             = length (filter (fun item => or_null (Feed.book_id item) = None) items)
  end.

Module Feeds.

(** An item for Dune and one for Emma, and an item without a book id. *)
Definition dune_item : Feed.Item :=
  {| Feed.book_id := Some "44767458"; Feed.isbn := Some " 0441172717 ";
     Feed.content := Some "isbn13: 9780441172719";
     Feed.title := Some "Dune (Dune, #1)";
     Feed.author_name := Some "Frank Herbert"; Feed.creator := None |}.

Definition emma_item : Feed.Item :=
  {| Feed.book_id := Some "6969"; Feed.isbn := Some "";
     Feed.content := Some "author: Jane Austen, isbn13:  9780141439587 and more";
     Feed.title := Some "Emma";
     Feed.author_name := None; Feed.creator := Some "Jane Austen" |}.

Definition stray_item : Feed.Item :=
  {| Feed.book_id := None; Feed.isbn := None; Feed.content := None;
     Feed.title := Some "Untitled"; Feed.author_name := None;
     Feed.creator := None |}.

(** The feed of Alice holds the three items; the feed of Bob cannot be
    fetched. *)
Definition to_read (user : Db.User) : Feed.Reply :=
  if Db.user_rowid user =? 1
  then Feed.Items 2000 [dune_item; stray_item; emma_item]
  else Feed.Throws.

End Feeds.

(** The [UNIQUE] and [PRIMARY KEY] constraints of [books], with the
    AUTOINCREMENT counter. *)
Definition constraints (st : Db.Store) : Prop :=
  unique_keys st ∧ unique_rowids st ∧ seq_bounds st.

(** A second fetch of the feeds that brings nothing new: every feed that
    is delivered holds the items it held the first time. *)
Definition same_items (feeds feeds' : Db.User → Feed.Reply) (st : Db.Store) : Prop :=
  ∀ user, user ∈ Db.users st →
    match feeds' user with
    | Feed.Throws => True
    | Feed.Items _ items' =>
        match feeds user with
        | Feed.Throws => False
        | Feed.Items _ items => items' = items
        end
    end.

(** The state of a store during a second ingestion that brings nothing
    new: as many rows and the very links as after the first, and whatever
    was wanted then still is. *)
Definition settled (st1 st : Db.Store) : Prop :=
  unique_keys st ∧ Db.user_books st = Db.user_books st1
  ∧ length (Db.books st) = length (Db.books st1)
  ∧ ∀ key u, wanted key u st1 → wanted key u st.

(** ** A whole cycle ([runCycle]) *)

(** The two steps of [runCycle] that act on the store: ingestion, then the
    queue, which starts at time [now]. The guard against overlapping cycles
    and the sending of the notifications are outside the model. *)
Definition runCycle (MAX_DOWNLOADS_PER_DAY MAX_DOWNLOADS_PER_USER_PER_DAY : nat)
    (AA_API_KEY : option string) (feeds : Db.User → Feed.Reply)
    (env : nat → Attempt) (st : Db.Store) (fs : Fs) (now : N) : option Loop :=
  processQueue MAX_DOWNLOADS_PER_DAY MAX_DOWNLOADS_PER_USER_PER_DAY AA_API_KEY
    env (syncRSS feeds st).1 fs now.

(** Every user outside the rate-limited set is below the per-user cap for
    the day of the clock. *)
Definition below_quota (capU : nat) (l : Loop) : Prop :=
  ∀ user, user ∈ Db.users (store l) →
    Db.user_rowid user ∉ rateLimitedUserIds l →
    Db.countUserDownloadsToday (clock l) (Db.user_rowid user) (store l) < capU.

(** The count of a user as a sum over the rows. *)
Definition share (day : N) (u : nat) (st : Db.Store) (b : Db.Book) : nat :=
  if decide (Db.downloaded_on day b) then length (Db.links_of u b st) else 0.


(** Every success carries its time. *)
Definition dated (st : Db.Store) : Prop :=
  Forall (fun b => Db.status b = Db.downloaded → is_Some (Db.downloaded_at b))
         (Db.books st).

(** ** The match engine refines its specification *)

Section MatchFacts.
Import Match.

Lemma has_elem_of (s : list string) (w : string) : has s w = true ↔ w ∈ s.
Proof.
  unfold has. rewrite existsb_exists. split.
  - intros (x & Hin & Heq). apply String.eqb_eq in Heq. subst x.
    by apply list_elem_of_In.
  - intros Hin. exists w. split; [by apply list_elem_of_In | apply String.eqb_refl].
Qed.

Lemma fold_add_spec (l acc : list string) :
  NoDup acc →
  NoDup (fold_left add l acc) ∧ ∀ w, w ∈ fold_left add l acc ↔ w ∈ acc ∨ w ∈ l.
Proof.
  revert acc. induction l as [|x l IH]; intros acc Hnd; simpl.
  - split; [done|]. intros w. rewrite elem_of_nil. tauto.
  - unfold add at 2 4. destruct (has acc x) eqn:Hx.
    + destruct (IH acc Hnd) as [H1 H2]. split; [done|].
      intros w. rewrite H2, elem_of_cons. apply has_elem_of in Hx.
      split; [tauto|]. intros [?|[->|?]]; tauto.
    + assert (x ∉ acc) as Hni.
      { intros Hin. apply has_elem_of in Hin. congruence. }
      destruct (IH (acc ++ [x])) as [H1 H2].
      { apply NoDup_app. split_and!; [done| |apply NoDup_singleton].
        intros y Hy Hy'. apply list_elem_of_singleton in Hy'. by subst. }
      split; [done|]. intros w.
      rewrite H2, elem_of_app, list_elem_of_singleton, elem_of_cons. tauto.
Qed.

Lemma new_Set_NoDup l : NoDup (new_Set l).
Proof. apply fold_add_spec, NoDup_nil_2. Qed.

Lemma new_Set_elem_of l w : w ∈ new_Set l ↔ w ∈ l.
Proof.
  unfold new_Set. destruct (fold_add_spec l [] (NoDup_nil_2)) as [_ H].
  rewrite H, elem_of_nil. tauto.
Qed.

Lemma new_Set_to_set l : list_to_set (new_Set l) =@{gset string} list_to_set l.
Proof. apply set_eq. intros w. rewrite !elem_of_list_to_set. apply new_Set_elem_of. Qed.

(** The [size] of a JS [Set] is the cardinality of the set it holds. *)
Lemma new_Set_size l : length (new_Set l) = size (list_to_set l : gset string).
Proof.
  rewrite <- new_Set_to_set, size_list_to_set; [done | apply new_Set_NoDup].
Qed.

Lemma count_matches_filter (smaller larger : list string) :
  count_matches smaller larger = length (filter (.∈ larger) smaller).
Proof.
  unfold count_matches.
  enough (∀ n, fold_left (λ m w, if has larger w then S m else m) smaller n
               = n + length (filter (.∈ larger) smaller)) as H by apply H.
  induction smaller as [|w sm IH]; intros n; simpl; [lia|].
  rewrite IH, filter_cons. destruct (has larger w) eqn:Hw.
  - apply has_elem_of in Hw. rewrite decide_True by done. simpl. lia.
  - rewrite decide_False; [lia|]. intros Hin. apply has_elem_of in Hin. congruence.
Qed.

(** The counting loop computes the cardinality of the intersection. *)
Lemma count_matches_inter (smaller larger : list string) :
  NoDup smaller →
  count_matches smaller larger
  = size (list_to_set smaller ∩ list_to_set larger : gset string).
Proof.
  intros Hnd. rewrite count_matches_filter.
  rewrite <- (size_list_to_set (C := gset string)) by by apply NoDup_filter.
  f_equal. apply set_eq. intros w.
  rewrite elem_of_intersection, !elem_of_list_to_set, list_elem_of_filter. tauto.
Qed.

Lemma wordOverlap_refines (a b : option string) :
  wordOverlap a b = titleScore_spec a b.
Proof.
  unfold wordOverlap, titleScore_spec, word_set.
  set (wa := words (normalizeText a)). set (wb := words (normalizeText b)).
  rewrite !new_Set_size.
  destruct (decide (list_to_set wa = ∅ ∨ list_to_set wb = (∅ : gset string))) as [He|He].
  - assert (size (list_to_set wa : gset string) = 0
            ∨ size (list_to_set wb : gset string) = 0) as [->| ->].
    { destruct He as [-> | ->]; rewrite size_empty; auto. }
    + done.
    + by rewrite orb_true_r.
  - assert (size (list_to_set wa : gset string) ≠ 0
            ∧ size (list_to_set wb : gset string) ≠ 0) as [Ha Hb].
    { split; intros H0; apply size_empty_inv in H0; apply leibniz_equiv in H0; tauto. }
    apply Nat.eqb_neq in Ha, Hb. rewrite Ha, Hb. simpl.
    destruct (decide _) as [Hle|Hle].
    + apply Nat.leb_le in Hle as Hle'. rewrite Hle'.
      rewrite count_matches_inter by apply new_Set_NoDup.
      by rewrite new_Set_size, !new_Set_to_set.
    + apply Nat.leb_nle in Hle as Hle'. rewrite Hle'.
      rewrite count_matches_inter by apply new_Set_NoDup.
      by rewrite new_Set_size, !new_Set_to_set.
Qed.
End MatchFacts.

Section AuthorFacts.
Import Match.

Lemma append_cons (c : ascii) (s t : string) :
  String c s +:+ t = String c (s +:+ t).
Proof. reflexivity. Qed.

Lemma append_empty_l (s : string) : EmptyString +:+ s = s.
Proof. reflexivity. Qed.

Lemma prefix_spec (p s : string) :
  String.prefix p s = true ↔ ∃ post, s = p +:+ post.
Proof.
  revert s. induction p as [|a p IH]; intros [|b s]; simpl.
  - split; [eauto|done].
  - split; [eauto|done].
  - split; [done|]. intros [post H]. by rewrite append_cons in H.
  - destruct (ascii_dec a b) as [->|Hne].
    + rewrite IH. split; intros [post H]; exists post.
      * by rewrite append_cons, <- H.
      * rewrite append_cons in H. congruence.
    + split; [done|]. intros [post H]. rewrite append_cons in H. congruence.
Qed.

Lemma includes_spec (s part : string) :
  includes s part = true ↔ is_substring part s.
Proof.
  unfold is_substring. induction s as [|c r IH].
  - change (includes EmptyString part) with (String.prefix part EmptyString || false).
    rewrite orb_false_r, prefix_spec. split.
    + intros [post H]. by exists EmptyString, post.
    + intros (pre & post & H). destruct pre as [|c pre].
      * by exists post.
      * by rewrite append_cons in H.
  - change (includes (String c r) part)
      with (String.prefix part (String c r) || includes r part).
    rewrite orb_true_iff, prefix_spec, IH. split.
    + intros [[post H]|(pre & post & H)].
      * by exists EmptyString, post.
      * exists (String c pre), post. by rewrite append_cons, <- H.
    + intros (pre & post & H). destruct pre as [|c' pre].
      * left. by exists post.
      * right. exists pre, post. rewrite append_cons in H. congruence.
Qed.

Lemma Qltb_false (x y : Q) : Qltb x y = false ↔ (y <= x)%Q.
Proof. unfold Qltb. rewrite negb_false_iff. apply Qle_bool_iff. Qed.

Lemma Qltb_true (x y : Q) : Qltb x y = true ↔ (x < y)%Q.
Proof.
  unfold Qltb. rewrite negb_true_iff, <- not_true_iff_false, Qle_bool_iff.
  split; [apply Qnot_le_lt | apply Qlt_not_le].
Qed.

(** The author check of [isGoodMatch] decides [author_verified]. *)
Lemma authorHit_spec (expectedAuthor resultAuthor : option string) :
  existsb (λ part, includes (normalizeText resultAuthor) part)
    (List.filter (λ w, 2 <? String.length w) (split " " (normalizeText expectedAuthor)))
  = true
  ↔ author_verified expectedAuthor resultAuthor.
Proof.
  unfold author_verified, words. rewrite existsb_exists. split.
  - intros (tok & Hin & Hinc). apply filter_In in Hin as [Hin Hlen].
    apply Nat.ltb_lt in Hlen. exists tok. split_and!; [|done|by apply includes_spec].
    rewrite list_elem_of_In, filter_In. split; [done|].
    unfold nonempty. destruct tok; [simpl in Hlen; lia | done].
  - intros (tok & Hin & Hlen & Hsub). exists tok. split; [|by apply includes_spec].
    rewrite list_elem_of_In, filter_In in Hin. destruct Hin as [Hin _].
    apply filter_In. split; [done|]. by apply Nat.ltb_lt.
Qed.

Lemma isGoodMatch_spec (eT eA cT cA : option string) :
  isGoodMatch eT eA cT cA = true
  ↔ (threshold <= titleScore_spec eT cT)%Q
    ∧ (truthy eA = true → author_verified eA cA).
Proof.
  unfold isGoodMatch. rewrite wordOverlap_refines.
  destruct (Qltb (titleScore_spec eT cT) threshold) eqn:Hq.
  - apply Qltb_true in Hq. split; [done|]. intros [Hle _].
    exfalso. by apply (Qlt_not_le _ _ Hq).
  - apply Qltb_false in Hq. destruct (truthy eA); [|by split].
    destruct (existsb _ _) eqn:Hex; simpl.
    + apply authorHit_spec in Hex. by split.
    + split; [done|]. intros [_ Hv]. specialize (Hv eq_refl).
      apply authorHit_spec in Hv. congruence.
Qed.
End AuthorFacts.

(** ** The match engine against [Spec] *)

Section SpecFacts.
Import Match.

Lemma blank_is_space c : is_space c = Spec.blank c.
Proof. by destruct c as [[] [] [] [] [] [] [] []]. Qed.

Lemma newline_is_line_terminator c : is_line_terminator c = Spec.newline c.
Proof. by destruct c as [[] [] [] [] [] [] [] []]. Qed.

Lemma word_char_is_word c : is_word c = Spec.word_char c.
Proof. by destruct c as [[] [] [] [] [] [] [] []]. Qed.

Lemma lower_lower_char c : lower_char c = Spec.lower c.
Proof. by destruct c as [[] [] [] [] [] [] [] []]. Qed.

(** *** Stage by stage *)

Lemma toLowerCase_lowercase s : toLowerCase s = Spec.lowercase s.
Proof.
  induction s as [|c r IH]; [done|]. simpl. by rewrite IH, lower_lower_char.
Qed.

Lemma skip_spaces_drop_while s : skip_spaces s = Spec.drop_while Spec.blank s.
Proof.
  induction s as [|c r IH]; [done|]. simpl. by rewrite IH, blank_is_space.
Qed.

(** The closing parenthesis that [close_index] counts up to is the one
    that [after_close] cuts at. *)
Lemma close_index_after_close r :
  match close_index r with
  | Some k =>
      ∃ rest, Spec.after_close r = Some rest
              ∧ String.length rest < String.length r
              ∧ strip_parens_from (S k) r = strip_parens_from 0 rest
  | None => Spec.after_close r = None
  end.
Proof.
  induction r as [|c r IH]; [done|].
  cbn [close_index Spec.after_close]. rewrite <- newline_is_line_terminator.
  destruct (Ascii.eqb c ")").
  { exists r. split_and!; [done|simpl; lia|done]. }
  destruct (is_line_terminator c); [done|].
  destruct (close_index r) as [k|]; [|done].
  destruct IH as (rest & Hrest & Hlen & Hstrip).
  exists rest. split_and!; [done|simpl; lia|done].
Qed.

Lemma strip_parens_upto n s :
  String.length s ≤ n → strip_parens_from 0 s = Spec.strip_spans_upto n s.
Proof.
  revert s. induction n as [|n IH]; intros [|c r] Hlen; simpl in *; try done; [lia|].
  pose proof (close_index_after_close r) as Hclose.
  destruct (Ascii.eqb c "(").
  - destruct (close_index r) as [k|].
    + destruct Hclose as (rest & -> & Hrest & Hstrip).
      change (strip_parens_from (S k) r = Spec.strip_spans_upto n rest).
      rewrite Hstrip. apply IH. lia.
    + rewrite Hclose. f_equal. apply IH. lia.
  - f_equal. apply IH. lia.
Qed.

Lemma strip_parens_strip_spans s : strip_parens s = Spec.strip_spans s.
Proof. by apply strip_parens_upto. Qed.

(** The subtitle marker holds no colon. *)
Lemma a_novel_tail_no_colon r :
  a_novel_tail r = true → Spec.split_last_colon r = None.
Proof.
  unfold a_novel_tail. induction r as [|c r IH]; [done|].
  cbn [skip_spaces]. destruct (is_space c) eqn:Hc.
  - intros H. cbn [Spec.split_last_colon]. rewrite (IH H).
    destruct (Ascii.eqb_spec c ":") as [->|]; [done|done].
  - intros H%String.eqb_eq.
    destruct r as [|c1 [|c2 [|c3 [|c4 [|c5 [|c6 [|c7 r]]]]]]]; try done.
    cbn in H. injection H as H0 H1 H2 H3 H4 H5 H6.
    cbn [Spec.split_last_colon].
    destruct (Ascii.eqb_spec c6 ":") as [->|]; [done|].
    destruct (Ascii.eqb_spec c5 ":") as [->|]; [done|].
    destruct (Ascii.eqb_spec c4 ":") as [->|]; [done|].
    destruct (Ascii.eqb_spec c3 ":") as [->|]; [done|].
    destruct (Ascii.eqb_spec c2 ":") as [->|]; [done|].
    destruct (Ascii.eqb_spec c1 ":") as [->|]; [done|].
    destruct (Ascii.eqb_spec c ":") as [->|]; [done|]. done.
Qed.

Lemma a_novel_tail_marker r :
  a_novel_tail r
  = String.eqb (Spec.lowercase (Spec.drop_while Spec.blank r)) "a novel".
Proof.
  unfold a_novel_tail. by rewrite skip_spaces_drop_while, toLowerCase_lowercase.
Qed.

Lemma strip_a_novel_strip_marker s : strip_a_novel s = Spec.strip_marker s.
Proof.
  induction s as [|c r IH]; [done|].
  cbn [strip_a_novel]. unfold Spec.strip_marker in *.
  cbn [Spec.split_last_colon].
  destruct (Ascii.eqb c ":") eqn:Hc.
  - destruct (a_novel_tail r) eqn:Htail.
    + rewrite (a_novel_tail_no_colon r Htail).
      by rewrite <- a_novel_tail_marker, Htail.
    + rewrite IH. destruct (Spec.split_last_colon r) as [[pre post]|].
      * by destruct (String.eqb _ _).
      * by rewrite <- a_novel_tail_marker, Htail.
  - rewrite IH. destruct (Spec.split_last_colon r) as [[pre post]|]; [|done].
    by destruct (String.eqb _ _).
Qed.

Lemma remove_punct_strip_punctuation s :
  remove_punct s = Spec.strip_punctuation s.
Proof.
  unfold Spec.strip_punctuation. induction s as [|c r IH]; [done|]. simpl.
  by rewrite IH, word_char_is_word, blank_is_space.
Qed.

(** *** Chunks *)

Lemma append_empty_r (s : string) : s +:+ EmptyString = s.
Proof. induction s as [|c s IH]; [done|]. by rewrite append_cons, IH. Qed.

Lemma append_snoc (acc : string) (c : ascii) (t : string) :
  (acc +:+ String c EmptyString) +:+ t = acc +:+ String c t.
Proof. induction acc as [|a acc IH]; [done|]. by rewrite !append_cons, IH. Qed.

Lemma snoc_nonempty (acc : string) (c : ascii) :
  acc +:+ String c EmptyString ≠ EmptyString.
Proof. by destruct acc. Qed.

Lemma chunks_nonempty sep acc s w :
  w ∈ Spec.chunks sep acc s → w ≠ EmptyString.
Proof.
  revert acc. induction s as [|c r IH]; intros acc; simpl.
  - destruct acc; [by intros ?%elem_of_nil|].
    by intros ->%list_elem_of_singleton.
  - destruct (sep c).
    + destruct acc; [apply IH|].
      intros [->|?]%elem_of_cons; [done|by eapply IH].
    + apply IH.
Qed.

Lemma unwords_cons w ws :
  Spec.unwords (w :: ws)
  = match ws with [] => w | _ => w +:+ " " +:+ Spec.unwords ws end.
Proof. by destruct ws. Qed.

Lemma unwords_chunks_empty sep acc s :
  Spec.unwords (Spec.chunks sep acc s) = EmptyString → Spec.chunks sep acc s = [].
Proof.
  destruct (Spec.chunks sep acc s) as [|w ws] eqn:Hch; [done|].
  assert (w ≠ EmptyString) as Hw.
  { apply (chunks_nonempty sep acc s). rewrite Hch. apply list_elem_of_here. }
  rewrite unwords_cons. destruct w; [done|]. by destruct ws.
Qed.

Lemma split_cons sep s : ∃ t ts, split sep s = t :: ts.
Proof.
  induction s as [|c r (t & ts & IH)]; simpl; [by eexists _, _|].
  destruct (Ascii.eqb c sep); [by eexists _, _|]. rewrite IH. by eexists _, _.
Qed.

(** [split(' ').filter(Boolean)] yields the chunks between spaces. *)
Lemma words_from acc s :
  Spec.chunks (λ c, Ascii.eqb c " ") acc s
  = List.filter nonempty
      (match split " " s with t :: ts => (acc +:+ t) :: ts | [] => [] end).
Proof.
  revert acc. induction s as [|c r IH]; intros acc.
  - simpl. rewrite append_empty_r. by destruct acc.
  - cbn [Spec.chunks split]. destruct (Ascii.eqb c " ").
    + rewrite append_empty_r.
      specialize (IH EmptyString).
      assert (match split " " r with t :: ts => (EmptyString +:+ t) :: ts | [] => [] end
              = split " " r) as Heq by (by destruct (split " " r)).
      rewrite Heq in IH. cbn [List.filter].
      destruct acc; [done|]. simpl. by rewrite IH.
    + rewrite IH. destruct (split_cons " " r) as (t & ts & ->).
      by rewrite append_snoc.
Qed.

Lemma words_tokens s : words s = Spec.tokens s.
Proof.
  unfold words, Spec.tokens. rewrite words_from.
  by destruct (split " " s).
Qed.

(** [.replace(/\s+/g, ' ').trim()] yields the chunks between white space,
    with one space between two of them. *)
Lemma skip_collapse_true s :
  skip_spaces (collapse_from true s) = collapse_from true s.
Proof.
  induction s as [|c r IH]; [done|]. simpl.
  destruct (is_space c) eqn:Hc; [done|]. simpl. by rewrite Hc.
Qed.

Lemma skip_collapse_false s :
  skip_spaces (collapse_from false s) = collapse_from true s.
Proof.
  destruct s as [|c r]; [done|]. simpl.
  destruct (is_space c) eqn:Hc; simpl.
  - apply skip_collapse_true.
  - by rewrite Hc.
Qed.

Lemma trim_end_collapse s :
  trim_end (collapse_from true s) = Spec.unwords (Spec.chunks Spec.blank EmptyString s)
  ∧ ∀ acc, acc ≠ EmptyString →
      Spec.unwords (Spec.chunks Spec.blank acc s)
      = acc +:+ trim_end (collapse_from false s).
Proof.
  induction s as [|c r [IH1 IH2]].
  - split; [done|]. intros acc Hacc. simpl. rewrite append_empty_r. by destruct acc.
  - cbn [collapse_from Spec.chunks]. rewrite <- blank_is_space.
    destruct (is_space c) eqn:Hc.
    + split; [done|]. intros acc Hacc.
      destruct acc as [|a acc]; [done|].
      cbn [trim_end]. rewrite IH1, unwords_cons.
      destruct (Spec.chunks Spec.blank EmptyString r) as [|w ws] eqn:Hch.
      * simpl. by rewrite append_empty_r.
      * destruct (String.eqb_spec (Spec.unwords (w :: ws)) EmptyString) as [He|He].
        -- rewrite <- Hch in He. apply unwords_chunks_empty in He. congruence.
        -- done.
    + split.
      * rewrite append_empty_l, (IH2 (String c EmptyString)) by done.
        cbn [trim_end]. rewrite Hc. cbn [andb].
        by rewrite append_cons, append_empty_l.
      * intros acc Hacc. rewrite IH2 by apply snoc_nonempty.
        cbn [trim_end]. rewrite Hc. cbn [andb]. by rewrite append_snoc.
Qed.

Lemma trim_collapse_ws s :
  trim (collapse_ws s) = Spec.collapse_whitespace s.
Proof.
  unfold trim, collapse_ws, Spec.collapse_whitespace.
  rewrite skip_collapse_false. apply trim_end_collapse.
Qed.

(** The normalization of the code is the normalization of the
    specification. *)
Lemma normalizeText_normalize x : normalizeText x = Spec.normalize x.
Proof.
  destruct x as [[|c s]|]; [done| |done].
  unfold normalizeText, Spec.normalize.
  by rewrite toLowerCase_lowercase, strip_parens_strip_spans,
    strip_a_novel_strip_marker, remove_punct_strip_punctuation, trim_collapse_ws.
Qed.

End SpecFacts.

Section SpecBridge.
Import Match.

Lemma word_set_spec x : word_set x = Spec.word_set x.
Proof.
  unfold word_set, Spec.word_set. by rewrite normalizeText_normalize, words_tokens.
Qed.

Lemma wordOverlap_titleScore a b : wordOverlap a b = Spec.titleScore a b.
Proof.
  rewrite wordOverlap_refines. unfold titleScore_spec, Spec.titleScore.
  by rewrite !word_set_spec.
Qed.

Lemma truthy_present x : truthy x = true ↔ Spec.present x.
Proof.
  unfold Spec.present. destruct x as [[|c s]|]; simpl.
  - split; [done|]. by intros (s & [= <-] & Hs).
  - split; [|done]. intros _. by exists (String c s).
  - split; [done|]. by intros (s & ? & _).
Qed.

Lemma author_verified_spec eA cA :
  author_verified eA cA ↔ Spec.author_verified eA cA.
Proof.
  unfold author_verified, Spec.author_verified, is_substring, Spec.substring_of.
  by rewrite !normalizeText_normalize, words_tokens.
Qed.

Lemma isGoodMatch_meets_spec (eT eA cT cA : option string) :
  isGoodMatch eT eA cT cA = true
  ↔ (7 # 10 <= Spec.titleScore eT cT)%Q
    ∧ (Spec.present eA → Spec.author_verified eA cA).
Proof.
  rewrite isGoodMatch_spec, <- wordOverlap_titleScore, <- wordOverlap_refines.
  by rewrite truthy_present, author_verified_spec.
Qed.
End SpecBridge.

(** ** Facts about the store *)

Section DbFacts.
Import Db.

Lemma update_where_books id f st :
  books (update_where id f st) = touch id f <$> books st.
Proof. reflexivity. Qed.

Lemma touch_same id f b : rowid b = id → touch id f b = f b.
Proof. intros. unfold touch. by case_decide. Qed.

Lemma touch_other id f b : rowid b ≠ id → touch id f b = b.
Proof. intros. unfold touch. by case_decide. Qed.

Lemma date_mono (t t' : N) : (t ≤ t')%N → (date t ≤ date t')%N.
Proof. intros H. unfold date. by apply N.Div0.div_le_mono. Qed.

Lemma least_attempts_spec (l : list Book) (b : Book) :
  least_attempts l = Some b →
  b ∈ l ∧ ∀ c, c ∈ l → attempts b ≤ attempts c.
Proof.
  revert b. induction l as [|x l IH]; intros b; simpl; [done|].
  destruct (least_attempts l) as [m|] eqn:Hm.
  - destruct (IH m eq_refl) as [Hin Hmin].
    destruct (decide (attempts x ≤ attempts m)) as [Hle|Hgt]; intros [= <-].
    + split; [left|]. intros c [->|Hc]%elem_of_cons; [lia|].
      specialize (Hmin c Hc). lia.
    + split; [by right|]. intros c [->|Hc]%elem_of_cons; [lia|by apply Hmin].
  - intros [= <-]. destruct l; [|simpl in Hm; by repeat case_match].
    split; [left|]. intros c [->|Hc]%elem_of_cons; [done|by apply elem_of_nil in Hc].
Qed.

Lemma least_attempts_None (l : list Book) : least_attempts l = None ↔ l = [].
Proof.
  split; [|by intros ->]. destruct l; [done|]. simpl. by repeat case_match.
Qed.

(** What the selection query returns. *)
Lemma nextPending_Some max excl st b :
  nextPending max excl st = Some b →
  b ∈ books st ∧ selectable max excl b
  ∧ ∀ c, c ∈ books st → selectable max excl c → attempts b ≤ attempts c.
Proof.
  unfold nextPending. intros [Hin Hmin]%least_attempts_spec.
  apply list_elem_of_filter in Hin as [Hsel Hin]. split_and!; [done..|].
  intros c Hc Hselc. apply Hmin, list_elem_of_filter. by split.
Qed.

Lemma nextPending_None max excl st :
  nextPending max excl st = None ↔ ∀ c, c ∈ books st → ¬ selectable max excl c.
Proof.
  unfold nextPending. rewrite least_attempts_None. split.
  - intros Hnil c Hc Hsel.
    assert (c ∈ filter (selectable max excl) (books st)) as Hin
      by (apply list_elem_of_filter; by split).
    rewrite Hnil in Hin. by apply elem_of_nil in Hin.
  - intros Hno. destruct (filter _ _) as [|c r] eqn:Hf; [done|].
    assert (c ∈ filter (selectable max excl) (books st)) as Hin
      by (rewrite Hf; left).
    apply list_elem_of_filter in Hin as [Hsel Hin]. by destruct (Hno c Hin).
Qed.

Lemma same_rowid_same_row (l : list Book) (b c : Book) :
  NoDup (rowid <$> l) → b ∈ l → c ∈ l → rowid b = rowid c → b = c.
Proof.
  induction l as [|x l IH]; intros Hnd Hb Hc Heq; [by apply elem_of_nil in Hb|].
  rewrite fmap_cons in Hnd. apply NoDup_cons in Hnd as [Hx Hnd].
  apply elem_of_cons in Hb as [->|Hb]; apply elem_of_cons in Hc as [->|Hc].
  - done.
  - exfalso. apply Hx. rewrite Heq. by apply list_elem_of_fmap_2.
  - exfalso. apply Hx. rewrite <- Heq. by apply list_elem_of_fmap_2.
  - by apply IH.
Qed.

(** Rewriting the row [job] in place changes a count by that row only. *)
Lemma count_touch (P : Book → Prop) `{∀ b, Decision (P b)}
    (l : list Book) (job : Book) (f : Book → Book) :
  NoDup (rowid <$> l) → job ∈ l →
  length (filter P (touch (rowid job) f <$> l)) + (if decide (P job) then 1 else 0)
  = length (filter P l) + (if decide (P (f job)) then 1 else 0).
Proof.
  induction l as [|x l IH]; intros Hnd Hin; [by apply elem_of_nil in Hin|].
  rewrite fmap_cons in Hnd. apply NoDup_cons in Hnd as [Hx Hnd].
  rewrite fmap_cons, !filter_cons.
  apply elem_of_cons in Hin as [<-|Hin].
  - assert (touch (rowid job) f <$> l = l) as ->.
    { rewrite <- (list_fmap_id l) at 2. apply list_fmap_ext.
      intros i c Hc%list_elem_of_lookup_2. apply touch_other.
      intros Heq. apply Hx. rewrite <- Heq. by apply list_elem_of_fmap_2. }
    rewrite touch_same by done.
    repeat case_decide; simpl; lia.
  - specialize (IH Hnd Hin).
    assert (rowid x ≠ rowid job) as Hne.
    { intros Heq. apply Hx. rewrite Heq. by apply list_elem_of_fmap_2. }
    rewrite touch_other by done.
    destruct (decide (P x)); simpl; lia.
Qed.
End DbFacts.

(** ** Facts about the queue loop *)

Lemma evolves_refl (b : Db.Book) : evolves b b.
Proof.
  unfold evolves. split_and!; [done|lia|done|done|].
  intros Hp. split; [congruence|]. intros (H1 & H2 & _). lia.
Qed.

Lemma evolves_trans (b1 b2 b3 : Db.Book) :
  evolves b1 b2 → evolves b2 b3 → evolves b1 b3.
Proof.
  intros (R1 & A1 & B1 & U1 & F1) (R2 & A2 & B2 & U2 & F2). split_and!.
  - congruence.
  - lia.
  - auto.
  - intros Hu. specialize (U1 Hu). subst b2. auto.
  - intros Hp. specialize (F1 Hp).
    destruct (decide (Db.status b2 = Db.pending)) as [Hp2|Hp2].
    + specialize (F2 Hp2).
      destruct (decide (MAX_ATTEMPTS ≤ Db.attempts b2)) as [Hge|Hlt].
      * by rewrite (U2 (or_intror Hge)).
      * rewrite F2. split; intros (H1 & H2 & H3); split_and!; (done || lia).
    + by rewrite (U2 (or_introl Hp2)).
Qed.

Lemma Forall2_evolves_refl (l : list Db.Book) : Forall2 evolves l l.
Proof. apply Forall_Forall2_diag, Forall_forall. intros. apply evolves_refl. Qed.

Lemma Forall2_evolves_trans (l1 l2 l3 : list Db.Book) :
  Forall2 evolves l1 l2 → Forall2 evolves l2 l3 → Forall2 evolves l1 l3.
Proof. apply Forall2_trans. intros ???. apply evolves_trans. Qed.

Lemma Forall2_evolves_rowids (l l' : list Db.Book) :
  Forall2 evolves l l' → Db.rowid <$> l' = Db.rowid <$> l.
Proof.
  induction 1 as [|b b' l l' Hev _ IH]; [done|].
  rewrite !fmap_cons, IH. f_equal. apply Hev.
Qed.

Section QueueFacts.
Variable MAX_DOWNLOADS_PER_DAY : nat.
Variable MAX_DOWNLOADS_PER_USER_PER_DAY : nat.
Variable AA_API_KEY : option string.

Local Abbreviation iter :=
  (iteration MAX_DOWNLOADS_PER_DAY MAX_DOWNLOADS_PER_USER_PER_DAY AA_API_KEY).
Local Abbreviation loop :=
  (run MAX_DOWNLOADS_PER_DAY MAX_DOWNLOADS_PER_USER_PER_DAY AA_API_KEY).
Local Abbreviation cycle :=
  (processQueue MAX_DOWNLOADS_PER_DAY MAX_DOWNLOADS_PER_USER_PER_DAY AA_API_KEY).

(** Split a pass of the loop along the branches of the source. *)
Ltac branches a l :=
  unfold iteration; cbv zeta;
  destruct (decide (MAX_DOWNLOADS_PER_DAY ≤ Db.countDownloadsToday (clock l) (store l)))
    as [Hcap|Hcap];
  [| destruct (Db.nextPending MAX_ATTEMPTS (skippedBookIds l) (store l))
       as [job|] eqn:Hjob;
     [ destruct (eligible l job) as [|u0 us] eqn:Helig;
       [| destruct (attempt AA_API_KEY a job (u0 :: us) (files l) (log l))
            as [[fs lg] [fn|e]] eqn:Hatt ]
     | ] ].

Ltac row_facts :=
  unfold evolves, unselectable, MAX_ATTEMPTS in *; simpl in *;
  split_and!;
  [ done | lia | intros; lia
  | intros [?|?]; [congruence | lia]
  | intros _; split;
    [ intros ?; first [congruence | split_and!; (done || lia)]
    | intros (? & ? & ?); first [done | congruence | lia] ] ].

Ltac touched job :=
  let b := fresh "b" in let Hb := fresh "Hb" in let Hid := fresh "Hid" in
  intros b Hb; unfold compose; simpl;
  destruct (decide (Db.rowid b = Db.rowid job)) as [Hid|Hid]; simpl;
  [ assert (b = job) as -> by (by eapply same_rowid_same_row);
    rewrite ?decide_True by done; row_facts
  | rewrite ?decide_False by done; apply evolves_refl ].

(** One pass of the loop lets every row evolve. *)
Lemma iteration_evolves a l :
  unique_rowids (store l) →
  Forall2 evolves (Db.books (store l)) (Db.books (store (state_of (iter a l)))).
Proof.
  intros Hnd. branches a l; simpl; try apply Forall2_evolves_refl.
  - (* success *)
    apply nextPending_Some in Hjob as (Hin & (Hp & Hlt & _) & _).
    apply Forall2_fmap_r, Forall2_fmap_r, Forall_Forall2_diag, Forall_forall.
    touched job.
  - (* failure *)
    apply nextPending_Some in Hjob as (Hin & (Hp & Hlt & _) & _).
    case_bool_decide as Hex; simpl.
    + apply Forall2_fmap_r, Forall2_fmap_r, Forall_Forall2_diag, Forall_forall.
      touched job.
    + apply Forall2_fmap_r, Forall_Forall2_diag, Forall_forall.
      touched job.
Qed.

Lemma sum_list_fmap_le {A} (f g : A → nat) (l : list A) :
  (∀ y, y ∈ l → g y ≤ f y) → sum_list (g <$> l) ≤ sum_list (f <$> l).
Proof.
  induction l as [|z l IH]; intros Hle; [done|]. rewrite !fmap_cons. simpl.
  assert (g z ≤ f z) by (apply Hle; left).
  assert (sum_list (g <$> l) ≤ sum_list (f <$> l))
    by (apply IH; intros w Hw; apply Hle; by right).
  lia.
Qed.

Lemma sum_list_fmap_lt {A} (f g : A → nat) (l : list A) (x : A) :
  (∀ y, y ∈ l → g y ≤ f y) → x ∈ l → g x < f x →
  sum_list (g <$> l) < sum_list (f <$> l).
Proof.
  induction l as [|y l IH]; intros Hle Hin Hlt; [by apply elem_of_nil in Hin|].
  rewrite !fmap_cons. simpl.
  assert (sum_list (g <$> l) ≤ sum_list (f <$> l))
    by (apply sum_list_fmap_le; intros w Hw; apply Hle; by right).
  assert (g y ≤ f y) by (apply Hle; left).
  apply elem_of_cons in Hin as [<-|Hin]; [lia|].
  assert (sum_list (g <$> l) < sum_list (f <$> l)); [|lia].
  apply IH; [|done..]. intros w Hw. apply Hle. by right.
Qed.

Ltac split_decide :=
  repeat (match goal with
          | |- context [decide ?P] => destruct (decide P)
          end; simpl in * ).

Ltac weigh :=
  unfold weight, Db.selectable, compose, MAX_ATTEMPTS in *; simpl in *;
  split_decide;
  first [ lia
        | exfalso;
          repeat match goal with H : _ ∧ _ |- _ => destruct H end;
          first [ congruence | lia
                | match goal with
                  | H : ¬ _ |- _ =>
                      apply H; split_and!; first [done | lia | congruence]
                  end ] ].

(** A pass that stays in the loop uses up budget. *)
Lemma iteration_budget a l l' :
  iter a l = Continue l' → budget l' < budget l.
Proof.
  branches a l; intros [= <-]; unfold budget; simpl;
    apply nextPending_Some in Hjob as (Hin & (Hp & Hlt & Hex) & _).
  - (* skipped *)
    apply sum_list_fmap_lt with job; [|done|].
    + intros b _. unfold weight, Db.selectable. split_decide; try lia.
      exfalso. rewrite not_elem_of_app in *. tauto.
    + unfold weight, Db.selectable.
      destruct (decide (_ ∧ _ ∧ Db.rowid job ∉ skippedBookIds l ++ _))
        as [(_ & _ & Hno)|_].
      * exfalso. apply Hno, elem_of_app. right. left.
      * rewrite decide_True by done. unfold MAX_ATTEMPTS in *. lia.
  - (* success *)
    rewrite <- !list_fmap_compose.
    apply sum_list_fmap_lt with job; [intros b _; weigh|done|weigh].
  - (* failure *)
    case_bool_decide; simpl; rewrite <- !list_fmap_compose;
      (apply sum_list_fmap_lt with job; [intros b _; weigh|done|weigh]).
Qed.

Lemma run_returns env fuel l :
  budget l < fuel → is_Some (loop fuel env l).
Proof.
  revert l. induction fuel as [|fuel IH]; intros l Hlt; [lia|]. simpl.
  destruct (iter (env (processed l)) l) as [l'|l'] eqn:Hit; [|done].
  apply IH. apply iteration_budget in Hit. lia.
Qed.

(** [processQueue] always returns. *)
Lemma processQueue_returns env st fs now :
  is_Some (cycle env st fs now).
Proof.
  unfold processQueue. case_decide; [done|]. apply run_returns. lia.
Qed.

(** The rows evolve over any number of passes. *)
Lemma run_evolves env fuel l l' :
  unique_rowids (store l) → loop fuel env l = Some l' →
  Forall2 evolves (Db.books (store l)) (Db.books (store l')).
Proof.
  revert l. induction fuel as [|fuel IH]; intros l Hnd Hrun; [done|].
  simpl in Hrun. pose proof (iteration_evolves (env (processed l)) l Hnd) as Hstep.
  destruct (iter (env (processed l)) l) as [l1|l1]; simpl in Hstep.
  - eapply Forall2_evolves_trans; [done|]. apply IH; [|done].
    unfold unique_rowids. by rewrite (Forall2_evolves_rowids _ _ Hstep).
  - by injection Hrun as <-.
Qed.

Lemma processQueue_evolves env st fs now l' :
  unique_rowids st → cycle env st fs now = Some l' →
  Forall2 evolves (Db.books st) (Db.books (store l')).
Proof.
  unfold processQueue. case_decide.
  - intros _ [= <-]. apply Forall2_evolves_refl.
  - intros Hnd Hrun. by apply run_evolves in Hrun.
Qed.

(** *** The global daily cap *)

Lemma count_zero_future now day st :
  no_future now st → (Db.date now < day)%N → Db.countDownloadsOn day st = 0.
Proof.
  intros Hnf Hlt. unfold Db.countDownloadsOn.
  destruct (filter _ _) as [|b r] eqn:Hf; [done|]. exfalso.
  assert (b ∈ filter (Db.downloaded_on day) (Db.books st)) as Hin
    by (rewrite Hf; left).
  apply list_elem_of_filter in Hin as [[_ Hday] Hin].
  unfold no_future in Hnf. rewrite Forall_forall in Hnf. specialize (Hnf b Hin).
  destruct (Db.downloaded_at b) as [t|]; [|done]. injection Hday as Hday.
  specialize (Hnf t eq_refl). apply date_mono in Hnf. lia.
Qed.

Lemma no_future_mono now now' st :
  (now ≤ now')%N → no_future now st → no_future now' st.
Proof.
  unfold no_future. intros Hle Hnf. eapply Forall_impl; [exact Hnf|].
  intros b Hb t Ht. specialize (Hb t Ht). simpl in *. lia.
Qed.

Lemma touch_touch id f g b :
  (∀ b, Db.rowid (f b) = Db.rowid b) →
  touch id g (touch id f b) = touch id (g ∘ f) b.
Proof.
  intros Hf. unfold touch, compose.
  destruct (decide (Db.rowid b = id)) as [H|H].
  - destruct (decide (Db.rowid (f b) = id)) as [|H']; [done|].
    by rewrite Hf in H'.
  - by destruct (decide (Db.rowid b = id)).
Qed.

(** Counting after the row [job] has been rewritten by [f]. *)
Lemma count_after_touch day st job f :
  unique_rowids st → job ∈ Db.books st →
  Db.status job = Db.pending →
  Db.countDownloadsOn day (Db.update_where (Db.rowid job) f st)
  = Db.countDownloadsOn day st
    + (if decide (Db.downloaded_on day (f job)) then 1 else 0).
Proof.
  intros Hnd Hin Hp. unfold Db.countDownloadsOn. rewrite update_where_books.
  pose proof (count_touch (Db.downloaded_on day) (Db.books st) job f Hnd Hin) as H.
  rewrite decide_False in H; [lia|]. intros [Hs _]. congruence.
Qed.

Local Abbreviation cap_invariant := (cap_invariant MAX_DOWNLOADS_PER_DAY).

Lemma incrementAttempts_pending now st job :
  job ∈ Db.books st → Db.status job = Db.pending →
  ∃ job', job' ∈ Db.books (Db.incrementAttempts now (Db.rowid job) st)
          ∧ Db.rowid job' = Db.rowid job ∧ Db.status job' = Db.pending
          ∧ Db.downloaded_at job' = Db.downloaded_at job.
Proof.
  intros Hin Hp. eexists. split_and!.
  - unfold Db.incrementAttempts. rewrite update_where_books.
    apply (list_elem_of_fmap_2 _ _ _ Hin).
  - by rewrite touch_same.
  - by rewrite touch_same.
  - by rewrite touch_same.
Qed.

Lemma unique_rowids_update id f st :
  (∀ b, Db.rowid (f b) = Db.rowid b) →
  unique_rowids st → unique_rowids (Db.update_where id f st).
Proof.
  intros Hf. unfold unique_rowids. rewrite update_where_books, <- list_fmap_compose.
  assert (Db.rowid ∘ touch id f <$> Db.books st = Db.rowid <$> Db.books st) as ->; [|done].
  apply list_fmap_ext. intros i b _. unfold compose, touch. by case_decide.
Qed.

Lemma no_future_update now id f st :
  (∀ b t, b ∈ Db.books st → Db.downloaded_at (f b) = Some t →
          Db.downloaded_at b = Some t ∨ (t ≤ now)%N) →
  no_future now st → no_future now (Db.update_where id f st).
Proof.
  unfold no_future. rewrite update_where_books, Forall_fmap, !Forall_forall.
  intros Hf Hnf b Hb t. unfold compose, touch. case_decide; [|by apply Hnf].
  intros Ht. destruct (Hf b t Hb Ht) as [Hold|?]; [by apply (Hnf b Hb)|done].
Qed.

Lemma count_incrementAttempts day now st job :
  unique_rowids st → job ∈ Db.books st → Db.status job = Db.pending →
  Db.countDownloadsOn day (Db.incrementAttempts now (Db.rowid job) st)
  = Db.countDownloadsOn day st.
Proof.
  intros Hnd Hin Hp. unfold Db.incrementAttempts.
  rewrite count_after_touch by done. rewrite decide_False; [lia|].
  intros [Hs _]. simpl in Hs. congruence.
Qed.

Lemma count_markFailed day now st job :
  unique_rowids st → job ∈ Db.books st → Db.status job = Db.pending →
  Db.countDownloadsOn day (Db.markFailed now (Db.rowid job) st)
  = Db.countDownloadsOn day st.
Proof.
  intros Hnd Hin Hp. unfold Db.markFailed.
  rewrite count_after_touch by done. rewrite decide_False; [lia|].
  intros [Hs _]. simpl in Hs. congruence.
Qed.

Lemma count_markDownloaded day now fn st job :
  unique_rowids st → job ∈ Db.books st → Db.status job = Db.pending →
  Db.countDownloadsOn day (Db.markDownloaded now fn (Db.rowid job) st)
  = Db.countDownloadsOn day st + (if decide (day = Db.date now) then 1 else 0).
Proof.
  intros Hnd Hin Hp. unfold Db.markDownloaded.
  rewrite count_after_touch by done. f_equal.
  destruct (decide (day = Db.date now)) as [->|Hne].
  - rewrite decide_True; [done|]. by split.
  - rewrite decide_False; [done|]. intros [_ Hd]. simpl in Hd. congruence.
Qed.

Lemma within_cap_same cap st st' :
  (∀ day, Db.countDownloadsOn day st' = Db.countDownloadsOn day st) →
  within_daily_cap cap st → within_daily_cap cap st'.
Proof. intros Heq Hc day. rewrite Heq. apply Hc. Qed.

(** One pass of the loop keeps every day within the cap and the clock
    moving forward. *)
Lemma iteration_cap a l :
  cap_invariant l →
  cap_invariant (state_of (iter a l)) ∧ (clock l ≤ clock (state_of (iter a l)))%N.
Proof.
  intros (Hnd & Hnf & Hc). unfold cap_invariant.
  branches a l; simpl; try (split_and!; (done || lia)).
  - (* success *)
    apply nextPending_Some in Hjob as (Hin & (Hp & _ & _) & _).
    set (now' := (clock l + elapsed a)%N).
    destruct (incrementAttempts_pending (clock l) _ _ Hin Hp)
      as (job' & Hin' & Hid' & Hp' & _).
    assert (unique_rowids (Db.incrementAttempts (clock l) (Db.rowid job) (store l)))
      as Hnd' by by apply unique_rowids_update.
    split_and!; [| | |lia].
    + apply unique_rowids_update; [reflexivity|exact Hnd'].
    + apply no_future_update; [intros b t _ [= <-]; right; lia|].
      apply no_future_update; [intros b t _ Ht; by left|].
      eapply no_future_mono; [|done]. lia.
    + intros day.
      set (st1 := Db.incrementAttempts (clock l) (Db.rowid job) (store l)) in *.
      rewrite <- Hid'. rewrite count_markDownloaded by done.
      subst st1. rewrite count_incrementAttempts by done.
      specialize (Hc day). case_decide as Hday; [|lia]. subst day.
      destruct (decide (Db.date now' = Db.date (clock l))) as [Heq|Hne].
      * rewrite Heq. unfold Db.countDownloadsToday in Hcap. lia.
      * rewrite (count_zero_future (clock l)); [lia|done|].
        assert (Db.date (clock l) ≤ Db.date now')%N by (apply date_mono; lia).
        lia.
  - (* failure *)
    apply nextPending_Some in Hjob as (Hin & (Hp & _ & _) & _).
    destruct (incrementAttempts_pending (clock l) _ _ Hin Hp)
      as (job' & Hin' & Hid' & Hp' & _).
    assert (unique_rowids (Db.incrementAttempts (clock l) (Db.rowid job) (store l)))
      as Hnd' by by apply unique_rowids_update.
    assert (no_future (clock l + elapsed a + QUEUE_COOLDOWN)
              (Db.incrementAttempts (clock l) (Db.rowid job) (store l))) as Hnf'.
    { apply no_future_update; [intros b t _ Ht; by left|].
      eapply no_future_mono; [|done]. lia. }
    assert (within_daily_cap MAX_DOWNLOADS_PER_DAY
              (Db.incrementAttempts (clock l) (Db.rowid job) (store l))) as Hc'.
    { eapply within_cap_same; [|done]. intros day.
      by apply count_incrementAttempts. }
    case_bool_decide; (split_and!; [| | |lia]); try done.
    + apply unique_rowids_update; [reflexivity|exact Hnd'].
    + apply no_future_update; [intros b t _ Ht; by left|done].
    + eapply within_cap_same; [|done]. intros day.
      set (st1 := Db.incrementAttempts (clock l) (Db.rowid job) (store l)) in *.
      rewrite <- Hid'. by apply count_markFailed.
Qed.

Lemma run_cap env fuel l l' :
  cap_invariant l → loop fuel env l = Some l' →
  cap_invariant l' ∧ (clock l ≤ clock l')%N.
Proof.
  revert l. induction fuel as [|fuel IH]; intros l Hinv Hrun; [done|].
  simpl in Hrun. destruct (iteration_cap (env (processed l)) l Hinv) as [Hinv' Hclk].
  destruct (iter (env (processed l)) l) as [l1|l1]; simpl in *.
  - destruct (IH l1 Hinv' Hrun). split; [done|lia].
  - by injection Hrun as <-.
Qed.

(** *** The branches of a pass, by what they leave behind *)

Lemma iteration_limit a l :
  MAX_DOWNLOADS_PER_DAY ≤ Db.countDownloadsToday (clock l) (store l) →
  ∃ l', iter a l = Break l' ∧ store l' = store l ∧ files l' = files l
        ∧ clock l' = clock l ∧ processed l' = processed l.
Proof.
  intros Hcap. unfold iteration; cbv zeta. rewrite decide_True by done.
  eexists. by split_and!.
Qed.

Lemma iteration_skip a l job :
  Db.countDownloadsToday (clock l) (store l) < MAX_DOWNLOADS_PER_DAY →
  Db.nextPending MAX_ATTEMPTS (skippedBookIds l) (store l) = Some job →
  eligible l job = [] →
  ∃ l', iter a l = Continue l' ∧ store l' = store l ∧ files l' = files l
        ∧ clock l' = clock l ∧ processed l' = processed l
        ∧ succeeded l' = succeeded l ∧ failed l' = failed l
        ∧ skippedLimit l' = S (skippedLimit l)
        ∧ skippedBookIds l' = skippedBookIds l ++ [Db.rowid job]
        ∧ rateLimitedUserIds l' = rateLimitedUserIds l.
Proof.
  intros Hcap Hjob Hel. unfold iteration; cbv zeta.
  rewrite decide_False by lia. rewrite Hjob, Hel. eexists. by split_and!.
Qed.

Lemma iteration_failure a l job fs lg e :
  Db.countDownloadsToday (clock l) (store l) < MAX_DOWNLOADS_PER_DAY →
  Db.nextPending MAX_ATTEMPTS (skippedBookIds l) (store l) = Some job →
  eligible l job ≠ [] →
  attempt AA_API_KEY a job (eligible l job) (files l) (log l) = (fs, lg, Err e) →
  ∃ l', iter a l = Continue l'
        ∧ store l' =
            (if bool_decide (MAX_ATTEMPTS ≤ Db.attempts job + 1)
             then Db.markFailed (clock l + elapsed a) (Db.rowid job)
                    (Db.incrementAttempts (clock l) (Db.rowid job) (store l))
             else Db.incrementAttempts (clock l) (Db.rowid job) (store l))
        ∧ files l' = fs
        ∧ processed l' = S (processed l)
        ∧ succeeded l' = succeeded l ∧ failed l' = S (failed l)
        ∧ LogFailed (Db.rowid job) e ∈ log l'
        ∧ rateLimitedUserIds l' = rateLimitedUserIds l.
Proof.
  intros Hcap Hjob Hel Hatt. unfold iteration; cbv zeta.
  rewrite decide_False by lia. rewrite Hjob. revert Hatt.
  destruct (eligible l job) as [|u0 us]; [done|]. intros ->.
  eexists. split_and!; try reflexivity. simpl. set_solver.
Qed.

Lemma iteration_success a l job fs lg fn :
  Db.countDownloadsToday (clock l) (store l) < MAX_DOWNLOADS_PER_DAY →
  Db.nextPending MAX_ATTEMPTS (skippedBookIds l) (store l) = Some job →
  eligible l job ≠ [] →
  attempt AA_API_KEY a job (eligible l job) (files l) (log l) = (fs, lg, Ok fn) →
  ∃ l', iter a l = Continue l'
        ∧ store l' =
            Db.markDownloaded (clock l + elapsed a) fn (Db.rowid job)
              (Db.incrementAttempts (clock l) (Db.rowid job) (store l))
        ∧ files l' = fs
        ∧ processed l' = S (processed l)
        ∧ succeeded l' = S (succeeded l) ∧ failed l' = failed l
        ∧ rateLimitedUserIds l' =
            rateLimitedUserIds l
            ∪ list_to_set
                (at_user_limit MAX_DOWNLOADS_PER_USER_PER_DAY
                   (clock l + elapsed a) (store l')
                   (filter (λ u, Db.user_rowid u ∉ rateLimitedUserIds l)
                      (eligible l job))).
Proof.
  intros Hcap Hjob Hel Hatt. unfold iteration; cbv zeta.
  rewrite decide_False by lia. rewrite Hjob. revert Hatt.
  destruct (eligible l job) as [|u0 us]; [done|]. intros ->.
  eexists. by split_and!.
Qed.

(** The per-user refresh looks at every eligible user. *)
Lemma elem_of_at_user_limit cap now st us u :
  u ∈ at_user_limit cap now st us
  ↔ ∃ user, user ∈ us ∧ Db.user_rowid user = u
            ∧ cap ≤ Db.countUserDownloadsToday now u st.
Proof.
  unfold at_user_limit. rewrite list_elem_of_fmap. split.
  - intros (user & -> & [Hc Hin]%list_elem_of_filter). by exists user.
  - intros (user & Hin & <- & Hc). exists user. split; [done|].
    by apply list_elem_of_filter.
Qed.

Lemma eligible_not_limited l job user :
  user ∈ eligible l job → Db.user_rowid user ∉ rateLimitedUserIds l.
Proof. unfold eligible. by intros [? _]%list_elem_of_filter. Qed.

(** *** Failed copies and rejected downloads *)

Lemma copy_to_users_fails a tempPath filename us fs lg :
  (∃ u, u ∈ us ∧ copy_ok a (Db.user_rowid u) = false) →
  ∃ fs' lg' uid,
    copy_to_users a tempPath filename us fs lg = (fs', lg', Err (CopyFailed uid)).
Proof.
  revert fs lg. induction us as [|u us IH]; intros fs lg (v & Hin & Hv).
  - by apply elem_of_nil in Hin.
  - simpl. destruct (fs !! tempPath) as [size|]; [|by eauto].
    destruct (copy_ok a (Db.user_rowid u)) eqn:Hu; [|by eauto].
    apply IH. exists v. split; [|done].
    apply elem_of_cons in Hin as [->|Hin]; [congruence|done].
Qed.

Lemma attempt_copy_fails a job us fs lg url fs1 tempPath ext :
  searchTerm job ≠ EmptyString →
  findBookOnAnna AA_API_KEY a (searchTerm job) (Db.title job) (Db.author job)
    = Some url →
  downloadBook a fs url job = (fs1, Ok (tempPath, ext)) →
  (∃ u, u ∈ us ∧ copy_ok a (Db.user_rowid u) = false) →
  ∃ fs' lg' uid, attempt AA_API_KEY a job us fs lg = (fs', lg', Err (CopyFailed uid)).
Proof.
  intros Hterm Hfind Hdl Hcopy. unfold attempt.
  apply String.eqb_neq in Hterm. rewrite Hterm, Hfind, Hdl.
  destruct (copy_to_users_fails a tempPath (temp_name job +:+ ext) us fs1 lg Hcopy)
    as (fs' & lg' & uid & ->).
  by eauto.
Qed.

Lemma attempt_download_fails a job us fs lg url fs1 e :
  searchTerm job ≠ EmptyString →
  findBookOnAnna AA_API_KEY a (searchTerm job) (Db.title job) (Db.author job)
    = Some url →
  downloadBook a fs url job = (fs1, Err e) →
  attempt AA_API_KEY a job us fs lg = (fs1, lg, Err e).
Proof.
  intros Hterm Hfind Hdl. unfold attempt.
  apply String.eqb_neq in Hterm. by rewrite Hterm, Hfind, Hdl.
Qed.
End QueueFacts.

(** ** Facts about the download subsystem *)

Lemma downloadBook_stream_small a fs url job ext size :
  Match.includes url "/fast_download/" = false →
  stream a = Response ext size true → (size < 1024)%N →
  ∃ fs', downloadBook a fs url job = (fs', Err (TooSmall size))
         ∧ fs' !! join tempDir (temp_name job +:+ ext) = None.
Proof.
  intros Hurl Hst Hsz. unfold downloadBook. rewrite Hurl, Hst. simpl.
  apply N.ltb_lt in Hsz. rewrite Hsz. eexists. split; [done|].
  apply lookup_delete_eq.
Qed.

Lemma downloadBook_browser_small a fs url job file size :
  Match.includes url "/fast_download/" = true →
  browser a = BrowserSaved file size → (size < 1024)%N →
  ∃ fs', downloadBook a fs url job = (fs', Err (TooSmall size))
         ∧ fs' !! join tempDir file = None.
Proof.
  intros Hurl Hbr Hsz. unfold downloadBook. rewrite Hurl, Hbr.
  apply N.ltb_lt in Hsz. rewrite Hsz. eexists. split; [done|].
  apply lookup_delete_eq.
Qed.

(** A file handed back by [downloadBook] exists and holds at least 1KB. *)
Lemma downloadBook_Ok a fs url job fs' path ext :
  downloadBook a fs url job = (fs', Ok (path, ext)) →
  ∃ size, fs' !! path = Some size ∧ (1024 ≤ size)%N.
Proof.
  unfold downloadBook. destruct (Match.includes url "/fast_download/").
  - destruct (browser a) as [|file size]; [done|].
    destruct (size <? 1024)%N eqn:Hsz; [done|]. apply N.ltb_ge in Hsz.
    case_decide as Hp; intros [= <- <- <-]; exists size; (split; [|done]).
    + rewrite <- Hp. apply lookup_insert_eq.
    + apply lookup_insert_eq.
  - destruct (stream a) as [|extension size complete]; [done|].
    destruct complete; simpl; [|done].
    destruct (size <? 1024)%N eqn:Hsz; [done|]. apply N.ltb_ge in Hsz.
    intros [= <- <- <-]. exists size. split; [apply lookup_insert_eq|done].
Qed.

(** ** Facts about ingestion *)

Section UpsertFacts.
Import Db.

Lemma filter_fmap_stable {A} (P : A → Prop) `{∀ x, Decision (P x)}
    (g : A → A) (l : list A) :
  (∀ x, P (g x) ↔ P x) → filter P (g <$> l) = g <$> filter P l.
Proof.
  intros Hg. induction l as [|x l IH]; [done|].
  rewrite !fmap_cons, !filter_cons, IH.
  destruct (decide (P x)) as [Hx|Hx].
  - by rewrite decide_True by by apply Hg.
  - by rewrite decide_False by by rewrite Hg.
Qed.

Lemma upsert_row_key now key i t a b :
  goodreads_book_id (upsert_row now key i t a b) = goodreads_book_id b.
Proof. unfold upsert_row. by case_decide. Qed.

Lemma upsert_existing now key i t a st :
  Exists (has_key key) (books st) →
  books (upsertBookByGoodreadsId now (Some key) i t a st)
  = upsert_row now key i t a <$> books st.
Proof. intros He. unfold upsertBookByGoodreadsId. by rewrite decide_True. Qed.

Lemma upsert_new now key i t a st :
  ¬ Exists (has_key key) (books st) →
  books (upsertBookByGoodreadsId now (Some key) i t a st)
  = books st ++ [new_book now (S (book_seq st)) (Some key) i t a].
Proof. intros He. unfold upsertBookByGoodreadsId. by rewrite decide_False. Qed.

Lemma filter_key_none key (l : list Book) :
  ¬ Exists (has_key key) l → filter (has_key key) l = [].
Proof.
  intros He. destruct (filter _ _) as [|b r] eqn:Hf; [done|]. exfalso.
  assert (b ∈ filter (has_key key) l) as [Hk Hin]%list_elem_of_filter
    by (rewrite Hf; left).
  apply He, Exists_exists. eauto.
Qed.

Lemma filter_key_some key (l : list Book) :
  Exists (has_key key) l → length (filter (has_key key) l) ≤ 1 →
  ∃ b, filter (has_key key) l = [b].
Proof.
  intros (b & Hin & Hk)%Exists_exists Hlen.
  assert (b ∈ filter (has_key key) l) as Hf by by apply list_elem_of_filter.
  destruct (filter _ _) as [|x [|y r]]; simpl in *;
    [by apply elem_of_nil in Hf | by eauto | lia].
Qed.

(** The row an upsert leaves under its key. *)
Lemma upsert_key_row now key i t a st :
  unique_keys st →
  ∃ b, filter (has_key key) (books (upsertBookByGoodreadsId now (Some key) i t a st))
       = [b]
       ∧ match filter (has_key key) (books st) with
         | [] => isbn b = i ∧ title b = t ∧ author b = a
         | b0 :: _ => isbn b = COALESCE i (isbn b0)
                      ∧ title b = COALESCE t (title b0)
                      ∧ author b = COALESCE a (author b0)
                      ∧ rowid b = rowid b0
         end.
Proof.
  intros Hu. destruct (decide (Exists (has_key key) (books st))) as [He|He].
  - rewrite upsert_existing by done.
    destruct (filter_key_some key (books st) He (Hu key)) as [b0 Hb0].
    rewrite filter_fmap_stable, Hb0.
    + assert (has_key key b0) as Hk.
      { assert (b0 ∈ filter (has_key key) (books st)) as Hf by (rewrite Hb0; left).
        by apply list_elem_of_filter in Hf as [? _]. }
      eexists. split; [done|]. unfold upsert_row. by rewrite decide_True.
    + intros b. unfold has_key. by rewrite upsert_row_key.
  - rewrite upsert_new by done. rewrite filter_app, (filter_key_none _ _ He).
    rewrite filter_cons, decide_True by done. eexists. by split.
Qed.

(** The [UNIQUE] constraint survives an upsert: no second row. *)
Lemma upsert_unique_keys now k i t a st :
  unique_keys st → unique_keys (upsertBookByGoodreadsId now k i t a st).
Proof.
  intros Hu k'. destruct k as [key|].
  - destruct (decide (key = k')) as [<-|Hne].
    + destruct (upsert_key_row now key i t a st Hu) as (b & -> & _). done.
    + destruct (decide (Exists (has_key key) (books st))) as [He|He].
      * rewrite upsert_existing by done. rewrite filter_fmap_stable.
        -- rewrite length_fmap. apply Hu.
        -- intros b. unfold has_key. by rewrite upsert_row_key.
      * rewrite upsert_new by done. rewrite filter_app, filter_cons.
        rewrite decide_False by (unfold has_key; simpl; congruence).
        rewrite filter_nil, app_nil_r. apply Hu.
  - unfold upsertBookByGoodreadsId, insert_book. simpl.
    rewrite filter_app, filter_cons, decide_False by done.
    rewrite filter_nil, app_nil_r. apply Hu.
Qed.

(** What an upsert does to a row that is already there. *)
Lemma upsert_lookup now k i t a st idx b :
  books st !! idx = Some b →
  ∃ b', books (upsertBookByGoodreadsId now k i t a st) !! idx = Some b'
        ∧ (b' = b ∨ (goodreads_book_id b = k ∧ b' = upsert_update now i t a b)).
Proof.
  intros Hb. unfold upsertBookByGoodreadsId. destruct k as [key|].
  - case_decide.
    + simpl. rewrite list_lookup_fmap, Hb. simpl. eexists. split; [done|].
      case_decide; [by right|by left].
    + simpl. rewrite lookup_app_l by by eapply lookup_lt_Some. eauto.
  - simpl. rewrite lookup_app_l by by eapply lookup_lt_Some. eauto.
Qed.

Lemma length_upsert now k i t a st :
  length (books st) ≤ length (books (upsertBookByGoodreadsId now k i t a st))
  ∧ length (books (upsertBookByGoodreadsId now k i t a st)) ≤ S (length (books st)).
Proof.
  unfold upsertBookByGoodreadsId. destruct k as [key|]; [case_decide|]; simpl;
    rewrite ?length_fmap, ?length_app; simpl; lia.
Qed.
End UpsertFacts.

(** ** The daily counts read [status] and [downloaded_at] only *)

Section CountFacts.
Import Db.

Lemma count_frame_list (links : list Link) (day : N) (u : nat) (l l' : list Book) :
  Forall2 same_success l l' →
  length (filter (downloaded_on day) l') = length (filter (downloaded_on day) l)
  ∧ length (b ← filter (downloaded_on day) l';
            filter (λ k, book_id k = rowid b ∧ user_id k = u) links)
    = length (b ← filter (downloaded_on day) l;
              filter (λ k, book_id k = rowid b ∧ user_id k = u) links).
Proof.
  induction 1 as [|b b' l l' (Hid & Hs & Hd) _ [IH1 IH2]]; [done|].
  rewrite !filter_cons.
  destruct (decide (downloaded_on day b)) as [Hb|Hb].
  - rewrite decide_True by (unfold downloaded_on in *; by rewrite Hs, Hd).
    rewrite !bind_cons, !length_app, Hid. simpl. lia.
  - rewrite decide_False by (unfold downloaded_on in *; by rewrite Hs, Hd).
    done.
Qed.

Lemma counts_frame st st' day u :
  user_books st' = user_books st →
  Forall2 same_success (books st) (books st') →
  countDownloadsOn day st' = countDownloadsOn day st
  ∧ countUserDownloadsOn day u st' = countUserDownloadsOn day u st.
Proof.
  intros Hl Hf. unfold countDownloadsOn, countUserDownloadsOn, links_of.
  rewrite Hl. by apply count_frame_list.
Qed.

Lemma upsert_user_books now k i t a st :
  user_books (upsertBookByGoodreadsId now k i t a st) = user_books st.
Proof.
  unfold upsertBookByGoodreadsId. destruct k; [case_decide|]; done.
Qed.

Lemma count_insert now k i t a st day u :
  countDownloadsOn day (insert_book now k i t a st) = countDownloadsOn day st
  ∧ countUserDownloadsOn day u (insert_book now k i t a st)
    = countUserDownloadsOn day u st.
Proof.
  unfold countDownloadsOn, countUserDownloadsOn, links_of, insert_book. simpl.
  rewrite filter_app, filter_cons, decide_False
    by (unfold downloaded_on; simpl; by intros [? _]).
  by rewrite filter_nil, app_nil_r.
Qed.

(** An ingestion upsert moves neither daily count. *)
Lemma upsert_counts now k i t a st day u :
  countDownloadsOn day (upsertBookByGoodreadsId now k i t a st)
  = countDownloadsOn day st
  ∧ countUserDownloadsOn day u (upsertBookByGoodreadsId now k i t a st)
    = countUserDownloadsOn day u st.
Proof.
  destruct k as [key|]; [|apply count_insert].
  destruct (decide (Exists (has_key key) (books st))) as [He|He].
  - apply counts_frame; [apply upsert_user_books|].
    rewrite upsert_existing by done.
    apply Forall2_fmap_r, Forall_Forall2_diag, Forall_forall. intros b Hb.
    unfold upsert_row, same_success, compose. simpl. by case_decide.
  - unfold upsertBookByGoodreadsId. rewrite decide_False by done.
    apply count_insert.
Qed.

Lemma update_where_lookup id f st idx b :
  books st !! idx = Some b →
  books (update_where id f st) !! idx = Some (touch id f b).
Proof. intros Hb. by rewrite update_where_books, list_lookup_fmap, Hb. Qed.
End CountFacts.

(** ** What the maintenance statements do to a row *)

Section C8Facts.
Import Db.

Lemma upsert_keeps_downloaded_at now k i t a st idx b' :
  books (upsertBookByGoodreadsId now k i t a st) !! idx = Some b' →
  downloaded_at b'
  = match books st !! idx with Some b => downloaded_at b | None => None end.
Proof.
  assert (∀ k', books (insert_book now k' i t a st) !! idx = Some b' →
                downloaded_at b'
                = match books st !! idx with
                  | Some b => downloaded_at b | None => None end) as Hins.
  { intros k'. unfold insert_book. simpl. intros H.
    destruct (books st !! idx) as [b|] eqn:Hb.
    - rewrite lookup_app_l in H by (by eapply lookup_lt_Some). congruence.
    - rewrite lookup_app_r in H by (by apply lookup_ge_None).
      apply list_elem_of_lookup_2, list_elem_of_singleton in H. by subst. }
  unfold upsertBookByGoodreadsId. destruct k as [key|]; [|apply Hins].
  destruct (decide _); [|apply Hins]. simpl.
  rewrite list_lookup_fmap. destruct (books st !! idx) as [b|]; [|done].
  simpl. intros [= <-]. by destruct (decide _).
Qed.

Lemma reset_limits_lookup now st idx b :
  books st !! idx = Some b →
  books (reset_limits now st).1 !! idx = Some (reset_row now b).
Proof. intros Hb. unfold reset_limits. simpl. by rewrite list_lookup_fmap, Hb. Qed.

Lemma backfill_lookup st idx b :
  books st !! idx = Some b →
  books (backfill st) !! idx = Some (backfill_row b).
Proof. intros Hb. unfold backfill. simpl. by rewrite list_lookup_fmap, Hb. Qed.
End C8Facts.

(** ** Properties of the pipeline *)

(** C5: [titleScore] (the source's [wordOverlap]) turns both normalized
    strings into word sets, takes S as the smaller and L as the larger set
    and returns |S ∩ L| / |S|, or 0 when either set is empty. The
    normalization, the tokens and the score are those of [Spec], which are
    written from the description alone. On "The Culture (Culture, #3)"
    against "The Culture" both sides normalize to "the culture", the words
    are "the" and "culture", and the score is 1; "Dune Messiah" against
    "Children of Dune" scores one half. *)
Theorem C5_titleScore_is_overlap_of_smaller_set :
  (∀ x, Match.normalizeText x = Spec.normalize x)
  ∧ (∀ s, Match.words s = Spec.tokens s)
  ∧ (∀ a b, Match.wordOverlap a b = Spec.titleScore a b)
  ∧ (∀ a b, Spec.word_set a = ∅ ∨ Spec.word_set b = ∅ →
            Match.wordOverlap a b = 0%Q)
  ∧ Match.normalizeText (Some "The Culture (Culture, #3)") = "the culture"
  ∧ Match.normalizeText (Some "The Culture") = "the culture"
  ∧ Match.new_Set (Match.words "the culture") = ["the"; "culture"]
  ∧ Spec.tokens (Spec.normalize (Some "The Culture (Culture, #3)"))
    = ["the"; "culture"]
  ∧ (Match.wordOverlap (Some "The Culture (Culture, #3)") (Some "The Culture") == 1)%Q
  ∧ (Match.wordOverlap (Some "Dune Messiah") (Some "Children of Dune") == 1 # 2)%Q.
Proof.
  split_and!.
  - apply normalizeText_normalize.
  - apply words_tokens.
  - apply wordOverlap_titleScore.
  - intros a b He. rewrite wordOverlap_titleScore. unfold Spec.titleScore.
    by rewrite decide_True.
  - by vm_compute.
  - by vm_compute.
  - by vm_compute.
  - by vm_compute.
  - by vm_compute.
  - by vm_compute.
Qed.

Lemma C5_witness :
  Spec.word_set (Some "(Culture, #3)") = ∅
  ∧ Match.wordOverlap (Some "(Culture, #3)") (Some "The Culture") = 0%Q.
Proof.
  split; [reflexivity|].
  apply (proj1 (proj2 (proj2 (proj2 C5_titleScore_is_overlap_of_smaller_set)))).
  left. reflexivity.
Defined.

(** C6: [isGoodMatch] holds exactly when the title score is at least 0.70
    and, if an expected author is present, some token longer than two
    characters of the normalized expected author occurs inside the
    normalized candidate author; a score of exactly 0.70 passes the title
    test, 0.69 is rejected, and without an expected author the title test
    alone decides. Score, presence, tokens and normalization are those of
    [Spec]. With the title agreeing, the expected author "Ann Leckie" is
    found in "by A. Leckie (trans.)" through the token "leckie", and in a
    candidate that differs in case only; it is not found in another name;
    and the expected author "Yu Li", which has no token longer than two
    characters, is not found even in itself. *)
Theorem C6_isGoodMatch_threshold_and_author :
  (∀ eT eA cT cA,
     Match.isGoodMatch eT eA cT cA = true
     ↔ (7 # 10 <= Spec.titleScore eT cT)%Q
       ∧ (Spec.present eA → Spec.author_verified eA cA))
  ∧ (∀ eT eA cT cA,
       (Spec.titleScore eT cT == 7 # 10)%Q →
       (Match.isGoodMatch eT eA cT cA = true
        ↔ (Spec.present eA → Spec.author_verified eA cA)))
  ∧ (∀ eT eA cT cA,
       (Spec.titleScore eT cT == 69 # 100)%Q →
       Match.isGoodMatch eT eA cT cA = false)
  ∧ (∀ eT eA cT cA,
       ¬ Spec.present eA →
       (Match.isGoodMatch eT eA cT cA = true
        ↔ (7 # 10 <= Spec.titleScore eT cT)%Q))
  ∧ Match.normalizeText (Some "Ann Leckie") = "ann leckie"
  ∧ Match.normalizeText (Some "by A. Leckie (trans.)") = "by a leckie"
  ∧ Match.isGoodMatch (Some "Ancillary Justice") (Some "Ann Leckie")
      (Some "Ancillary Justice") (Some "by A. Leckie (trans.)") = true
  ∧ Match.isGoodMatch (Some "Ancillary Justice") (Some "ANN LECKIE")
      (Some "ancillary justice") (Some "ann leckie") = true
  ∧ Match.isGoodMatch (Some "Ancillary Justice") (Some "Ann Leckie")
      (Some "Ancillary Justice") (Some "Iain M. Banks") = false
  ∧ Match.isGoodMatch (Some "Ancillary Justice") (Some "Yu Li")
      (Some "Ancillary Justice") (Some "Yu Li") = false.
Proof.
  split_and!.
  - apply isGoodMatch_meets_spec.
  - intros eT eA cT cA Hs. rewrite isGoodMatch_meets_spec, Hs.
    split; [by intros [_ ?]|]. intros H. split; [|done]. apply Qle_refl.
  - intros eT eA cT cA Hs. apply not_true_is_false.
    rewrite isGoodMatch_meets_spec, Hs. intros [Hle _]. by vm_compute in Hle.
  - intros eT eA cT cA Hn. rewrite isGoodMatch_meets_spec.
    split; [by intros [? _]|]. by split.
  - by vm_compute.
  - by vm_compute.
  - by vm_compute.
  - by vm_compute.
  - by vm_compute.
  - by vm_compute.
Qed.

Lemma C6_witness :
  (Spec.titleScore Sample.ten_expected Sample.ten_candidate == 7 # 10)%Q
  ∧ Spec.present (Some "Ann Leckie")
  ∧ Spec.author_verified (Some "Ann Leckie") (Some "by A. Leckie (trans.)")
  ∧ Match.isGoodMatch Sample.ten_expected (Some "Ann Leckie")
      Sample.ten_candidate (Some "by A. Leckie (trans.)") = true
  ∧ (Spec.titleScore Sample.hundred_expected Sample.hundred_candidate == 69 # 100)%Q
  ∧ Match.isGoodMatch Sample.hundred_expected (Some "Ann Leckie")
      Sample.hundred_candidate (Some "by A. Leckie (trans.)") = false
  ∧ ¬ Spec.present (Some "")
  ∧ Match.isGoodMatch Sample.ten_expected (Some "") Sample.ten_candidate None = true.
Proof.
  assert (Spec.titleScore Sample.ten_expected Sample.ten_candidate == 7 # 10)%Q
    as H70 by (vm_compute; reflexivity).
  assert (Spec.titleScore Sample.hundred_expected Sample.hundred_candidate == 69 # 100)%Q
    as H69 by (vm_compute; reflexivity).
  assert (Spec.present (Some "Ann Leckie")) as Hp.
  { exists "Ann Leckie". split; [reflexivity|discriminate]. }
  assert (Spec.author_verified (Some "Ann Leckie") (Some "by A. Leckie (trans.)"))
    as Hv.
  { exists "leckie". split_and!.
    - change (Spec.tokens (Spec.normalize (Some "Ann Leckie")))
        with ["ann"; "leckie"].
      apply list_elem_of_further, list_elem_of_here.
    - simpl. lia.
    - exists "by a ", "". reflexivity. }
  assert (¬ Spec.present (Some "")) as Hn.
  { intros (s & Hs & Hne). injection Hs as <-. by apply Hne. }
  split_and!; [exact H70|exact Hp|exact Hv| |exact H69| |exact Hn|].
  - apply (proj1 (proj2 C6_isGoodMatch_threshold_and_author) _ _ _ _ H70).
    intros _. exact Hv.
  - exact (proj1 (proj2 (proj2 C6_isGoodMatch_threshold_and_author)) _ _ _ _ H69).
  - apply (proj1 (proj2 (proj2 (proj2 C6_isGoodMatch_threshold_and_author)))
             _ _ _ _ Hn).
    rewrite H70. apply Qle_refl.
Defined.

(** C2: over a whole run of [processQueue], every book row keeps its
    identity, its attempts never decrease and never pass [MAX_ATTEMPTS] (5),
    a pending row becomes [failed] exactly when its attempts reach
    [MAX_ATTEMPTS] on an attempt that did not succeed, and a row in a
    terminal state is neither selected nor changed; an ingestion upsert
    leaves attempts and status of every row as they are. *)
Theorem C2_attempts_monotone_capped_terminal_final
    (cap capU : nat) (key : option string) (env : nat → Attempt)
    (st : Db.Store) (fs : Fs) (now : N) :
  unique_rowids st →
  MAX_ATTEMPTS = 5
  ∧ (∃ l', processQueue cap capU key env st fs now = Some l'
           ∧ Forall2 evolves (Db.books st) (Db.books (store l'))
           ∧ ∀ idx b, Db.books st !! idx = Some b →
               ∃ b', Db.books (store l') !! idx = Some b'
                 ∧ Db.rowid b' = Db.rowid b
                 ∧ Db.attempts b ≤ Db.attempts b'
                 ∧ (Db.attempts b ≤ MAX_ATTEMPTS → Db.attempts b' ≤ MAX_ATTEMPTS)
                 ∧ (Db.status b = Db.downloaded ∨ Db.status b = Db.failed → b' = b)
                 ∧ (Db.status b = Db.pending →
                      (Db.status b' = Db.failed
                       ↔ Db.attempts b < MAX_ATTEMPTS
                         ∧ Db.attempts b' = MAX_ATTEMPTS
                         ∧ Db.status b' ≠ Db.downloaded)))
  ∧ (∀ excl b, Db.nextPending MAX_ATTEMPTS excl st = Some b →
       Db.status b = Db.pending ∧ Db.attempts b < MAX_ATTEMPTS)
  ∧ (∀ t k i ti a idx b,
       Db.books st !! idx = Some b →
       ∃ b', Db.books (Db.upsertBookByGoodreadsId t k i ti a st) !! idx = Some b'
             ∧ Db.attempts b' = Db.attempts b ∧ Db.status b' = Db.status b).
Proof.
  intros Hnd. split_and!; [done| | |];
    [| |intros t k i ti a idx b Hb;
        destruct (upsert_lookup t k i ti a st idx b Hb) as (b' & Hb' & [->|[_ ->]]);
        eexists; by split_and!].
  - destruct (processQueue_returns cap capU key env st fs now) as [l' Hl'].
    pose proof (processQueue_evolves _ _ _ _ _ _ _ _ Hnd Hl') as Hev.
    exists l'. split_and!; [done..|].
    intros idx b Hb. destruct (Forall2_lookup_l _ _ _ _ _ Hev Hb)
      as (b' & Hb' & Hid & Hmono & Hbound & Hfix & Hfail).
    exists b'. split_and!; try done.
    intros Hterm. apply Hfix. left. destruct Hterm; congruence.
  - intros excl b (_ & (Hp & Hlt & _) & _)%nextPending_Some. done.
Qed.

Lemma unique_rowids_shelves : unique_rowids Sample.shelves.
Proof. apply (bool_decide_unpack _). vm_compute. exact I. Defined.

Lemma C2_witness :
  ∃ l', processQueue 50 10 None (λ _, Sample.barren) Sample.shelves ∅ 1000 = Some l'
        ∧ Forall2 evolves (Db.books Sample.shelves) (Db.books (store l')).
Proof.
  destruct (C2_attempts_monotone_capped_terminal_final
              50 10 None (λ _, Sample.barren) Sample.shelves ∅ 1000
              unique_rowids_shelves) as (_ & (l' & Hrun & Hev & _) & _ & _).
  exists l'. split; [exact Hrun | exact Hev].
Defined.

(** C10: the selection query never returns a row whose attempts have
    reached [MAX_ATTEMPTS]; pending rows with [attempts = MAX_ATTEMPTS] do
    arise (the store as it is right after the attempt increment, where a
    crash would leave it); and [processQueue] leaves such a row exactly as
    it is: not re-attempted, not marked failed. *)
Theorem C10_exhausted_pending_rows_are_left_alone :
  (∀ max excl st b,
     Db.nextPending max excl st = Some b →
     Db.attempts b < max ∧ Db.status b = Db.pending)
  ∧ (∃ st now job stuck,
       Db.getNextPending MAX_ATTEMPTS st = Some job
       ∧ stuck ∈ Db.books (Db.incrementAttempts now (Db.rowid job) st)
       ∧ Db.status stuck = Db.pending ∧ Db.attempts stuck = MAX_ATTEMPTS)
  ∧ (∀ cap capU key env st fs now,
       unique_rowids st →
       ∃ l', processQueue cap capU key env st fs now = Some l'
             ∧ ∀ idx b, Db.books st !! idx = Some b →
                 Db.status b = Db.pending → MAX_ATTEMPTS ≤ Db.attempts b →
                 Db.books (store l') !! idx = Some b).
Proof.
  split_and!.
  - intros max excl st b (_ & (Hp & Hlt & _) & _)%nextPending_Some. done.
  - exists (Db.with_books Sample.shelves [Sample.emma]), 1000%N, Sample.emma.
    eexists. split_and!; [by vm_compute|by left|done..].
  - intros cap capU key env st fs now Hnd.
    destruct (processQueue_returns cap capU key env st fs now) as [l' Hl'].
    pose proof (processQueue_evolves _ _ _ _ _ _ _ _ Hnd Hl') as Hev.
    exists l'. split; [done|]. intros idx b Hb Hp Hge.
    destruct (Forall2_lookup_l _ _ _ _ _ Hev Hb) as (b' & Hb' & _ & _ & _ & Hfix & _).
    rewrite Hb'. f_equal. apply Hfix. by right.
Qed.

Lemma C10_witness :
  unique_rowids Sample.jammed
  ∧ ∃ l', processQueue 50 10 None (λ _, Sample.barren) Sample.jammed ∅ 1000 = Some l'
          ∧ Db.books (store l') !! 1 = Some Sample.stuck.
Proof.
  assert (unique_rowids Sample.jammed) as Hnd
    by (apply (bool_decide_unpack _); vm_compute; exact I).
  split; [exact Hnd|].
  destruct (proj2 (proj2 C10_exhausted_pending_rows_are_left_alone)
              50 10 None (λ _, Sample.barren) Sample.jammed ∅ 1000%N Hnd)
    as (l' & Hrun & Hfix).
  exists l'. split; [exact Hrun|].
  apply (Hfix 1 Sample.stuck); [reflexivity|reflexivity|vm_compute; lia].
Defined.

(** C3: when the number of books downloaded on the current day has reached
    the global daily cap, [processQueue] makes no attempt and leaves store
    and files as they are; the count is checked again before every item
    (a pass that finds the cap reached leaves the loop at once); and so no
    day ever holds more successes than the cap. *)
Theorem C3_global_daily_cap
    (cap capU : nat) (key : option string) (env : nat → Attempt)
    (st : Db.Store) (fs : Fs) (now : N) :
  (cap ≤ Db.countDownloadsToday now st →
   ∃ l', processQueue cap capU key env st fs now = Some l'
         ∧ store l' = st ∧ files l' = fs ∧ processed l' = 0)
  ∧ (∀ a l, cap ≤ Db.countDownloadsToday (clock l) (store l) →
       ∃ l', iteration cap capU key a l = Break l'
             ∧ store l' = store l ∧ files l' = files l
             ∧ processed l' = processed l)
  ∧ (unique_rowids st → no_future now st → within_daily_cap cap st →
     ∃ l', processQueue cap capU key env st fs now = Some l'
           ∧ within_daily_cap cap (store l')
           ∧ no_future (clock l') (store l')
           ∧ (now ≤ clock l')%N).
Proof.
  split_and!.
  - intros Hcap. unfold processQueue. rewrite decide_True by done.
    eexists. by split_and!.
  - intros a l Hcap.
    destruct (iteration_limit cap capU key a l Hcap) as (l' & ? & ? & ? & ? & ?).
    exists l'. by split_and!.
  - intros Hnd Hnf Hc.
    destruct (processQueue_returns cap capU key env st fs now) as [l' Hl'].
    exists l'. split; [done|]. revert Hl'. unfold processQueue. case_decide.
    + intros [= <-]. simpl. by split_and!.
    + intros Hrun. apply run_cap in Hrun as ((_ & ? & ?) & ?); [done|].
      by split_and!.
Qed.

Lemma C3_witness :
  (1 ≤ Db.countDownloadsToday 1000 Sample.shelves
   ∧ ∃ l', processQueue 1 10 None (λ _, Sample.smooth)
             Sample.shelves ∅ 1000 = Some l'
           ∧ store l' = Sample.shelves ∧ processed l' = 0)
  ∧ ∃ l', processQueue 2 10 None (λ _, Sample.smooth)
            Sample.shelves ∅ 1000 = Some l'
          ∧ within_daily_cap 2 (store l').
Proof.
  assert (1 ≤ Db.countDownloadsToday 1000 Sample.shelves) as Hfull
    by (vm_compute; lia).
  split.
  - split; [exact Hfull|].
    destruct (proj1 (C3_global_daily_cap 1 10 None
                       (λ _, Sample.smooth)
                       Sample.shelves ∅ 1000) Hfull)
      as (l' & Hrun & Hst & _ & Hp).
    exists l'. split_and!; [exact Hrun|exact Hst|exact Hp].
  - assert (no_future 1000 Sample.shelves) as Hnf.
    { repeat constructor; intros t Ht; simplify_eq/=; lia. }
    assert (within_daily_cap 2 Sample.shelves) as Hc.
    { intros day. unfold Db.countDownloadsOn. simpl.
      rewrite filter_cons, decide_False by (intros [Hs _]; discriminate Hs).
      rewrite filter_cons, decide_False by (intros [Hs _]; discriminate Hs).
      etransitivity; [apply length_filter|]. simpl. lia. }
    destruct (proj2 (proj2 (C3_global_daily_cap 2 10 None
                       (λ _, Sample.smooth)
                       Sample.shelves ∅ 1000))
                unique_rowids_shelves Hnf Hc)
      as (l' & Hrun & Hc' & _).
    exists l'. split; [exact Hrun|exact Hc'].
Defined.

(** C4: the rate-limited set is computed once on entry to the loop, from
    every user's count for the day; a pending book all of whose linked
    users are in the set is skipped: its id joins the exclusion list, it is
    not counted as processed, store, files and clock stay as they are, and
    the next selection returns the least-attempted selectable row other
    than it; after a success the set is extended by every eligible user who
    has now reached the cap, and otherwise it does not change. *)
Theorem C4_per_user_limits_and_skipping (cap capU : nat) (key : option string) :
  (∀ st fs now u,
     u ∈ rateLimitedUserIds (start capU st fs now)
     ↔ ∃ user, user ∈ Db.users st ∧ Db.user_rowid user = u
               ∧ capU ≤ Db.countUserDownloadsToday now u st)
  ∧ (∀ a l job,
       Db.countDownloadsToday (clock l) (store l) < cap →
       Db.nextPending MAX_ATTEMPTS (skippedBookIds l) (store l) = Some job →
       (∀ user, user ∈ Db.getUsersForBook (Db.rowid job) (store l) →
                Db.user_rowid user ∈ rateLimitedUserIds l) →
       ∃ l', iteration cap capU key a l = Continue l'
             ∧ store l' = store l ∧ files l' = files l ∧ clock l' = clock l
             ∧ processed l' = processed l
             ∧ succeeded l' = succeeded l ∧ failed l' = failed l
             ∧ skippedLimit l' = S (skippedLimit l)
             ∧ skippedBookIds l' = skippedBookIds l ++ [Db.rowid job]
             ∧ rateLimitedUserIds l' = rateLimitedUserIds l
             ∧ (∀ next,
                  Db.nextPending MAX_ATTEMPTS (skippedBookIds l') (store l') = Some next →
                  Db.rowid next ≠ Db.rowid job
                  ∧ Db.selectable MAX_ATTEMPTS (skippedBookIds l) next
                  ∧ ∀ c, c ∈ Db.books (store l) →
                         Db.selectable MAX_ATTEMPTS (skippedBookIds l) c →
                         Db.rowid c ≠ Db.rowid job →
                         Db.attempts next ≤ Db.attempts c)
             ∧ (Db.nextPending MAX_ATTEMPTS (skippedBookIds l') (store l') = None →
                ∀ c, c ∈ Db.books (store l) →
                     Db.selectable MAX_ATTEMPTS (skippedBookIds l) c →
                     Db.rowid c = Db.rowid job))
  ∧ (∀ a l l',
       iteration cap capU key a l = Continue l' →
       succeeded l' = S (succeeded l) →
       ∃ job, Db.nextPending MAX_ATTEMPTS (skippedBookIds l) (store l) = Some job
              ∧ ∀ u, u ∈ rateLimitedUserIds l'
                     ↔ u ∈ rateLimitedUserIds l
                       ∨ ∃ user, user ∈ eligible l job ∧ Db.user_rowid user = u
                                 ∧ capU ≤ Db.countUserDownloadsToday
                                            (clock l + elapsed a) u (store l'))
  ∧ (∀ a l,
       succeeded (state_of (iteration cap capU key a l)) = succeeded l →
       rateLimitedUserIds (state_of (iteration cap capU key a l))
       = rateLimitedUserIds l).
Proof.
  split_and!.
  - intros st fs now u. unfold start. simpl.
    rewrite elem_of_list_to_set. apply elem_of_at_user_limit.
  - intros a l job Hcap Hjob Hall.
    assert (eligible l job = []) as Hel.
    { unfold eligible. destruct (filter _ _) as [|u r] eqn:Hf; [done|]. exfalso.
      assert (u ∈ filter (λ u, Db.user_rowid u ∉ rateLimitedUserIds l)
                    (Db.getUsersForBook (Db.rowid job) (store l))) as Hin
        by (rewrite Hf; left).
      apply list_elem_of_filter in Hin as [Hno Hin]. by apply Hno, Hall. }
    destruct (iteration_skip cap capU key a l job Hcap Hjob Hel)
      as (l' & Hit & Hst & Hfs & Hclk & Hpr & Hsu & Hfa & Hsl & Hsk & Hrl).
    exists l'. split_and!; try done.
    + intros next (Hin & (Hp & Hlt & Hex) & Hmin)%nextPending_Some.
      rewrite Hsk, not_elem_of_app in Hex. destruct Hex as [Hex Hnj].
      rewrite Hst in Hin. split_and!.
      * intros Heq. apply Hnj. rewrite Heq. left.
      * by split_and!.
      * intros c Hc (Hcp & Hcl & Hce) Hne. apply Hmin; [by rewrite Hst|].
        split_and!; [done..|]. rewrite Hsk, not_elem_of_app. split; [done|].
        by intros Heq%list_elem_of_singleton.
    + intros Hnone c Hc (Hcp & Hcl & Hce).
      destruct (decide (Db.rowid c = Db.rowid job)) as [|Hne]; [done|]. exfalso.
      rewrite nextPending_None in Hnone. apply (Hnone c); [by rewrite Hst|].
      split_and!; [done..|]. rewrite Hsk, not_elem_of_app. split; [done|].
      by intros Heq%list_elem_of_singleton.
  - intros a l l'. unfold iteration; cbv zeta.
    destruct (decide (cap ≤ Db.countDownloadsToday (clock l) (store l)))
      as [Hcap|Hcap]; [done|].
    destruct (Db.nextPending MAX_ATTEMPTS (skippedBookIds l) (store l))
      as [job|] eqn:Hjob; [|done].
    destruct (eligible l job) as [|u0 us] eqn:Helig.
    { intros [= <-]. simpl. lia. }
    destruct (attempt key a job (u0 :: us) (files l) (log l))
      as [[fs lg] [fn|e]] eqn:Hatt; intros [= <-]; simpl; [|lia].
    intros _. exists job. split; [done|]. intros u.
    rewrite elem_of_union, elem_of_list_to_set, elem_of_at_user_limit.
    split; (intros [?|(user & Hin & Hid & Hc)]; [by left|right]); exists user.
    + apply list_elem_of_filter in Hin as [_ Hin]. by rewrite Helig.
    + split_and!; [|done|done]. apply list_elem_of_filter.
      split; [by eapply eligible_not_limited|]. by rewrite <- Helig.
  - intros a l. unfold iteration; cbv zeta.
    destruct (decide (cap ≤ Db.countDownloadsToday (clock l) (store l)))
      as [Hcap|Hcap]; [done|].
    destruct (Db.nextPending MAX_ATTEMPTS (skippedBookIds l) (store l))
      as [job|] eqn:Hjob; [|done].
    destruct (eligible l job) as [|u0 us] eqn:Helig; [done|].
    destruct (attempt key a job (u0 :: us) (files l) (log l))
      as [[fs lg] [fn|e]] eqn:Hatt; simpl; [lia|done].
Qed.

Lemma C4_witness :
  ∃ l', iteration 50 1 None Sample.smooth (start 1 Sample.shelves ∅ 1000) = Continue l'
        ∧ processed l' = 0 ∧ skippedBookIds l' = [1]
        ∧ store l' = Sample.shelves.
Proof.
  destruct (proj1 (proj2 (C4_per_user_limits_and_skipping 50 1 None))
              Sample.smooth (start 1 Sample.shelves ∅ 1000) Sample.dune)
    as (l' & Hit & Hst & _ & _ & Hpr & _ & _ & _ & Hsk & _).
  - vm_compute. lia.
  - reflexivity.
  - intros user Hin. apply list_elem_of_In in Hin. vm_compute in Hin.
    destruct Hin as [<-|[]]. apply (bool_decide_unpack _). vm_compute. exact I.
  - exists l'. split_and!; [exact Hit|exact Hpr|exact Hsk|exact Hst].
Defined.

(** C1, as the code has it: when the download succeeds and the copy to one
    eligible destination fails, the exception reaches the [catch] of the
    attempt. The attempt is counted and logged as failed, the book is not
    marked downloaded: it stays pending with its attempts incremented, or
    becomes failed when the attempts are used up, and [downloaded_at] and
    [file_path] keep their values. *)
Theorem C1_copy_failure_is_a_failed_attempt
    (cap capU : nat) (key : option string) (a : Attempt) (l : Loop)
    (job : Db.Book) (url : string) (fs1 : Fs) (tempPath ext : string) :
  Db.countDownloadsToday (clock l) (store l) < cap →
  Db.nextPending MAX_ATTEMPTS (skippedBookIds l) (store l) = Some job →
  searchTerm job ≠ EmptyString →
  findBookOnAnna key a (searchTerm job) (Db.title job) (Db.author job) = Some url →
  downloadBook a (files l) url job = (fs1, Ok (tempPath, ext)) →
  (∃ u, u ∈ eligible l job ∧ copy_ok a (Db.user_rowid u) = false) →
  ∃ l' uid job',
    iteration cap capU key a l = Continue l'
    ∧ processed l' = S (processed l)
    ∧ succeeded l' = succeeded l ∧ failed l' = S (failed l)
    ∧ LogFailed (Db.rowid job) (CopyFailed uid) ∈ log l'
    ∧ job' ∈ Db.books (store l')
    ∧ Db.rowid job' = Db.rowid job
    ∧ Db.attempts job' = Db.attempts job + 1
    ∧ Db.status job' =
        (if bool_decide (MAX_ATTEMPTS ≤ Db.attempts job + 1)
         then Db.failed else Db.pending)
    ∧ Db.downloaded_at job' = Db.downloaded_at job
    ∧ Db.file_path job' = Db.file_path job.
Proof.
  intros Hcap Hjob Hterm Hfind Hdl Hcopy.
  assert (eligible l job ≠ []) as Hel.
  { destruct Hcopy as (u & Hin & _). intros Hnil. rewrite Hnil in Hin.
    by apply elem_of_nil in Hin. }
  destruct (attempt_copy_fails key a job (eligible l job) (files l) (log l)
              url fs1 tempPath ext Hterm Hfind Hdl Hcopy)
    as (fs' & lg' & uid & Hatt).
  destruct (iteration_failure cap capU key a l job fs' lg' _ Hcap Hjob Hel Hatt)
    as (l' & Hit & Hst & _ & Hpr & Hsu & Hfa & Hlog & _).
  apply nextPending_Some in Hjob as (Hin & (Hp & _) & _).
  exists l', uid. rewrite Hst. case_bool_decide.
  - eexists. split_and!; [done..| | | | | |].
    + unfold Db.markFailed, Db.incrementAttempts. rewrite !update_where_books.
      apply list_elem_of_fmap_2, list_elem_of_fmap_2, Hin.
    + rewrite (touch_same _ _ job) by done. by rewrite touch_same.
    + rewrite (touch_same _ _ job) by done. by rewrite touch_same.
    + rewrite (touch_same _ _ job) by done. by rewrite touch_same.
    + rewrite (touch_same _ _ job) by done. by rewrite touch_same.
    + rewrite (touch_same _ _ job) by done. by rewrite touch_same.
  - eexists. split_and!; [done..| | | | | |].
    + unfold Db.incrementAttempts. rewrite !update_where_books.
      apply list_elem_of_fmap_2, Hin.
    + by rewrite touch_same.
    + by rewrite touch_same.
    + by rewrite touch_same.
    + by rewrite touch_same.
    + by rewrite touch_same.
Qed.

Lemma C1_witness :
  ∃ l' uid job',
    iteration 50 10 None Sample.picky (start 10 Sample.library ∅ 1000) = Continue l'
    ∧ failed l' = 1
    ∧ LogFailed 1 (CopyFailed uid) ∈ log l'
    ∧ job' ∈ Db.books (store l')
    ∧ Db.status job' = Db.pending ∧ Db.downloaded_at job' = None.
Proof.
  destruct (C1_copy_failure_is_a_failed_attempt 50 10 None Sample.picky
              (start 10 Sample.library ∅ 1000) Sample.dune
              "https://annas-archive.gl/md5/d41d8cd98f00b204e9800998ecf8427e"
              {[ "/app/data/tmp/Frank Herbert - Dune (Dune, #1).epub" := 5242880%N ]}
              "/app/data/tmp/Frank Herbert - Dune (Dune, #1).epub" ".epub")
    as (l' & uid & job' & Hit & _ & _ & Hfa & Hlog & Hin & _ & _ & Hs & Hd & _).
  - vm_compute. lia.
  - reflexivity.
  - vm_compute. discriminate.
  - vm_compute. reflexivity.
  - vm_compute. reflexivity.
  - exists Sample.bob. split; [|reflexivity].
    apply list_elem_of_In. vm_compute. right. left. reflexivity.
  - exists l', uid, job'. split_and!;
      [exact Hit|exact Hfa|exact Hlog|exact Hin|exact Hs|exact Hd].
Defined.

(** C1 as stated fails: the five megabytes arrive, the copy into Bob's
    folder fails, and the pass leaves Dune pending with one attempt used and
    no [downloaded_at]; the whole run downloads it five times over and ends
    with the book failed. *)
Lemma C1_counterexample :
  (∃ url fs1 path ext,
     findBookOnAnna None Sample.picky (searchTerm Sample.dune)
       (Db.title Sample.dune) (Db.author Sample.dune) = Some url
     ∧ downloadBook Sample.picky ∅ url Sample.dune = (fs1, Ok (path, ext)))
  ∧ copy_ok Sample.picky (Db.user_rowid Sample.bob) = false
  ∧ (∃ l', iteration 50 10 None Sample.picky (start 10 Sample.library ∅ 1000)
           = Continue l'
           ∧ failed l' = 1 ∧ succeeded l' = 0
           ∧ (Db.status <$> Db.books (store l')) = [Db.pending]
           ∧ (Db.attempts <$> Db.books (store l')) = [1]
           ∧ (Db.downloaded_at <$> Db.books (store l')) = [None])
  ∧ (∃ l', processQueue 50 10 None (λ _, Sample.picky) Sample.library ∅ 1000
           = Some l'
           ∧ processed l' = 5 ∧ failed l' = 5 ∧ succeeded l' = 0
           ∧ (Db.status <$> Db.books (store l')) = [Db.failed]
           ∧ (Db.downloaded_at <$> Db.books (store l')) = [None]).
Proof.
  split_and!.
  - do 4 eexists. split; vm_compute; reflexivity.
  - reflexivity.
  - eexists. split; [vm_compute; reflexivity|]. by vm_compute.
  - eexists. split; [vm_compute; reflexivity|]. by vm_compute.
Qed.

(** C9: a download whose file is smaller than 1KB (1024 bytes) is never
    handed back as a success: on the direct path and on the browser path
    alike [downloadBook] deletes the temporary file and throws; whatever it
    does hand back holds at least 1024 bytes; and the pass of the queue
    records the attempt as failed. *)
Theorem C9_small_download_is_deleted_and_fails :
  (∀ a fs url job ext size,
     Match.includes url "/fast_download/" = false →
     stream a = Response ext size true → (size < 1024)%N →
     ∃ fs', downloadBook a fs url job = (fs', Err (TooSmall size))
            ∧ fs' !! join tempDir (temp_name job +:+ ext) = None)
  ∧ (∀ a fs url job file size,
       Match.includes url "/fast_download/" = true →
       browser a = BrowserSaved file size → (size < 1024)%N →
       ∃ fs', downloadBook a fs url job = (fs', Err (TooSmall size))
              ∧ fs' !! join tempDir file = None)
  ∧ (∀ a fs url job fs' path ext,
       downloadBook a fs url job = (fs', Ok (path, ext)) →
       ∃ size, fs' !! path = Some size ∧ (1024 ≤ size)%N)
  ∧ (∀ cap capU key a l job url fs1 size,
       Db.countDownloadsToday (clock l) (store l) < cap →
       Db.nextPending MAX_ATTEMPTS (skippedBookIds l) (store l) = Some job →
       eligible l job ≠ [] →
       searchTerm job ≠ EmptyString →
       findBookOnAnna key a (searchTerm job) (Db.title job) (Db.author job)
         = Some url →
       downloadBook a (files l) url job = (fs1, Err (TooSmall size)) →
       ∃ l', iteration cap capU key a l = Continue l'
             ∧ files l' = fs1
             ∧ succeeded l' = succeeded l ∧ failed l' = S (failed l)
             ∧ LogFailed (Db.rowid job) (TooSmall size) ∈ log l'
             ∧ store l' =
                 (if bool_decide (MAX_ATTEMPTS ≤ Db.attempts job + 1)
                  then Db.markFailed (clock l + elapsed a) (Db.rowid job)
                         (Db.incrementAttempts (clock l) (Db.rowid job) (store l))
                  else Db.incrementAttempts (clock l) (Db.rowid job) (store l))).
Proof.
  split_and!.
  - apply downloadBook_stream_small.
  - apply downloadBook_browser_small.
  - apply downloadBook_Ok.
  - intros cap capU key a l job url fs1 size Hcap Hjob Hel Hterm Hfind Hdl.
    pose proof (attempt_download_fails key a job (eligible l job) (files l) (log l)
                  url fs1 _ Hterm Hfind Hdl) as Hatt.
    destruct (iteration_failure cap capU key a l job _ _ _ Hcap Hjob Hel Hatt)
      as (l' & Hit & Hst & Hfs & _ & Hsu & Hfa & Hlog & _).
    exists l'. by split_and!.
Qed.

Lemma C9_witness :
  (∃ fs', downloadBook Sample.stingy ∅
            "https://annas-archive.gl/md5/d41d8cd98f00b204e9800998ecf8427e"
            Sample.dune = (fs', Err (TooSmall 900))
          ∧ fs' !! "/app/data/tmp/Frank Herbert - Dune (Dune, #1).epub" = None)
  ∧ ∃ l', iteration 50 10 None Sample.stingy (start 10 Sample.library ∅ 1000)
          = Continue l'
          ∧ failed l' = 1 ∧ succeeded l' = 0.
Proof.
  split.
  - apply (proj1 C9_small_download_is_deleted_and_fails Sample.stingy ∅
             "https://annas-archive.gl/md5/d41d8cd98f00b204e9800998ecf8427e"
             Sample.dune ".epub" 900%N); [reflexivity|reflexivity|lia].
  - destruct (proj2 (proj2 (proj2 C9_small_download_is_deleted_and_fails))
                50 10 None Sample.stingy (start 10 Sample.library ∅ 1000)
                Sample.dune
                "https://annas-archive.gl/md5/d41d8cd98f00b204e9800998ecf8427e"
                ∅ 900%N)
      as (l' & Hit & _ & Hsu & Hfa & _).
    + vm_compute. lia.
    + reflexivity.
    + vm_compute. discriminate.
    + vm_compute. discriminate.
    + vm_compute. reflexivity.
    + vm_compute. reflexivity.
    + exists l'. split_and!; [exact Hit|exact Hfa|exact Hsu].
Defined.

(** C7: the ingestion upsert is keyed on the external dedup key and keeps
    a stored value wherever the incoming one is null: upserting one key with
    (title X, author null) and then (title null, author Y) leaves exactly
    one row under that key, with title X and author Y; an upsert never adds
    a second row for a key, and never turns a stored isbn, title or author
    into null. *)
Theorem C7_upsert_keeps_one_row_and_non_null_fields :
  (∀ st now1 now2 key i1 i2 X Y,
     unique_keys st →
     ∃ b, filter (Db.has_key key)
            (Db.books
               (Db.upsertBookByGoodreadsId now2 (Some key) i2 None (Some Y)
                  (Db.upsertBookByGoodreadsId now1 (Some key) i1 (Some X) None st)))
          = [b]
          ∧ Db.title b = Some X ∧ Db.author b = Some Y)
  ∧ (∀ st now k i t a,
       unique_keys st → unique_keys (Db.upsertBookByGoodreadsId now k i t a st))
  ∧ (∀ st now key i t a,
       Exists (Db.has_key key) (Db.books st) →
       length (Db.books (Db.upsertBookByGoodreadsId now (Some key) i t a st))
       = length (Db.books st))
  ∧ (∀ st now k i t a idx b,
       Db.books st !! idx = Some b →
       ∃ b', Db.books (Db.upsertBookByGoodreadsId now k i t a st) !! idx = Some b'
             ∧ Db.rowid b' = Db.rowid b
             ∧ Db.goodreads_book_id b' = Db.goodreads_book_id b
             ∧ (is_Some (Db.isbn b) → is_Some (Db.isbn b'))
             ∧ (is_Some (Db.title b) → is_Some (Db.title b'))
             ∧ (is_Some (Db.author b) → is_Some (Db.author b'))
             ∧ (i = None → Db.isbn b' = Db.isbn b)
             ∧ (t = None → Db.title b' = Db.title b)
             ∧ (a = None → Db.author b' = Db.author b)).
Proof.
  split_and!.
  - intros st now1 now2 key i1 i2 X Y Hu.
    destruct (upsert_key_row now1 key i1 (Some X) None st Hu) as (b1 & Hf1 & H1).
    assert (Db.title b1 = Some X) as Ht1.
    { destruct (filter _ (Db.books st)).
      - by destruct H1 as (_ & ? & _).
      - destruct H1 as (_ & H1 & _). by rewrite H1. }
    pose proof (upsert_unique_keys now1 (Some key) i1 (Some X) None st Hu) as Hu1.
    destruct (upsert_key_row now2 key i2 None (Some Y) _ Hu1) as (b2 & Hf2 & H2).
    rewrite Hf1 in H2. destruct H2 as (_ & Ht2 & Ha2 & _).
    exists b2. split_and!; [done| |done]. by rewrite Ht2, Ht1.
  - intros. by apply upsert_unique_keys.
  - intros st now key i t a He. rewrite upsert_existing by done.
    apply length_fmap.
  - intros st now k i t a idx b Hb.
    destruct (upsert_lookup now k i t a st idx b Hb) as (b' & Hb' & [->|[Hk ->]]).
    + exists b. by split_and!.
    + eexists. split; [done|]. simpl.
      split_and!; try done; try (intros ->; done);
        intros [v Hv]; rewrite Hv; unfold Db.COALESCE; by case_match.
Qed.

Lemma C7_witness :
  unique_keys Sample.empty_store
  ∧ ∃ b, filter (Db.has_key "44767458")
           (Db.books
              (Db.upsertBookByGoodreadsId 20 (Some "44767458") None None (Some "Y")
                 (Db.upsertBookByGoodreadsId 10 (Some "44767458") None (Some "X") None
                    Sample.empty_store)))
         = [b]
         ∧ Db.title b = Some "X" ∧ Db.author b = Some "Y".
Proof.
  assert (unique_keys Sample.empty_store) as Hu by (intros k; simpl; lia).
  split; [exact Hu|].
  exact (proj1 C7_upsert_keeps_one_row_and_non_null_fields
           Sample.empty_store 10%N 20%N "44767458" None None "X" "Y" Hu).
Defined.

(** C8, amended: both daily counts are functions of the rows' [status] and
    [downloaded_at] (and of the links) alone. Of the statements that write
    rows of [books], [incrementAttempts], [markFailed] and the upsert,
    whether it inserts or updates, leave the [downloaded_at] of every row as
    it is, a new row having none; [markDownloaded] sets it to the time of
    the success; the statement of [reset-limits.js] moves the successes of
    the day to the day before; and the backfill of [initDb] gives a
    downloaded row that has none its [updated_at]. An ingestion upsert of a
    book that is already there sets its [updated_at] to the time of the
    upsert while its [downloaded_at], and with it the global and the
    per-user count of every day, stay as they were. *)
Theorem C8_daily_counts_read_downloaded_at_only :
  (∀ st st' now u,
     Db.user_books st' = Db.user_books st →
     Forall2 same_success (Db.books st) (Db.books st') →
     Db.countDownloadsToday now st' = Db.countDownloadsToday now st
     ∧ Db.countUserDownloadsToday now u st' = Db.countUserDownloadsToday now u st)
  ∧ (∀ st t id fn idx b,
       Db.books st !! idx = Some b →
       (∃ b', Db.books (Db.incrementAttempts t id st) !! idx = Some b'
              ∧ Db.downloaded_at b' = Db.downloaded_at b)
       ∧ (∃ b', Db.books (Db.markFailed t id st) !! idx = Some b'
                ∧ Db.downloaded_at b' = Db.downloaded_at b)
       ∧ (∃ b', Db.books (Db.markDownloaded t fn id st) !! idx = Some b'
                ∧ Db.downloaded_at b' =
                    if decide (Db.rowid b = id) then Some t else Db.downloaded_at b))
  ∧ (∀ st t k i ti a idx b',
       Db.books (Db.upsertBookByGoodreadsId t k i ti a st) !! idx = Some b' →
       Db.downloaded_at b'
       = match Db.books st !! idx with
         | Some b => Db.downloaded_at b
         | None => None
         end)
  ∧ (∀ st now idx b,
       Db.books st !! idx = Some b →
       ∃ b', Db.books (reset_limits now st).1 !! idx = Some b'
             ∧ Db.downloaded_at b' =
                 if decide (Db.downloaded_on (Db.date now) b)
                 then Some (yesterday now) else Db.downloaded_at b)
  ∧ (∀ st idx b,
       Db.books st !! idx = Some b →
       ∃ b', Db.books (backfill st) !! idx = Some b'
             ∧ Db.downloaded_at b' =
                 if decide (Db.status b = Db.downloaded ∧ Db.downloaded_at b = None)
                 then Some (Db.updated_at b) else Db.downloaded_at b)
  ∧ (∀ st t key i ti a idx b,
       Db.books st !! idx = Some b → Db.has_key key b →
       ∃ b', Db.books (Db.upsertBookByGoodreadsId t (Some key) i ti a st) !! idx
             = Some b'
             ∧ Db.updated_at b' = t
             ∧ Db.downloaded_at b' = Db.downloaded_at b
             ∧ Db.status b' = Db.status b)
  ∧ (∀ st t k i ti a now u,
       Db.countDownloadsToday now (Db.upsertBookByGoodreadsId t k i ti a st)
       = Db.countDownloadsToday now st
       ∧ Db.countUserDownloadsToday now u (Db.upsertBookByGoodreadsId t k i ti a st)
         = Db.countUserDownloadsToday now u st).
Proof.
  split_and!.
  - intros st st' now u Hl Hf. by apply counts_frame.
  - intros st t id fn idx b Hb. split_and!; eexists;
      (split; [by apply update_where_lookup|]); unfold touch; by case_decide.
  - intros st t k i ti a idx b'. apply upsert_keeps_downloaded_at.
  - intros st now idx b Hb. eexists. split; [by apply reset_limits_lookup|].
    unfold reset_row. by destruct (decide _).
  - intros st idx b Hb. eexists. split; [by apply backfill_lookup|].
    unfold backfill_row. by destruct (decide _).
  - intros st t key i ti a idx b Hb Hk.
    assert (Exists (Db.has_key key) (Db.books st)) as He.
    { apply Exists_exists. exists b. split; [|done]. by eapply list_elem_of_lookup_2. }
    rewrite upsert_existing by done. rewrite list_lookup_fmap, Hb. simpl.
    eexists. split; [done|]. unfold upsert_row. by rewrite decide_True.
  - intros st t k i ti a now u. apply upsert_counts.
Qed.

Lemma C8_witness :
  Db.has_key "338798" Sample.ulysses
  ∧ Db.countDownloadsToday 1000 Sample.shelves = 1
  ∧ ∃ b', Db.books (Db.upsertBookByGoodreadsId 900 (Some "338798") None
                      (Some "Ulysses") (Some "James Joyce") Sample.shelves) !! 2
          = Some b'
          ∧ Db.updated_at b' = 900%N
          ∧ Db.downloaded_at b' = Some 400%N.
Proof.
  assert (Db.has_key "338798" Sample.ulysses) as Hk by reflexivity.
  split; [exact Hk|]. split; [reflexivity|].
  destruct (proj1 (proj2 (proj2 (proj2 (proj2 (proj2 C8_daily_counts_read_downloaded_at_only)))))
              Sample.shelves 900%N "338798" None (Some "Ulysses")
              (Some "James Joyce") 2 Sample.ulysses eq_refl Hk)
    as (b' & Hb' & Hu & Hd & _).
  exists b'. split_and!; [exact Hb'|exact Hu|exact Hd].
Defined.

(** C8 as stated fails: [downloaded_at] is not written by the success
    operation alone. After Dune was delivered on the second day,
    [reset-limits.js] moves its [downloaded_at] to the day before and both
    counts of the day drop from one to zero; and on a database from before
    the column, the backfill of [initDb] gives Ulysses the [updated_at] that
    a later upsert had set, and the counts of that day rise from zero to
    one. *)
Lemma C8_counterexample :
  (Db.downloaded_at <$> Db.books Sample.delivered) = [Some 90000%N]
  ∧ Db.countDownloadsToday 100000 Sample.delivered = 1
  ∧ Db.countUserDownloadsToday 100000 1 Sample.delivered = 1
  ∧ (Db.downloaded_at <$> Db.books (reset_limits 100000 Sample.delivered).1)
    = [Some 0%N]
  ∧ Db.countDownloadsToday 100000 (reset_limits 100000 Sample.delivered).1 = 0
  ∧ Db.countUserDownloadsToday 100000 1 (reset_limits 100000 Sample.delivered).1 = 0
  ∧ (Db.downloaded_at <$> Db.books Sample.legacy) = [None]
  ∧ Db.countDownloadsToday 100000 Sample.legacy = 0
  ∧ (Db.downloaded_at <$> Db.books (backfill Sample.legacy)) = [Some 90000%N]
  ∧ Db.countDownloadsToday 100000 (backfill Sample.legacy) = 1
  ∧ Db.countUserDownloadsToday 100000 1 (backfill Sample.legacy) = 1.
Proof. split_and!; by vm_compute. Qed.

(** ** Further properties: the match engine *)

Section NormalizeFacts.
Import Match.

Ltac each_char c :=
  destruct c as [[] [] [] [] [] [] [] []]; vm_compute; try done; auto.

Lemma lower_char_not_upper c : is_upper (lower_char c) = false.
Proof. each_char c. Qed.

Lemma word_not_upper c :
  is_upper c = false → is_word c || is_space c = true →
  lower_word c || is_space c = true.
Proof. each_char c. Qed.

Lemma lower_word_facts c :
  lower_word c = true →
  is_space c = false ∧ is_word c = true ∧ lower_char c = c
  ∧ Ascii.eqb c "(" = false ∧ Ascii.eqb c ":" = false.
Proof. each_char c. Qed.

Lemma all_chars_impl (P Q : ascii → bool) s :
  (∀ c, P c = true → Q c = true) → all_chars P s = true → all_chars Q s = true.
Proof.
  intros HPQ. induction s as [|c r IH]; simpl; [done|].
  rewrite !andb_true_iff. intros [? ?]. auto.
Qed.

Lemma toLowerCase_not_upper s :
  all_chars (λ c, negb (is_upper c)) (toLowerCase s) = true.
Proof.
  induction s as [|c r IH]; simpl; [done|].
  by rewrite lower_char_not_upper, IH.
Qed.

Lemma strip_parens_from_chars P k s :
  all_chars P s = true → all_chars P (strip_parens_from k s) = true.
Proof.
  revert k. induction s as [|c r IH]; intros k; simpl; [done|].
  rewrite andb_true_iff. intros [Hc Hr]. destruct k as [|k]; [|by apply IH].
  destruct (Ascii.eqb c "(").
  - destruct (close_index r); [by apply IH|]. simpl. by rewrite Hc, IH.
  - simpl. by rewrite Hc, IH.
Qed.

Lemma strip_a_novel_chars P s :
  all_chars P s = true → all_chars P (strip_a_novel s) = true.
Proof.
  induction s as [|c r IH]; simpl; [done|].
  rewrite andb_true_iff. intros [Hc Hr].
  destruct (if Ascii.eqb c ":" then a_novel_tail r else false); [done|].
  simpl. by rewrite Hc, IH.
Qed.

Lemma remove_punct_chars s :
  all_chars (λ c, negb (is_upper c)) s = true →
  all_chars (λ c, lower_word c || is_space c) (remove_punct s) = true.
Proof.
  induction s as [|c r IH]; simpl; [done|].
  rewrite andb_true_iff, negb_true_iff. intros [Hc Hr].
  destruct (is_word c || is_space c) eqn:Hk; [|by apply IH].
  simpl. by rewrite word_not_upper, IH.
Qed.

Lemma space_is_space c : lower_word c = false → is_space c = true →
  lower_word c || is_space c = true.
Proof. intros _ ->. apply orb_true_r. Qed.

Lemma collapse_from_spaced b s :
  all_chars (λ c, lower_word c || is_space c) s = true →
  spaced b (collapse_from b s) = true.
Proof.
  revert b. induction s as [|c r IH]; intros b; simpl; [done|].
  rewrite andb_true_iff. intros [Hc Hr].
  destruct (is_space c) eqn:Hs.
  - destruct b; simpl; by apply IH.
  - rewrite orb_false_r in Hc. simpl. rewrite Hc. by apply IH.
Qed.

Lemma spaced_skip_spaces p s :
  spaced p s = true → spaced true (skip_spaces s) = true.
Proof.
  revert p. induction s as [|c r IH]; intros p; simpl; [done|].
  destruct (lower_word c) eqn:Hw.
  - destruct (lower_word_facts c Hw) as (-> & _). simpl. by rewrite Hw.
  - destruct (Ascii.eqb c " ") eqn:Hc; simpl; [|done].
    apply Ascii.eqb_eq in Hc as ->. destruct p; simpl; [done|]. apply IH.
Qed.

Lemma spaced_trim_end p s :
  spaced p s = true → trim_end s = EmptyString ∨ shape p (trim_end s) = true.
Proof.
  revert p. induction s as [|c r IH]; intros p; simpl; [by left|].
  destruct (lower_word c) eqn:Hw.
  - destruct (lower_word_facts c Hw) as (-> & _). simpl. rewrite Hw.
    intros Hr. right. destruct (IH false Hr) as [->|?]; done.
  - destruct (Ascii.eqb c " ") eqn:Hc; simpl; [|done].
    apply Ascii.eqb_eq in Hc as ->. destruct p; simpl; [done|].
    intros Hr. destruct (IH true Hr) as [->|Hs]; [by left|].
    right. destruct (trim_end r); [done|]. simpl. exact Hs.
Qed.

(** Every normalized text is empty or a run of lower-case words separated
    by single spaces. *)
Lemma normalizeText_normal (x : option string) : normal (normalizeText x) = true.
Proof.
  destruct x as [[|c s]|]; [done| |done]. unfold normalizeText, trim.
  set (t := collapse_ws _).
  assert (spaced false t = true) as Ht.
  { apply collapse_from_spaced, remove_punct_chars, strip_a_novel_chars,
      strip_parens_from_chars, toLowerCase_not_upper. }
  apply spaced_skip_spaces in Ht.
  destruct (spaced_trim_end _ _ Ht) as [->|Hs]; [done|].
  by destruct (trim_end _).
Qed.

Lemma shape_chars p s :
  shape p s = true → all_chars (λ c, lower_word c || Ascii.eqb c " ") s = true.
Proof.
  revert p. induction s as [|c r IH]; intros p; simpl; [done|].
  destruct (lower_word c); simpl; [apply IH|].
  destruct (Ascii.eqb c " "); simpl; [|done]. destruct p; simpl; [done|apply IH].
Qed.

Lemma shape_spaced p s : shape p s = true → spaced p s = true.
Proof.
  revert p. induction s as [|c r IH]; intros p; simpl; [done|].
  destruct (lower_word c); [apply IH|].
  destruct (Ascii.eqb c " " && negb p); [apply IH|done].
Qed.

Lemma spaced_weaken s : spaced true s = true → spaced false s = true.
Proof.
  destruct s as [|c r]; simpl; [done|].
  destruct (lower_word c); [done|]. by rewrite andb_false_r.
Qed.

Lemma toLowerCase_fixed s :
  all_chars (λ c, lower_word c || Ascii.eqb c " ") s = true → toLowerCase s = s.
Proof.
  induction s as [|c r IH]; simpl; [done|].
  rewrite andb_true_iff, orb_true_iff. intros [Hc Hr]. rewrite IH by done.
  f_equal. destruct Hc as [Hc|Hc].
  - by destruct (lower_word_facts c Hc) as (_ & _ & ? & _).
  - by apply Ascii.eqb_eq in Hc as ->.
Qed.

Lemma strip_parens_fixed s :
  all_chars (λ c, lower_word c || Ascii.eqb c " ") s = true → strip_parens s = s.
Proof.
  unfold strip_parens. induction s as [|c r IH]; simpl; [done|].
  rewrite andb_true_iff, orb_true_iff. intros [Hc Hr]. rewrite IH by done.
  assert (Ascii.eqb c "(" = false) as ->; [|done]. destruct Hc as [Hc|Hc].
  - by destruct (lower_word_facts c Hc) as (_ & _ & _ & ? & _).
  - by apply Ascii.eqb_eq in Hc as ->.
Qed.

Lemma strip_a_novel_fixed s :
  all_chars (λ c, lower_word c || Ascii.eqb c " ") s = true → strip_a_novel s = s.
Proof.
  induction s as [|c r IH]; simpl; [done|].
  rewrite andb_true_iff, orb_true_iff. intros [Hc Hr]. rewrite IH by done.
  assert (Ascii.eqb c ":" = false) as ->; [|done]. destruct Hc as [Hc|Hc].
  - by destruct (lower_word_facts c Hc) as (_ & _ & _ & _ & ?).
  - by apply Ascii.eqb_eq in Hc as ->.
Qed.

Lemma remove_punct_fixed s :
  all_chars (λ c, lower_word c || Ascii.eqb c " ") s = true → remove_punct s = s.
Proof.
  induction s as [|c r IH]; simpl; [done|].
  rewrite andb_true_iff, orb_true_iff. intros [Hc Hr]. rewrite IH by done.
  assert (is_word c || is_space c = true) as ->; [|done]. destruct Hc as [Hc|Hc].
  - destruct (lower_word_facts c Hc) as (_ & -> & _). done.
  - by apply Ascii.eqb_eq in Hc as ->.
Qed.

Lemma collapse_from_fixed p s : spaced p s = true → collapse_from p s = s.
Proof.
  revert p. induction s as [|c r IH]; intros p; simpl; [done|].
  destruct (lower_word c) eqn:Hw.
  - destruct (lower_word_facts c Hw) as (-> & _). intros Hr. by rewrite IH.
  - destruct (Ascii.eqb c " ") eqn:Hc; simpl; [|done].
    apply Ascii.eqb_eq in Hc as ->. destruct p; simpl; [done|].
    intros Hr. by rewrite IH.
Qed.

Lemma trim_end_fixed p s : shape p s = true → trim_end s = s.
Proof.
  revert p. induction s as [|c r IH]; intros p; simpl; [done|].
  destruct (lower_word c) eqn:Hw.
  - destruct (lower_word_facts c Hw) as (-> & _). intros Hr. simpl.
    by rewrite (IH false).
  - destruct (Ascii.eqb c " ") eqn:Hc; simpl; [|done].
    apply Ascii.eqb_eq in Hc as ->. destruct p; simpl; [done|].
    intros Hr. rewrite (IH true Hr). by destruct r.
Qed.

Lemma skip_spaces_fixed s : shape true s = true → skip_spaces s = s.
Proof.
  destruct s as [|c r]; simpl; [done|].
  destruct (lower_word c) eqn:Hw; [|by rewrite andb_false_r].
  by destruct (lower_word_facts c Hw) as (-> & _).
Qed.

(** A text of normal form is its own normalization. *)
Lemma normalizeText_fixed (s : string) :
  normal s = true → normalizeText (Some s) = s.
Proof.
  destruct s as [|c r]; [done|]. unfold normal. intros Hs.
  pose proof (shape_chars _ _ Hs) as Hc. unfold normalizeText, trim, collapse_ws.
  rewrite toLowerCase_fixed, strip_parens_fixed, strip_a_novel_fixed,
    remove_punct_fixed by done.
  rewrite collapse_from_fixed by (by apply spaced_weaken, shape_spaced).
  rewrite skip_spaces_fixed by done. by apply trim_end_fixed in Hs.
Qed.
End NormalizeFacts.

Section ScoreFacts.
Import Match.

Lemma Zpos_of_nat (n : nat) : 0 < n → Z.pos (Pos.of_nat n) = Z.of_nat n.
Proof. intros Hn. destruct n; [lia|]. rewrite <- Pos.of_nat_succ. lia. Qed.

Lemma ratio_bounds (m n : nat) : m ≤ n → (0 <= ratio m n <= 1)%Q.
Proof.
  intros Hle. unfold ratio, Qle. simpl. destruct (decide (n = 0)) as [->|Hn].
  - assert (m = 0) as -> by lia. simpl. lia.
  - rewrite Zpos_of_nat by lia. lia.
Qed.

Lemma ratio_full (n : nat) : 0 < n → (ratio n n == 1)%Q.
Proof. intros Hn. unfold ratio, Qeq. simpl. rewrite Zpos_of_nat by lia. lia. Qed.

Lemma size_word_set_pos (x : option string) :
  word_set x ≠ ∅ → 0 < size (word_set x).
Proof.
  intros Hne. destruct (decide (size (word_set x) = 0)) as [H0|]; [|lia].
  apply size_empty_inv in H0. apply leibniz_equiv in H0. done.
Qed.

Lemma titleScore_spec_bounds a b : (0 <= titleScore_spec a b <= 1)%Q.
Proof.
  unfold titleScore_spec. case_decide; [done|].
  apply ratio_bounds, subseteq_size. apply intersection_subseteq_l.
Qed.

Lemma titleScore_spec_sym a b : titleScore_spec a b = titleScore_spec b a.
Proof.
  unfold titleScore_spec.
  destruct (decide (word_set a = ∅ ∨ word_set b = ∅)) as [H|H];
    destruct (decide (word_set b = ∅ ∨ word_set a = ∅)) as [H'|H']; try tauto.
  destruct (decide (size (word_set a) ≤ size (word_set b))) as [Hab|Hab];
    destruct (decide (size (word_set b) ≤ size (word_set a))) as [Hba|Hba];
    try lia; try done.
  rewrite (comm_L (∩) (word_set b)). f_equal. lia.
Qed.

Lemma titleScore_spec_contained a b :
  word_set a ⊆ word_set b → word_set a ≠ ∅ → (titleScore_spec a b == 1)%Q.
Proof.
  intros Hsub Hne. unfold titleScore_spec.
  assert (word_set b ≠ ∅) as Hb.
  { intros Hb. apply Hne, equiv_empty_L. by rewrite <- Hb. }
  rewrite decide_False by tauto.
  pose proof (subseteq_size _ _ Hsub) as Hle. rewrite !decide_True by done.
  rewrite (subseteq_intersection_1_L _ _ Hsub).
  by apply ratio_full, size_word_set_pos.
Qed.
End ScoreFacts.

(** X1: whatever the input, [normalizeText] returns the empty string or
    words made of lower-case letters, digits and underscores, separated by
    single spaces, with no space at either end. *)
Theorem X1_normalizeText_yields_spaced_lower_case_words (x : option string) :
  normal (Match.normalizeText x) = true.
Proof. apply normalizeText_normal. Qed.

(** X2: [normalizeText] is idempotent: normalizing a normalized text
    changes nothing. *)
Theorem X2_normalizeText_idempotent (x : option string) :
  Match.normalizeText (Some (Match.normalizeText x)) = Match.normalizeText x.
Proof. apply normalizeText_fixed, normalizeText_normal. Qed.

(** X3: the score of [wordOverlap] lies between 0 and 1 and does not
    depend on the order of its two arguments. *)
Theorem X3_wordOverlap_bounded_and_symmetric (a b : option string) :
  (0 <= Match.wordOverlap a b <= 1)%Q
  ∧ Match.wordOverlap a b = Match.wordOverlap b a.
Proof.
  rewrite !wordOverlap_refines. split.
  - apply titleScore_spec_bounds.
  - apply titleScore_spec_sym.
Qed.

(** X4: when every word of one title occurs in the other, the score is 1
    whatever else the longer title holds, so with no expected author the
    candidate is accepted. *)
Theorem X4_contained_title_scores_one (a b : option string) :
  word_set a ⊆ word_set b → word_set a ≠ ∅ →
  (Match.wordOverlap a b == 1)%Q ∧ (Match.wordOverlap b a == 1)%Q
  ∧ ∀ cA, Match.isGoodMatch a None b cA = true
          ∧ Match.isGoodMatch b None a cA = true.
Proof.
  intros Hsub Hne.
  pose proof (titleScore_spec_contained a b Hsub Hne) as H1.
  assert (titleScore_spec b a == 1)%Q as H2 by by rewrite titleScore_spec_sym.
  rewrite !wordOverlap_refines. split_and!; [done..|].
  intros cA. rewrite !isGoodMatch_spec, H1, H2. by split_and!.
Qed.

Lemma X4_witness :
  (Match.wordOverlap (Some "Dune") (Some "Dune Messiah") == 1)%Q
  ∧ Match.isGoodMatch (Some "Dune") None (Some "Dune Messiah") (Some "Frank Herbert")
    = true.
Proof.
  destruct (X4_contained_title_scores_one (Some "Dune") (Some "Dune Messiah"))
    as (H1 & _ & H3).
  - apply (bool_decide_unpack _). vm_compute. exact I.
  - apply (bool_decide_unpack _). vm_compute. exact I.
  - split; [exact H1|]. exact (proj1 (H3 (Some "Frank Herbert"))).
Defined.

(** X5: a title without any word is never matched: when the expected or
    the candidate title normalizes to no words, [isGoodMatch] is false
    whatever the authors are. *)
Theorem X5_wordless_title_never_matches (eT eA cT cA : option string) :
  word_set eT = ∅ ∨ word_set cT = ∅ → Match.isGoodMatch eT eA cT cA = false.
Proof.
  intros He. apply not_true_is_false. rewrite isGoodMatch_spec.
  unfold titleScore_spec. rewrite decide_True by done. intros [Hle _].
  by vm_compute in Hle.
Qed.

Lemma X5_witness :
  word_set (Some "(Untitled)") = ∅
  ∧ Match.isGoodMatch (Some "(Untitled)") (Some "Frank Herbert")
      (Some "Dune") (Some "Frank Herbert") = false.
Proof.
  assert (word_set (Some "(Untitled)") = ∅) as He by reflexivity.
  split; [exact He|].
  apply X5_wordless_title_never_matches. left. exact He.
Defined.

(** ** Further properties: file names *)

Section SanitizeFacts.
Import Match.

Lemma collapse_from_tidy b s : tidy b (collapse_from b s) = true.
Proof.
  revert b. induction s as [|c r IH]; intros b; simpl; [done|].
  destruct (is_space c) eqn:Hc.
  - destruct b; [apply IH|]. simpl. apply IH.
  - simpl. rewrite Hc. apply IH.
Qed.

Lemma tidy_skip_spaces p s : tidy p s = true → tidy true (skip_spaces s) = true.
Proof.
  revert p. induction s as [|c r IH]; intros p; simpl; [done|].
  destruct (is_space c) eqn:Hc.
  - rewrite !andb_true_iff. intros [_ Hr]. by apply IH in Hr.
  - simpl. by rewrite Hc.
Qed.

Lemma tidy_trim_end p s : tidy p s = true → tidy p (trim_end s) = true.
Proof.
  revert p. induction s as [|c r IH]; intros p; simpl; [done|].
  destruct (is_space c) eqn:Hc; simpl.
  - rewrite !andb_true_iff. intros [[Hs Hp] Hr].
    destruct (String.eqb (trim_end r) EmptyString); [done|].
    simpl. rewrite Hc, Hs, Hp. simpl. by apply IH.
  - intros Hr. rewrite Hc. by apply IH.
Qed.

Lemma tidy_substring p n s : tidy p s = true → tidy p (substring 0 n s) = true.
Proof.
  revert p n. induction s as [|c r IH]; intros p [|n]; simpl; try done.
  destruct (is_space c).
  - rewrite !andb_true_iff. intros [? Hr]. split; [done|]. by apply IH.
  - apply IH.
Qed.

Lemma all_chars_substring P n s :
  all_chars P s = true → all_chars P (substring 0 n s) = true.
Proof.
  revert n. induction s as [|c r IH]; intros [|n]; simpl; try done.
  rewrite !andb_true_iff. intros [? ?]. split; [done|]. by apply IH.
Qed.

Lemma length_substring n s : String.length (substring 0 n s) ≤ n.
Proof.
  revert n. induction s as [|c r IH]; intros [|n]; simpl; try lia.
  specialize (IH n). lia.
Qed.

Lemma remove_illegal_chars s :
  all_chars (λ c, negb (is_illegal c)) (remove_illegal s) = true.
Proof.
  induction s as [|c r IH]; simpl; [done|].
  destruct (is_illegal c) eqn:Hc; [done|]. simpl. by rewrite Hc.
Qed.

Lemma space_legal : is_illegal " " = false.
Proof. reflexivity. Qed.

Lemma collapse_from_chars P b s :
  P " "%char = true → all_chars P s = true → all_chars P (collapse_from b s) = true.
Proof.
  intros Hsp. revert b. induction s as [|c r IH]; intros b; simpl; [done|].
  rewrite andb_true_iff. intros [Hc Hr]. destruct (is_space c).
  - destruct b; [by apply IH|]. simpl. rewrite Hsp. by apply IH.
  - simpl. rewrite Hc. by apply IH.
Qed.

Lemma skip_spaces_chars P s :
  all_chars P s = true → all_chars P (skip_spaces s) = true.
Proof.
  induction s as [|c r IH]; simpl; [done|].
  rewrite andb_true_iff. intros [Hc Hr]. destruct (is_space c); [by apply IH|].
  simpl. by rewrite Hc.
Qed.

Lemma trim_end_chars P s :
  all_chars P s = true → all_chars P (trim_end s) = true.
Proof.
  induction s as [|c r IH]; simpl; [done|].
  rewrite andb_true_iff. intros [Hc Hr].
  destruct (is_space c && String.eqb (trim_end r) EmptyString); [done|].
  simpl. rewrite Hc. by apply IH.
Qed.
End SanitizeFacts.

(** X6: a name returned by [sanitizeFilename] holds none of the
    characters that are illegal in file names, is at most 200 characters
    long, does not start with whitespace, and holds whitespace only as
    single spaces. *)
Theorem X6_sanitizeFilename_is_safe (name : string) :
  all_chars (λ c, negb (is_illegal c)) (sanitizeFilename name) = true
  ∧ String.length (sanitizeFilename name) ≤ 200
  ∧ tidy true (sanitizeFilename name) = true.
Proof.
  unfold sanitizeFilename, Match.trim, Match.collapse_ws. split_and!.
  - apply all_chars_substring, trim_end_chars, skip_spaces_chars,
      collapse_from_chars, remove_illegal_chars. reflexivity.
  - apply length_substring.
  - apply tidy_substring, tidy_trim_end, (tidy_skip_spaces false),
      collapse_from_tidy.
Qed.

(** ** Further properties: the catalog search *)

Section SearchFacts.
Variable AA_API_KEY : option string.

Lemma first_match_None d eT eA rs :
  first_match AA_API_KEY d eT eA rs = None
  ↔ existsb (acceptable eT eA) rs = false.
Proof.
  induction rs as [|r rs IH]; simpl; [done|].
  unfold acceptable at 1. destruct (md5 r) as [h|]; simpl; [|done].
  destruct (Match.isGoodMatch _ _ _ _); simpl; [|done].
  split; discriminate.
Qed.

Lemma first_match_Some d eT eA rs url :
  first_match AA_API_KEY d eT eA rs = Some url
  ↔ ∃ j r h, rs !! j = Some r ∧ md5 r = Some h
             ∧ acceptable eT eA r = true
             ∧ existsb (acceptable eT eA) (take j rs) = false
             ∧ url = download_url AA_API_KEY d h.
Proof.
  induction rs as [|r rs IH]; simpl.
  { split; [discriminate|]. by intros (j & r & h & Hj & _). }
  destruct (acceptable eT eA r) eqn:Hacc.
  - unfold acceptable in Hacc. destruct (md5 r) as [h|] eqn:Hh; [|done].
    rewrite Hacc. split.
    + intros [= <-]. exists 0, r, h. split_and!; try done.
      unfold acceptable. by rewrite Hh.
    + intros ([|j] & r' & h' & Hj & Hh' & Hacc' & Hnone & ->).
      * by simplify_eq/=.
      * simpl in Hnone. unfold acceptable at 1 in Hnone.
        rewrite Hh, Hacc in Hnone. done.
  - assert (first_match AA_API_KEY d eT eA (r :: rs)
            = first_match AA_API_KEY d eT eA rs) as Hstep.
    { simpl. unfold acceptable in Hacc. destruct (md5 r); [|done].
      by rewrite Hacc. }
    simpl in Hstep. rewrite Hstep, IH. split.
    + intros (j & r' & h & Hj & Hh & Hacc' & Hnone & ->).
      exists (S j), r', h. split_and!; try done. simpl. by rewrite Hacc.
    + intros ([|j] & r' & h & Hj & Hh & Hacc' & Hnone & ->).
      * simplify_eq/=. congruence.
      * exists j, r', h. split_and!; try done.
        simpl in Hnone. by rewrite Hacc in Hnone.
Qed.

Lemma search_domains_None a ds q eT eA :
  search_domains AA_API_KEY a ds q eT eA = None
  ↔ Forall (λ d, offers a q eT eA d = false) ds.
Proof.
  induction ds as [|d ds IH]; simpl.
  { split; [constructor|done]. }
  rewrite Forall_cons, <- IH. unfold offers.
  destruct (reply a d q) as [|rs].
  { split; [done|]. by intros [_ ?]. }
  destruct (first_match _ _ _ _ _) as [url|] eqn:Hfm.
  - split; [done|]. intros [Hex _].
    apply (proj2 (first_match_None d _ _ _)) in Hex. congruence.
  - apply first_match_None in Hfm. split; [done|]. by intros [_ ?].
Qed.

Lemma search_domains_Some a ds q eT eA url :
  search_domains AA_API_KEY a ds q eT eA = Some url
  ↔ ∃ i d rs j r h,
      ds !! i = Some d
      ∧ Forall (λ d', offers a q eT eA d' = false) (take i ds)
      ∧ reply a d q = Listing rs
      ∧ j < MAX_RESULTS_TO_CHECK ∧ rs !! j = Some r ∧ md5 r = Some h
      ∧ acceptable eT eA r = true
      ∧ existsb (acceptable eT eA) (take j rs) = false
      ∧ url = download_url AA_API_KEY d h.
Proof.
  induction ds as [|d ds IH]; simpl.
  { split; [discriminate|]. by intros (i & d & rs & j & r & h & Hi & _). }
  destruct (offers a q eT eA d) eqn:Hoff.
  - unfold offers in Hoff. destruct (reply a d q) as [|rs] eqn:Hrep; [done|].
    destruct (first_match _ _ _ _ _) as [url'|] eqn:Hfm.
    2:{ apply first_match_None in Hfm. congruence. }
    split.
    + intros [= <-]. apply first_match_Some in Hfm
        as (j & r & h & Hj & Hh & Hacc & Hnone & ->).
      apply lookup_take_Some in Hj as [Hj Hlt].
      exists 0, d, rs, j, r, h. split_and!; try done.
      rewrite take_take in Hnone. by replace (j `min` _) with j in Hnone by lia.
    + intros ([|i] & d' & rs' & j & r & h & Hi & Hpre & Hrep' & Hlt & Hj & Hh
              & Hacc & Hnone & ->).
      * simplify_eq/=. f_equal. rewrite Hrep in Hrep'. simplify_eq.
        enough (first_match AA_API_KEY d' eT eA (take MAX_RESULTS_TO_CHECK rs')
                = Some (download_url AA_API_KEY d' h)) by congruence.
        apply first_match_Some. exists j, r, h. split_and!; try done.
        -- by apply lookup_take_Some.
        -- rewrite take_take. by replace (j `min` _) with j by lia.
      * simpl in Hpre. apply Forall_cons in Hpre as [Hd _].
        unfold offers in Hd. rewrite Hrep in Hd. congruence.
  - assert (search_domains AA_API_KEY a (d :: ds) q eT eA
            = search_domains AA_API_KEY a ds q eT eA) as Hstep.
    { simpl. unfold offers in Hoff. destruct (reply a d q) as [|rs]; [done|].
      apply (proj2 (first_match_None d _ _ _)) in Hoff. by rewrite Hoff. }
    simpl in Hstep. rewrite Hstep, IH. split.
    + intros (i & d' & rs & j & r & h & Hi & Hpre & Hrest).
      exists (S i), d', rs, j, r, h. split_and!; try done; try apply Hrest.
      simpl. by constructor.
    + intros ([|i] & d' & rs & j & r & h & Hi & Hpre & Hrep & Hlt & Hj & Hh
              & Hacc & Hnone & ->).
      * simplify_eq/=. unfold offers in Hoff. rewrite Hrep in Hoff.
        assert (existsb (acceptable eT eA) (take MAX_RESULTS_TO_CHECK rs) = true)
          as Hex; [|congruence].
        apply existsb_exists. exists r. split; [|done].
        apply list_elem_of_In, (list_elem_of_lookup_2 _ j).
        by apply lookup_take_Some.
      * simpl in Hpre. apply Forall_cons in Hpre as [_ Hpre].
        exists i, d', rs, j, r, h. by split_and!.
Qed.

Lemma wordless_unacceptable eT eA r :
  word_set eT = ∅ → acceptable eT eA r = false.
Proof.
  intros He. unfold acceptable. destruct (md5 r); [|done].
  apply not_true_is_false. rewrite isGoodMatch_spec.
  unfold titleScore_spec. rewrite decide_True by by left. intros [Hle _].
  by vm_compute in Hle.
Qed.

Lemma wordless_not_found a ds q eT eA :
  word_set eT = ∅ → search_domains AA_API_KEY a ds q eT eA = None.
Proof.
  intros He. apply search_domains_None, Forall_forall. intros d _.
  unfold offers. destruct (reply a d q) as [|rs]; [done|].
  apply not_true_is_false. intros (r & _ & Hr)%existsb_exists.
  by rewrite wordless_unacceptable in Hr.
Qed.
End SearchFacts.

(** X7: [findBookOnAnna] returns the address built from the first
    acceptable result (one with a hash that passes [isGoodMatch]) among the
    first five of the first mirror, in the order of [AA_DOMAINS], that
    offers one; it returns null exactly when no mirror offers one. Mirrors
    that fail, and results beyond the fifth, play no part. *)
Theorem X7_findBookOnAnna_takes_first_acceptable_result
    (key : option string) (a : Attempt) (query : string)
    (eT eA : option string) :
  (findBookOnAnna key a query eT eA = None
   ↔ ∀ d, d ∈ AA_DOMAINS → offers a query eT eA d = false)
  ∧ (∀ url,
       findBookOnAnna key a query eT eA = Some url
       ↔ ∃ i d rs j r h,
           AA_DOMAINS !! i = Some d
           ∧ (∀ i' d', i' < i → AA_DOMAINS !! i' = Some d' →
                       offers a query eT eA d' = false)
           ∧ reply a d query = Listing rs
           ∧ j < 5 ∧ rs !! j = Some r ∧ md5 r = Some h
           ∧ Match.isGoodMatch eT eA (Some (resultTitle r)) (Some (resultAuthor r))
             = true
           ∧ (∀ j' r', j' < j → rs !! j' = Some r' → acceptable eT eA r' = false)
           ∧ url = download_url key d h).
Proof.
  unfold findBookOnAnna. split.
  - rewrite search_domains_None. apply Forall_forall.
  - intros url. rewrite search_domains_Some.
    assert (∀ (j : nat) (rs : list SearchResult),
              existsb (acceptable eT eA) (take j rs) = false
              ↔ ∀ j' r', j' < j → rs !! j' = Some r' → acceptable eT eA r' = false)
      as Hnone.
    { intros j rs. split.
      - intros Hex j' r' Hlt Hj'. apply not_true_is_false. intros Hacc.
        assert (existsb (acceptable eT eA) (take j rs) = true); [|congruence].
        apply existsb_exists. exists r'. split; [|done].
        apply list_elem_of_In, (list_elem_of_lookup_2 _ j').
        by apply lookup_take_Some.
      - intros Hall. apply not_true_is_false.
        intros (r' & Hin & Hacc)%existsb_exists.
        apply list_elem_of_In, list_elem_of_lookup in Hin as [j' Hj'].
        apply lookup_take_Some in Hj' as [Hj' Hlt].
        rewrite (Hall j' r') in Hacc; done. }
    assert (∀ (i : nat),
              Forall (λ d', offers a query eT eA d' = false) (take i AA_DOMAINS)
              ↔ ∀ i' d', i' < i → AA_DOMAINS !! i' = Some d' →
                         offers a query eT eA d' = false) as Hpre.
    { intros i. rewrite Forall_lookup. split.
      - intros Hall i' d' Hlt Hi'. apply (Hall i'). by apply lookup_take_Some.
      - intros Hall i' d' [Hi' Hlt]%lookup_take_Some. by apply (Hall i'). }
    split.
    + intros (i & d & rs & j & r & h & Hi & Hp & Hrep & Hlt & Hj & Hh & Hacc
              & Hn & ->).
      exists i, d, rs, j, r, h. split_and!; try done.
      * by apply Hpre.
      * unfold acceptable in Hacc. by rewrite Hh in Hacc.
      * by apply Hnone.
    + intros (i & d & rs & j & r & h & Hi & Hp & Hrep & Hlt & Hj & Hh & Hacc
              & Hn & ->).
      exists i, d, rs, j, r, h. split_and!; try done.
      * by apply Hpre.
      * unfold acceptable. by rewrite Hh.
      * by apply Hnone.
Qed.

Lemma X7_witness :
  findBookOnAnna None Sample.barren "Dune Frank Herbert"
    (Some "Dune") (Some "Frank Herbert") = None.
Proof.
  apply (proj1 (X7_findBookOnAnna_takes_first_acceptable_result
                  None Sample.barren "Dune Frank Herbert"
                  (Some "Dune") (Some "Frank Herbert"))).
  intros d _. reflexivity.
Defined.

(** X8: a book whose title holds no word (after normalization) cannot be
    fetched: whatever the mirrors list, the attempt ends without a search
    term or without a match, and leaves files and log as they were. *)
Theorem X8_wordless_title_is_never_fetched
    (key : option string) (a : Attempt) (job : Db.Book) (us : list Db.User)
    (fs : Fs) (lg : list Event) :
  word_set (Db.title job) = ∅ →
  ∃ e, attempt key a job us fs lg = (fs, lg, Err e)
       ∧ (e = NoSearchTerm ∨ e = NotFound).
Proof.
  intros He. unfold attempt.
  destruct (String.eqb (searchTerm job) EmptyString); [by eexists; eauto|].
  unfold findBookOnAnna. rewrite wordless_not_found by done.
  by eexists; eauto.
Qed.

Lemma X8_witness :
  word_set (Db.title Shelf.untitled) = ∅
  ∧ ∃ e, attempt None Sample.smooth Shelf.untitled [Sample.alice] ∅ []
         = (∅, [], Err e)
         ∧ (e = NoSearchTerm ∨ e = NotFound).
Proof.
  assert (word_set (Db.title Shelf.untitled) = ∅) as He by reflexivity.
  split; [exact He|].
  exact (X8_wordless_title_is_never_fetched None Sample.smooth Shelf.untitled
           [Sample.alice] ∅ [] He).
Defined.

(** ** Further properties: addresses and paths *)

Section PathFacts.

Lemma append_assoc (s t u : string) : (s +:+ t) +:+ u = s +:+ (t +:+ u).
Proof. induction s as [|c s IH]; [done|]. by rewrite !append_cons, IH. Qed.

Lemma length_append (s t : string) :
  String.length (s +:+ t) = String.length s + String.length t.
Proof. induction s as [|c s IH]; [done|]. rewrite append_cons. simpl. lia. Qed.

Lemma append_cancel_r (s1 s2 t : string) : s1 +:+ t = s2 +:+ t → s1 = s2.
Proof.
  revert s2. induction s1 as [|c s1 IH]; intros [|c2 s2] H; [done|..].
  - apply (f_equal String.length) in H.
    rewrite append_empty_l, append_cons in H. simpl in H.
    rewrite length_append in H. lia.
  - apply (f_equal String.length) in H.
    rewrite append_empty_l, append_cons in H. simpl in H.
    rewrite length_append in H. lia.
  - rewrite !append_cons in H. injection H as -> H. f_equal. by apply IH.
Qed.

Lemma under_join (dir f : string) : under dir (join dir f) = true.
Proof.
  unfold under, join. apply prefix_spec. exists f. by rewrite append_assoc.
Qed.

Lemma join_not_under (dir p f : string) : under dir p = false → p ≠ join dir f.
Proof. intros Hp ->. by rewrite under_join in Hp. Qed.

Lemma all_chars_append (P : ascii → bool) (s t : string) :
  all_chars P (s +:+ t) = all_chars P s && all_chars P t.
Proof.
  induction s as [|c s IH]; [done|]. rewrite append_cons. simpl.
  by rewrite IH, andb_assoc.
Qed.

Lemma includes_needs_char (c : ascii) (hay needle : string) :
  all_chars (λ x, negb (Ascii.eqb x c)) needle = false →
  all_chars (λ x, negb (Ascii.eqb x c)) hay = true →
  Match.includes hay needle = false.
Proof.
  intros Hn Hh. apply not_true_is_false. intros (pre & post & ->)%includes_spec.
  rewrite !all_chars_append, !andb_true_iff in Hh. destruct Hh as (_ & Hh & _).
  congruence.
Qed.

Lemma hex_no_underscore (c : ascii) :
  is_hex c = true → negb (Ascii.eqb c "_") = true.
Proof. destruct c as [[] [] [] [] [] [] [] []]; vm_compute; done. Qed.

Lemma fast_download_with_key (key : option string) (d h : string) :
  Match.truthy key = true →
  Match.includes (download_url key d h) "/fast_download/" = true.
Proof.
  intros Hk. unfold download_url. rewrite Hk. apply includes_spec.
  exists ("https://" +:+ d), (h +:+ "/0/0?key=" +:+ default EmptyString key).
  by rewrite append_assoc.
Qed.

Lemma detail_page_without_key (key : option string) (d h : string) :
  Match.truthy key = false → d ∈ AA_DOMAINS → all_chars is_hex h = true →
  Match.includes (download_url key d h) "/fast_download/" = false.
Proof.
  intros Hk Hd Hh. unfold download_url. rewrite Hk.
  apply (includes_needs_char "_"); [reflexivity|].
  rewrite !all_chars_append, (all_chars_impl _ _ h hex_no_underscore Hh).
  unfold AA_DOMAINS in Hd.
  apply elem_of_cons in Hd as [->|Hd]; [reflexivity|].
  apply elem_of_cons in Hd as [->|Hd]; [reflexivity|].
  by apply elem_of_nil in Hd.
Qed.

Lemma downloadBook_frame (a : Attempt) (fs : Fs) (url : string) (job : Db.Book)
    (p : string) :
  under tempDir p = false → (downloadBook a fs url job).1 !! p = fs !! p.
Proof.
  intros Hp. unfold downloadBook.
  assert (∀ f, p ≠ join tempDir f) as Hne by (intros f; by apply join_not_under).
  destruct (Match.includes url "/fast_download/").
  - destruct (browser a) as [|file size]; [done|].
    destruct (size <? 1024)%N; simpl.
    + by rewrite lookup_delete_ne, lookup_insert_ne.
    + destruct (decide _); simpl.
      * by rewrite lookup_insert_ne.
      * by rewrite lookup_insert_ne, !lookup_delete_ne, ?lookup_insert_ne.
  - destruct (stream a) as [|ext size complete]; [done|].
    destruct complete; simpl.
    + destruct (size <? 1024)%N; simpl.
      * by rewrite lookup_delete_ne, lookup_insert_ne.
      * by rewrite lookup_insert_ne.
    + by rewrite lookup_insert_ne.
Qed.

Lemma downloadBook_temp_path (a : Attempt) (fs fs' : Fs) (url : string)
    (job : Db.Book) (path ext : string) :
  downloadBook a fs url job = (fs', Ok (path, ext)) →
  path = join tempDir (temp_name job +:+ ext).
Proof.
  unfold downloadBook. destruct (Match.includes url "/fast_download/").
  - destruct (browser a) as [|file size]; [done|].
    destruct (size <? 1024)%N; [done|]. destruct (decide _); by intros [= <- <- <-].
  - destruct (stream a) as [|e size complete]; [done|].
    destruct complete; simpl; [|done].
    destruct (size <? 1024)%N; [done|]. by intros [= <- <- <-].
Qed.
End PathFacts.

(** *** [path.join] on plain names *)

Section JoinFacts.

Lemma segments_from_slash acc a b :
  segments_from acc (a +:+ String "/" b) = segments_from acc a ++ segments b.
Proof.
  revert acc. induction a as [|c a IH]; intros acc; [done|].
  rewrite append_cons. cbn [segments_from]. destruct (Ascii.eqb c "/").
  - by rewrite IH.
  - apply IH.
Qed.

Lemma segments_from_plain acc f :
  slash_free f = true → segments_from acc f = [acc +:+ f].
Proof.
  unfold slash_free. revert acc. induction f as [|c f IH]; intros acc Hf.
  - by rewrite append_empty_r.
  - cbn [all_chars] in Hf. apply andb_true_iff in Hf as [Hc Hf].
    cbn [segments_from]. apply negb_true_iff in Hc. rewrite Hc, IH by done.
    f_equal. rewrite append_assoc. by rewrite append_cons, append_empty_l.
Qed.

Lemma push_segment_plain allow res f :
  plain f → push_segment allow res f = res ++ [f].
Proof.
  intros (H0 & H1 & H2 & _). unfold push_segment.
  apply String.eqb_neq in H0, H1, H2. by rewrite H0, H1, H2.
Qed.

Lemma concat_snoc (res : list string) (f : string) :
  String.concat "/" (res ++ [f])
  = match res with
    | [] => f
    | _ => String.concat "/" res +:+ "/" +:+ f
    end.
Proof.
  induction res as [|x res IH]; [done|].
  change (String.concat "/" ((x :: res) ++ [f]))
    with (String.concat "/" (x :: (res ++ [f]))).
  destruct res as [|y res]; [done|].
  change (String.concat "/" (x :: (y :: res) ++ [f]))
    with (x +:+ "/" +:+ String.concat "/" ((y :: res) ++ [f])).
  rewrite IH.
  change (String.concat "/" (x :: y :: res))
    with (x +:+ "/" +:+ String.concat "/" (y :: res)).
  by rewrite !append_assoc.
Qed.

Lemma ends_with_slash_append a f :
  f ≠ EmptyString → ends_with_slash (a +:+ f) = ends_with_slash f.
Proof.
  intros Hf. induction a as [|c a IH]; [done|]. rewrite append_cons.
  cbn [ends_with_slash]. destruct (a +:+ f) eqn:Heq; [|done].
  destruct a; [done|done].
Qed.

Lemma ends_with_slash_plain f : slash_free f = true → ends_with_slash f = false.
Proof.
  unfold slash_free. induction f as [|c f IH]; [done|]. cbn [all_chars].
  intros [Hc Hf]%andb_true_iff. cbn [ends_with_slash].
  destruct f; [by apply negb_true_iff|by apply IH].
Qed.

Lemma normalize_entry (dir f : string) (path : string) :
  plain f →
  path = match dir with EmptyString => f | _ => dir +:+ "/" +:+ f end →
  normalize path = folder dir +:+ f.
Proof.
  intros Hplain ->. pose proof Hplain as (H0 & H1 & H2 & Hns).
  destruct dir as [|c r].
  - destruct f as [|a f]; [done|].
    assert (Ascii.eqb a "/" = false) as Ha.
    { unfold slash_free in Hns. cbn [all_chars] in Hns. apply andb_true_iff in Hns as [Ha _].
      by apply negb_true_iff. }
    unfold normalize, normalizeString, segments. rewrite Ha.
    rewrite segments_from_plain by done. rewrite append_empty_l.
    cbn [foldl negb]. rewrite push_segment_plain by done.
    rewrite ends_with_slash_plain by done.
    change (String.concat "/" ([] ++ [String a f])) with (String a f).
    rewrite append_empty_r. reflexivity.
  - set (dir := String c r) in *.
    assert (String.prefix "/" dir = Ascii.eqb c "/") as Habs.
    { unfold dir. cbn [String.prefix].
      destruct (Ascii.eqb_spec c "/") as [->|Hne];
        destruct (ascii_dec "/" _); try congruence. by destruct r. }
    unfold folder. rewrite Habs.
    change (normalize (dir +:+ "/" +:+ f))
      with (let isAbsolute := Ascii.eqb c "/" in
            let p := normalizeString (dir +:+ "/" +:+ f) (negb isAbsolute) in
            if String.eqb p ""
            then (if isAbsolute then "/"
                  else if ends_with_slash (dir +:+ "/" +:+ f) then "./" else ".")
            else (if isAbsolute then "/" else "") +:+ p
                   +:+ (if ends_with_slash (dir +:+ "/" +:+ f) then "/" else "")).
    cbv zeta. unfold normalizeString, segments.
    change (dir +:+ "/" +:+ f) with (dir +:+ String "/" f).
    rewrite segments_from_slash, foldl_app.
    unfold segments. rewrite (segments_from_plain EmptyString f) by done.
    rewrite append_empty_l.
    cbn [foldl]. rewrite push_segment_plain by done.
    rewrite concat_snoc.
    assert (ends_with_slash (dir +:+ String "/" f) = false) as ->.
    { change (dir +:+ String "/" f) with (dir +:+ ("/" +:+ f)).
      rewrite <- append_assoc, ends_with_slash_append by done.
      by apply ends_with_slash_plain. }
    rewrite append_empty_r.
    destruct (foldl _ [] _) as [|x res].
    + destruct f; [done|]. by rewrite append_empty_r.
    + set (q := String.concat "/" (x :: res)).
      assert (String.eqb (q +:+ "/" +:+ f) "" = false) as ->.
      { apply String.eqb_neq. intros Heq%(f_equal String.length).
        rewrite !length_append in Heq. simpl in Heq. lia. }
      by rewrite !append_assoc.
Qed.

(** A plain name joined to a directory lies in that directory's folder. *)
Lemma path_join_plain (dir f : string) :
  plain f → path_join dir f = folder dir +:+ f.
Proof.
  intros Hplain. pose proof Hplain as (H0 & _).
  destruct f as [|a f]; [done|].
  destruct dir as [|c r]; by apply normalize_entry.
Qed.

(** On the temporary directory and a plain name, [join] is [path.join]. *)
Lemma join_tempDir (f : string) : plain f → path_join tempDir f = join tempDir f.
Proof. intros Hf. by rewrite path_join_plain. Qed.
End JoinFacts.

Section NameFacts.
Import Match.

Local Abbreviation no_dash := (all_chars (λ c, negb (Ascii.eqb c "-"))).

Lemma no_dash_remove_illegal s : no_dash (remove_illegal s) = no_dash s.
Proof.
  induction s as [|c r IH]; [done|]. cbn [remove_illegal all_chars].
  destruct (is_illegal c) eqn:Hc; cbn [all_chars]; rewrite IH; [|done].
  destruct (Ascii.eqb_spec c "-") as [->|]; [done|done].
Qed.

Lemma space_no_dash c : is_space c = true → negb (Ascii.eqb c "-") = true.
Proof. destruct (Ascii.eqb_spec c "-") as [->|]; [done|done]. Qed.

Lemma no_dash_collapse_from b s : no_dash (collapse_from b s) = no_dash s.
Proof.
  revert b. induction s as [|c r IH]; intros b; [done|].
  cbn [collapse_from all_chars]. destruct (is_space c) eqn:Hc.
  - rewrite (space_no_dash c Hc). destruct b; cbn [all_chars]; by rewrite IH.
  - cbn [all_chars]. by rewrite IH.
Qed.

Lemma no_dash_skip_spaces s : no_dash (skip_spaces s) = no_dash s.
Proof.
  induction s as [|c r IH]; [done|]. cbn [skip_spaces all_chars].
  destruct (is_space c) eqn:Hc; [|done]. by rewrite (space_no_dash c Hc), IH.
Qed.

Lemma no_dash_trim_end s : no_dash (trim_end s) = no_dash s.
Proof.
  induction s as [|c r IH]; [done|]. cbn [trim_end all_chars].
  destruct (is_space c) eqn:Hc; cbn [andb].
  - rewrite (space_no_dash c Hc). cbn [andb].
    destruct (String.eqb_spec (trim_end r) EmptyString) as [He|He].
    + by rewrite <- IH, He.
    + cbn [all_chars]. by rewrite (space_no_dash c Hc), IH.
  - cbn [all_chars]. by rewrite IH.
Qed.

Lemma substring_whole_or_full n s :
  substring 0 n s = s ∨ String.length (substring 0 n s) = n.
Proof.
  revert n. induction s as [|c r IH]; intros [|n]; simpl; auto.
  destruct (IH n) as [->| ->]; auto.
Qed.

(** A sanitized author-title name holds the dash that separates author
    and title, unless it was cut at 200 characters. *)
Lemma temp_name_dash job :
  no_dash (temp_name job) = false ∨ String.length (temp_name job) = 200.
Proof.
  unfold temp_name, sanitizeFilename.
  set (raw := (_ ++ " - " ++ _)%string).
  destruct (substring_whole_or_full 200 (trim (collapse_ws (remove_illegal raw))))
    as [->|Hlen]; [left|by right].
  unfold trim, collapse_ws.
  rewrite no_dash_trim_end, no_dash_skip_spaces, no_dash_collapse_from,
    no_dash_remove_illegal.
  unfold raw. rewrite all_chars_append. simpl. apply andb_false_r.
Qed.

Lemma sanitizeFilename_legal name :
  all_chars (λ c, negb (is_illegal c)) (sanitizeFilename name) = true.
Proof.
  unfold sanitizeFilename, trim, collapse_ws.
  apply all_chars_substring, trim_end_chars, skip_spaces_chars,
    collapse_from_chars, remove_illegal_chars. reflexivity.
Qed.

(** With an extension that holds no slash, the delivered file name is a
    plain name. *)
Lemma filename_plain job ext :
  slash_free ext = true → plain (temp_name job +:+ ext).
Proof.
  intros Hext.
  assert (slash_free (temp_name job +:+ ext) = true) as Hns.
  { unfold slash_free in *. rewrite all_chars_append, Hext, andb_true_r.
    apply (all_chars_impl (λ c, negb (is_illegal c))); [|apply sanitizeFilename_legal].
    intros c Hc. destruct (Ascii.eqb_spec c "/") as [->|]; [done|done]. }
  assert (no_dash (temp_name job +:+ ext) = false
          ∨ 200 ≤ String.length (temp_name job +:+ ext)) as Hbig.
  { destruct (temp_name_dash job) as [Hd|Hl].
    - left. by rewrite all_chars_append, Hd.
    - right. rewrite length_append. lia. }
  split_and!; [| | |done]; intros Heq; rewrite Heq in Hbig;
    destruct Hbig as [Hd|Hl]; try done; simpl in Hl; lia.
Qed.




End NameFacts.

(** X9: the API key decides how a found book is fetched. An address
    returned by [findBookOnAnna] holds [/fast_download/] exactly when the
    key is set (the hashes being hexadecimal, as the pattern that extracts
    them ensures); so with a key [downloadBook] goes through the browser
    and the HTTP stream plays no part, and without a key it is the other
    way round. *)
Theorem X9_api_key_selects_download_path
    (key : option string) (a : Attempt) (query : string)
    (eT eA : option string) (url : string) :
  findBookOnAnna key a query eT eA = Some url →
  (∀ d rs r h, reply a d query = Listing rs → r ∈ rs → md5 r = Some h →
               all_chars is_hex h = true) →
  Match.includes url "/fast_download/" = Match.truthy key
  ∧ ∀ a' fs job,
      (if Match.truthy key then browser a' = browser a
       else stream a' = stream a) →
      downloadBook a' fs url job = downloadBook a fs url job.
Proof.
  intros Hfind Hhex. unfold findBookOnAnna in Hfind.
  apply search_domains_Some in Hfind
    as (i & d & rs & j & r & h & Hi & _ & Hrep & _ & Hj & Hh & _ & _ & ->).
  assert (Match.includes (download_url key d h) "/fast_download/"
          = Match.truthy key) as Hinc.
  { destruct (Match.truthy key) eqn:Hk.
    - by apply fast_download_with_key.
    - apply detail_page_without_key; [done| |].
      + by eapply list_elem_of_lookup_2.
      + eapply Hhex; [done| |done]. by eapply list_elem_of_lookup_2. }
  split; [done|]. intros a' fs job Hsame. unfold downloadBook.
  rewrite Hinc. destruct (Match.truthy key); by rewrite Hsame.
Qed.

Lemma X9_witness :
  ∃ url, findBookOnAnna None Sample.smooth "Dune Frank Herbert"
           (Some "Dune") (Some "Frank Herbert") = Some url
         ∧ Match.includes url "/fast_download/" = false.
Proof.
  eexists. split; [reflexivity|].
  refine (proj1 (X9_api_key_selects_download_path None Sample.smooth
                   "Dune Frank Herbert" (Some "Dune") (Some "Frank Herbert")
                   _ eq_refl _)).
  intros d rs r h Hrep Hr Hh. simpl in Hrep.
  destruct (String.eqb d "annas-archive.gl"); [|discriminate].
  injection Hrep as <-. apply list_elem_of_singleton in Hr as ->.
  injection Hh as <-. reflexivity.
Defined.

(** X10: [downloadBook] writes inside the temporary directory only:
    whatever the outcome, every path outside [tempDir] holds after the call
    what it held before. *)
Theorem X10_downloadBook_touches_only_tempDir
    (a : Attempt) (fs : Fs) (url : string) (job : Db.Book) (p : string) :
  under tempDir p = false →
  (downloadBook a fs url job).1 !! p = fs !! p.
Proof. apply downloadBook_frame. Qed.

Lemma X10_witness :
  (downloadBook Sample.smooth {[ "/downloads/Alice/Dune.epub" := 7%N ]}
     "https://annas-archive.gl/md5/d41d8cd98f00b204e9800998ecf8427e"
     Sample.dune).1 !! "/downloads/Alice/Dune.epub" = Some 7%N.
Proof.
  rewrite (X10_downloadBook_touches_only_tempDir Sample.smooth
             {[ "/downloads/Alice/Dune.epub" := 7%N ]}
             "https://annas-archive.gl/md5/d41d8cd98f00b204e9800998ecf8427e"
             Sample.dune "/downloads/Alice/Dune.epub" eq_refl).
  reflexivity.
Defined.

(** ** Further properties: delivery *)

Section DeliveryFacts.
Variable AA_API_KEY : option string.


Lemma copy_to_users_keeps a tempPath filename us fs lg size q :
  fs !! tempPath = Some size → fs !! q = Some size →
  (copy_to_users a tempPath filename us fs lg).1.1 !! q = Some size.
Proof.
  revert fs lg. induction us as [|u us IH]; intros fs lg Ht Hq; simpl; [done|].
  rewrite Ht. destruct (copy_ok a (Db.user_rowid u)); [|done].
  apply IH.
  - destruct (decide (path_join (Db.download_path u) filename = tempPath)) as [->|Hne].
    + by rewrite lookup_insert_eq.
    + by rewrite lookup_insert_ne.
  - destruct (decide (path_join (Db.download_path u) filename = q)) as [->|Hne].
    + by rewrite lookup_insert_eq.
    + by rewrite lookup_insert_ne.
Qed.

Lemma copy_to_users_log a tempPath filename us fs lg e :
  e ∈ lg → e ∈ (copy_to_users a tempPath filename us fs lg).1.2.
Proof.
  revert fs lg. induction us as [|u us IH]; intros fs lg He; simpl; [done|].
  destruct (fs !! tempPath) as [size|]; [|done].
  destruct (copy_ok a (Db.user_rowid u)); [|done].
  apply IH, elem_of_app. by left.
Qed.

Lemma copy_to_users_Ok a tempPath filename us fs lg size fs' lg' :
  fs !! tempPath = Some size →
  copy_to_users a tempPath filename us fs lg = (fs', lg', Ok tt) →
  fs' !! tempPath = Some size
  ∧ ∀ u, u ∈ us →
      copy_ok a (Db.user_rowid u) = true
      ∧ fs' !! path_join (Db.download_path u) filename = Some size
      ∧ LogSaved (path_join (Db.download_path u) filename) (Db.user_rowid u) ∈ lg'.
Proof.
  intros Ht Hcopy. split.
  { pose proof (copy_to_users_keeps a tempPath filename us fs lg size tempPath Ht Ht)
      as H. by rewrite Hcopy in H. }
  revert fs lg Ht Hcopy. induction us as [|u us IH]; intros fs lg Ht Hcopy v Hv.
  { by apply elem_of_nil in Hv. }
  simpl in Hcopy. rewrite Ht in Hcopy.
  destruct (copy_ok a (Db.user_rowid u)) eqn:Hok; [|done].
  set (dest := path_join (Db.download_path u) filename) in *.
  assert (<[dest := size]> fs !! tempPath = Some size) as Ht'.
  { destruct (decide (dest = tempPath)) as [->|Hne].
    - by rewrite lookup_insert_eq.
    - by rewrite lookup_insert_ne. }
  apply elem_of_cons in Hv as [->|Hv]; [|by eapply IH].
  split_and!; [done|..].
  - pose proof (copy_to_users_keeps a tempPath filename us (<[dest := size]> fs)
                  (lg ++ [LogSaved dest (Db.user_rowid u)]) size dest Ht'
                  (lookup_insert_eq _ _ _)) as H.
    by rewrite Hcopy in H.
  - pose proof (copy_to_users_log a tempPath filename us (<[dest := size]> fs)
                  (lg ++ [LogSaved dest (Db.user_rowid u)])
                  (LogSaved dest (Db.user_rowid u))) as H.
    rewrite Hcopy in H. apply H, elem_of_app. right. apply list_elem_of_here.
Qed.


Lemma attempt_Ok a job us fs lg fs' lg' fn :
  attempt AA_API_KEY a job us fs lg = (fs', lg', Ok fn) →
  ∃ ext size,
    fn = temp_name job +:+ ext ∧ (1024 ≤ size)%N
    ∧ (∀ u, u ∈ us →
         copy_ok a (Db.user_rowid u) = true
         ∧ LogSaved (path_join (Db.download_path u) fn) (Db.user_rowid u) ∈ lg'
         ∧ (path_join (Db.download_path u) fn ≠ join tempDir fn
            ∨ unlink_ok a = false →
            fs' !! path_join (Db.download_path u) fn = Some size)
         ∧ (slash_free ext = true →
            path_join (Db.download_path u) fn
            = folder (Db.download_path u) +:+ fn))
    ∧ fs' !! join tempDir fn = (if unlink_ok a then None else Some size).
Proof.
  unfold attempt.
  destruct (String.eqb (searchTerm job) EmptyString); [done|].
  destruct (findBookOnAnna _ _ _ _ _) as [url|]; [|done].
  destruct (downloadBook a fs url job) as [fs1 [[tempPath ext]|e]] eqn:Hd; [|done].
  pose proof (downloadBook_temp_path _ _ _ _ _ _ _ Hd) as ->.
  apply downloadBook_Ok in Hd as (size & Hsize & Hbig).
  set (fname := temp_name job +:+ ext) in *.
  destruct (copy_to_users _ _ _ _ _ _) as [[fs2 lg2] [[]|e]] eqn:Hcp; [|done].
  apply (copy_to_users_Ok _ _ _ _ _ _ size) in Hcp as [Ht Hall]; [|done].
  destruct (unlink_ok a) eqn:Hun; intros [= <- <- <-].
  - exists ext, size. split_and!; [done..| |].
    + intros u Hu. destruct (Hall u Hu) as (Hok & Hfile & Hlog).
      split_and!; [done..| |].
      * intros [Hne|?]; [|done].
        rewrite lookup_delete_ne; [done|]. by apply not_eq_sym.
      * intros Hext. by apply path_join_plain, filename_plain.
    + by rewrite lookup_delete_eq.
  - exists ext, size. split_and!; [done..| |done].
    intros u Hu. destruct (Hall u Hu) as (Hok & Hfile & Hlog).
    split_and!; [done| |done|].
    + apply elem_of_app. by left.
    + intros Hext. by apply path_join_plain, filename_plain.
Qed.
End DeliveryFacts.

(** X11: when an attempt succeeds, the file has at least 1024 bytes and
    bears the sanitized name with the extension of the download; every
    eligible user has been served: the copy for that user went through, is
    logged with its destination [path.join(user.download_path, filename)],
    and lies at that destination (unless the destination is the temporary
    file itself and the clean-up removed it); when the extension holds no
    slash, the destination is the file name right inside the user's
    normalized folder; and the temporary file is gone, or still there when
    the clean-up failed. *)
Theorem X11_success_delivers_to_every_eligible_user
    (key : option string) (a : Attempt) (job : Db.Book) (us : list Db.User)
    (fs fs' : Fs) (lg lg' : list Event) (fn : string) :
  attempt key a job us fs lg = (fs', lg', Ok fn) →
  ∃ ext size,
    fn = temp_name job +:+ ext ∧ (1024 ≤ size)%N
    ∧ (∀ u, u ∈ us →
         copy_ok a (Db.user_rowid u) = true
         ∧ LogSaved (path_join (Db.download_path u) fn) (Db.user_rowid u) ∈ lg'
         ∧ (path_join (Db.download_path u) fn ≠ join tempDir fn
            ∨ unlink_ok a = false →
            fs' !! path_join (Db.download_path u) fn = Some size)
         ∧ (slash_free ext = true →
            path_join (Db.download_path u) fn
            = folder (Db.download_path u) +:+ fn))
    ∧ fs' !! join tempDir fn = (if unlink_ok a then None else Some size).
Proof. apply attempt_Ok. Qed.

Lemma X11_witness :
  ∃ size, (1024 ≤ size)%N
    ∧ (attempt None Sample.smooth Sample.dune [Sample.alice; Shelf.carol] ∅ []).1.1
        !! "/downloads/Carol/Frank Herbert - Dune (Dune, #1).epub" = Some size.
Proof.
  destruct (attempt None Sample.smooth Sample.dune [Sample.alice; Shelf.carol] ∅ [])
    as [[fs' lg'] r] eqn:Hatt.
  assert (r = Ok "Frank Herbert - Dune (Dune, #1).epub") as ->.
  { apply (f_equal snd) in Hatt. vm_compute in Hatt. congruence. }
  destruct (X11_success_delivers_to_every_eligible_user _ _ _ _ _ _ _ _ _ Hatt)
    as (ext & size & Hfn & Hbig & Hall & _).
  exists size. split; [exact Hbig|].
  destruct (Hall Shelf.carol) as (_ & _ & Hfile & _).
  { apply list_elem_of_further, list_elem_of_here. }
  apply Hfile. left. vm_compute. discriminate.
Defined.

(** ** Further properties: the queue as a whole *)

Section CycleFacts.
Variable MAX_DOWNLOADS_PER_DAY : nat.
Variable MAX_DOWNLOADS_PER_USER_PER_DAY : nat.
Variable AA_API_KEY : option string.

Local Abbreviation pass :=
  (iteration MAX_DOWNLOADS_PER_DAY MAX_DOWNLOADS_PER_USER_PER_DAY AA_API_KEY).
Local Abbreviation passes :=
  (run MAX_DOWNLOADS_PER_DAY MAX_DOWNLOADS_PER_USER_PER_DAY AA_API_KEY).
Local Abbreviation whole :=
  (processQueue MAX_DOWNLOADS_PER_DAY MAX_DOWNLOADS_PER_USER_PER_DAY AA_API_KEY).

(** The paths through one pass of the loop. *)
Ltac paths a l :=
  unfold iteration; cbv zeta;
  destruct (decide (MAX_DOWNLOADS_PER_DAY ≤ Db.countDownloadsToday (clock l) (store l)))
    as [Hcap|Hcap];
  [| destruct (Db.nextPending MAX_ATTEMPTS (skippedBookIds l) (store l))
       as [job|] eqn:Hjob;
     [ destruct (eligible l job) as [|u0 us] eqn:Helig;
       [| destruct (attempt AA_API_KEY a job (u0 :: us) (files l) (log l))
            as [[fs lg] [fn|e]] eqn:Hatt ]
     | ] ].

(** What every pass preserves, the loop preserves. *)
Lemma run_invariant_in (I : Loop → Prop) env fuel l l' :
  (∀ i l, I l → I (state_of (pass (env i) l))) →
  I l → passes fuel env l = Some l' → I l'.
Proof.
  intros Hstep. revert l. induction fuel as [|fuel IH]; intros l Hl Hrun; [done|].
  simpl in Hrun. specialize (Hstep (processed l) l Hl).
  destruct (pass (env (processed l)) l) as [l1|l1]; simpl in Hstep.
  - by apply (IH l1).
  - by injection Hrun as <-.
Qed.

Lemma run_invariant (I : Loop → Prop) env fuel l l' :
  (∀ a l, I l → I (state_of (pass a l))) →
  I l → passes fuel env l = Some l' → I l'.
Proof. intros Hstep. apply run_invariant_in. intros i. apply Hstep. Qed.

Lemma processQueue_invariant_in (I : Loop → Prop) env st fs now :
  (∀ i l, I l → I (state_of (pass (env i) l))) →
  I (start MAX_DOWNLOADS_PER_USER_PER_DAY st fs now) → I (idle st fs now) →
  ∃ l', whole env st fs now = Some l' ∧ I l'.
Proof.
  intros Hstep Hstart Hidle.
  destruct (processQueue_returns MAX_DOWNLOADS_PER_DAY
              MAX_DOWNLOADS_PER_USER_PER_DAY AA_API_KEY env st fs now)
    as [l' Hl'].
  exists l'. split; [done|]. unfold processQueue in Hl'.
  destruct (decide _); [by injection Hl' as <-|].
  exact (run_invariant_in I env _ _ l' Hstep Hstart Hl').
Qed.

Lemma processQueue_invariant (I : Loop → Prop) env st fs now :
  (∀ a l, I l → I (state_of (pass a l))) →
  I (start MAX_DOWNLOADS_PER_USER_PER_DAY st fs now) → I (idle st fs now) →
  ∃ l', whole env st fs now = Some l' ∧ I l'.
Proof. intros Hstep. apply processQueue_invariant_in. intros i. apply Hstep. Qed.

Lemma eligible_users l job u : u ∈ eligible l job → u ∈ Db.users (store l).
Proof.
  unfold eligible, Db.getUsersForBook.
  intros [_ Hu]%list_elem_of_filter.
  apply list_elem_of_bind in Hu as (v & Hu & Hv).
  apply list_elem_of_bind in Hu as (k & Hu & _).
  by apply list_elem_of_singleton in Hu as ->.
Qed.

(** *** Frame *)

Lemma iteration_users a l :
  Db.users (store (state_of (pass a l))) = Db.users (store l)
  ∧ Db.user_books (store (state_of (pass a l))) = Db.user_books (store l)
  ∧ Db.book_seq (store (state_of (pass a l))) = Db.book_seq (store l).
Proof. paths a l; simpl; try done. by case_bool_decide. Qed.




Lemma same_book_refl b : same_book b b.
Proof. by unfold same_book. Qed.

Lemma same_book_trans b1 b2 b3 : same_book b1 b2 → same_book b2 b3 → same_book b1 b3.
Proof.
  unfold same_book. intros (? & ? & ? & ? & ? & ?) (? & ? & ? & ? & ? & ?).
  split_and!; congruence.
Qed.

Lemma iteration_same_book a l :
  Forall2 same_book (Db.books (store l)) (Db.books (store (state_of (pass a l)))).
Proof.
  assert (∀ l : list Db.Book, Forall2 same_book l l) as Hrefl.
  { intros k. apply Forall_Forall2_diag, Forall_forall. intros. apply same_book_refl. }
  paths a l; simpl; try apply Hrefl.
  - apply Forall2_fmap_r, Forall2_fmap_r, Forall_Forall2_diag, Forall_forall.
    intros b _. simpl. by repeat destruct (decide _).
  - case_bool_decide; simpl.
    + apply Forall2_fmap_r, Forall2_fmap_r, Forall_Forall2_diag, Forall_forall.
      intros b _. simpl. by repeat destruct (decide _).
    + apply Forall2_fmap_r, Forall_Forall2_diag, Forall_forall.
      intros b _. simpl. by repeat destruct (decide _).
Qed.

(** *** Counters *)

Lemma iteration_counters a l :
  processed l = succeeded l + failed l
  ∧ skippedLimit l = length (skippedBookIds l)
  ∧ NoDup (skippedBookIds l) →
  processed (state_of (pass a l))
  = succeeded (state_of (pass a l)) + failed (state_of (pass a l))
  ∧ skippedLimit (state_of (pass a l)) = length (skippedBookIds (state_of (pass a l)))
  ∧ NoDup (skippedBookIds (state_of (pass a l))).
Proof.
  intros (Hp & Hs & Hnd). paths a l; simpl; split_and!; try done; try lia.
  - rewrite length_app. simpl. lia.
  - apply nextPending_Some in Hjob as (_ & (_ & _ & Hex) & _).
    apply NoDup_app. split_and!; [done| |apply NoDup_singleton].
    intros x Hx ->%list_elem_of_singleton. done.
Qed.

Lemma iteration_work a l :
  processed (state_of (pass a l)) + skippedLimit (state_of (pass a l))
  + budget (state_of (pass a l))
  ≤ processed l + skippedLimit l + budget l.
Proof.
  destruct (pass a l) as [l'|l'] eqn:Hit; simpl.
  - pose proof (iteration_budget _ _ _ _ _ _ Hit) as Hlt.
    enough (processed l' + skippedLimit l' = S (processed l + skippedLimit l)) by lia.
    revert Hit. paths a l; intros [= <-]; simpl; lia.
  - revert Hit. paths a l; intros [= <-]; simpl; done.
Qed.

Lemma budget_start st fs now :
  budget (start MAX_DOWNLOADS_PER_USER_PER_DAY st fs now) ≤ attempts_left st.
Proof.
  unfold budget, attempts_left. simpl. apply sum_list_fmap_le. intros b _.
  unfold weight, Db.selectable. destruct (decide (_ ∧ _)) as [[Hp _]|_]; [|lia].
  by rewrite decide_True.
Qed.

Lemma attempts_left_bound st :
  attempts_left st
  ≤ MAX_ATTEMPTS * length (filter (λ b, Db.status b = Db.pending) (Db.books st)).
Proof.
  unfold attempts_left, MAX_ATTEMPTS.
  induction (Db.books st) as [|b l IH]; [simpl; lia|].
  rewrite fmap_cons, filter_cons.
  change (sum_list (?x :: ?k)) with (x + sum_list k).
  destruct (decide (Db.status b = Db.pending)); [rewrite length_cons|]; lia.
Qed.
End CycleFacts.



(** X13: [processQueue] changes nothing in the store but the status,
    attempts, file path and timestamps of book rows: users, links and the
    row counter are as before, no row is added or removed, and every row
    keeps its id, dedup key, isbn, title, author and [added_at]. *)
Theorem X13_processQueue_leaves_the_catalog_data_alone
    (cap capU : nat) (key : option string) (env : nat → Attempt)
    (st : Db.Store) (fs : Fs) (now : N) :
  ∃ l', processQueue cap capU key env st fs now = Some l'
        ∧ Db.users (store l') = Db.users st
        ∧ Db.user_books (store l') = Db.user_books st
        ∧ Db.book_seq (store l') = Db.book_seq st
        ∧ length (Db.books (store l')) = length (Db.books st)
        ∧ Forall2 same_book (Db.books st) (Db.books (store l')).
Proof.
  assert (∀ l : list Db.Book, Forall2 same_book l l) as Hrefl.
  { intros k. apply Forall_Forall2_diag, Forall_forall. intros. apply same_book_refl. }
  destruct (processQueue_invariant cap capU key
              (λ l, Db.users (store l) = Db.users st
                    ∧ Db.user_books (store l) = Db.user_books st
                    ∧ Db.book_seq (store l) = Db.book_seq st
                    ∧ Forall2 same_book (Db.books st) (Db.books (store l)))
              env st fs now) as (l' & Hl' & Hu & Hk & Hs & Hb).
  - intros a l (Hu & Hk & Hs & Hb).
    destruct (iteration_users cap capU key a l) as (-> & -> & ->).
    split_and!; [done..|].
    eapply Forall2_trans; [|done|apply iteration_same_book].
    intros ???. apply same_book_trans.
  - by split_and!.
  - by split_and!.
  - exists l'. split_and!; [done..| |done]. symmetry. by eapply Forall2_length.
Qed.

(** X14: the report of a cycle adds up, and its work is bounded:
    [processQueue] returns with processed = succeeded + failed, the skip
    counter equal to the number of excluded ids, no id excluded twice, and
    attempts and skips together no more than the attempts the pending rows
    had left, hence no more than [MAX_ATTEMPTS] per pending row. *)
Theorem X14_cycle_report_adds_up_and_work_is_bounded
    (cap capU : nat) (key : option string) (env : nat → Attempt)
    (st : Db.Store) (fs : Fs) (now : N) :
  ∃ l', processQueue cap capU key env st fs now = Some l'
        ∧ processed l' = succeeded l' + failed l'
        ∧ skippedLimit l' = length (skippedBookIds l')
        ∧ NoDup (skippedBookIds l')
        ∧ processed l' + skippedLimit l' ≤ attempts_left st
        ∧ attempts_left st
          ≤ MAX_ATTEMPTS
            * length (filter (λ b, Db.status b = Db.pending) (Db.books st)).
Proof.
  destruct (processQueue_invariant cap capU key
              (λ l, (processed l = succeeded l + failed l
                     ∧ skippedLimit l = length (skippedBookIds l)
                     ∧ NoDup (skippedBookIds l))
                    ∧ processed l + skippedLimit l + budget l ≤ attempts_left st)
              env st fs now) as (l' & Hl' & (Hp & Hs & Hnd) & Hw).
  - intros a l [Hc Hw]. split; [by apply iteration_counters|].
    pose proof (iteration_work cap capU key a l). lia.
  - split; [simpl; split_and!; [done..|apply NoDup_nil_2]|].
    pose proof (budget_start capU st fs now). simpl in *. lia.
  - split; [simpl; split_and!; [done..|apply NoDup_nil_2]|].
    simpl. unfold budget. simpl. 
    pose proof (budget_start capU st fs now) as H. unfold budget in H.
    simpl in *. lia.
  - exists l'. split_and!; [done..|lia|apply attempts_left_bound].
Qed.

Section CycleRows.
Variable MAX_DOWNLOADS_PER_DAY : nat.
Variable MAX_DOWNLOADS_PER_USER_PER_DAY : nat.
Variable AA_API_KEY : option string.

Local Abbreviation pass :=
  (iteration MAX_DOWNLOADS_PER_DAY MAX_DOWNLOADS_PER_USER_PER_DAY AA_API_KEY).
Local Abbreviation whole :=
  (processQueue MAX_DOWNLOADS_PER_DAY MAX_DOWNLOADS_PER_USER_PER_DAY AA_API_KEY).

Ltac paths a l :=
  unfold iteration; cbv zeta;
  destruct (decide (MAX_DOWNLOADS_PER_DAY ≤ Db.countDownloadsToday (clock l) (store l)))
    as [Hcap|Hcap];
  [| destruct (Db.nextPending MAX_ATTEMPTS (skippedBookIds l) (store l))
       as [job|] eqn:Hjob;
     [ destruct (eligible l job) as [|u0 us] eqn:Helig;
       [| destruct (attempt AA_API_KEY a job (u0 :: us) (files l) (log l))
            as [[fs lg] [fn|e]] eqn:Hatt ]
     | ] ].

Lemma iteration_unique a l :
  unique_rowids (store l) → unique_rowids (store (state_of (pass a l))).
Proof.
  intros Hnd. unfold unique_rowids.
  by rewrite (Forall2_evolves_rowids _ _
                (iteration_evolves MAX_DOWNLOADS_PER_DAY
                   MAX_DOWNLOADS_PER_USER_PER_DAY AA_API_KEY a l Hnd)).
Qed.

(** One pass seen from a single row. *)
Lemma iteration_row a l idx b :
  unique_rowids (store l) → Db.books (store l) !! idx = Some b →
  ∃ b', Db.books (store (state_of (pass a l))) !! idx = Some b'
        ∧ row_step AA_API_KEY a l (state_of (pass a l)) b b'.
Proof.
  intros Hnd Hb. unfold row_step.
  paths a l; simpl; try (exists b; split; [done|split; [lia|by left]]).
  - (* success *)
    rewrite !list_lookup_fmap, Hb. simpl. eexists. split; [done|].
    split; [lia|].
    apply nextPending_Some in Hjob as Hsel. destruct Hsel as (Hin & _).
    destruct (decide (Db.rowid b = Db.rowid job)) as [Hid|Hid]; simpl.
    + assert (b = job) as ->.
      { eapply same_rowid_same_row; [exact Hnd| |done..].
        by eapply list_elem_of_lookup_2. }
      rewrite decide_True by done. right. rewrite Helig.
      split_and!; [done..|]. left. by exists fs, lg, fn.
    + rewrite decide_False by done. by left.
  - (* failure *)
    apply nextPending_Some in Hjob as Hsel. destruct Hsel as (Hin & _).
    case_bool_decide as Hex; simpl.
    + rewrite !list_lookup_fmap, Hb. simpl. eexists. split; [done|].
      split; [lia|].
      destruct (decide (Db.rowid b = Db.rowid job)) as [Hid|Hid]; simpl.
      * assert (b = job) as ->.
        { eapply same_rowid_same_row; [exact Hnd| |done..].
          by eapply list_elem_of_lookup_2. }
        rewrite decide_True by done. right. rewrite Helig.
        split_and!; [done..|]. right. exists fs, lg, e.
        by rewrite bool_decide_true.
      * rewrite decide_False by done. by left.
    + rewrite !list_lookup_fmap, Hb. simpl. eexists. split; [done|].
      split; [lia|].
      destruct (decide (Db.rowid b = Db.rowid job)) as [Hid|Hid]; simpl.
      * assert (b = job) as ->.
        { eapply same_rowid_same_row; [exact Hnd| |done..].
          by eapply list_elem_of_lookup_2. }
        right. rewrite Helig.
        split_and!; [done..|]. right. exists fs, lg, e.
        by rewrite bool_decide_false.
      * by left.
Qed.

(** The rows of the start keep their places over the whole cycle, and a
    relation that holds of a row and itself and that every step extends
    holds between the row at the start and the row at the end. *)
Lemma processQueue_rows (R : Loop → Db.Book → Db.Book → Prop) env st fs now :
  unique_rowids st →
  (∀ l b, R l b b) →
  (∀ a l l' b b1 b2, (now ≤ clock l)%N → R l b b1 →
                     row_step AA_API_KEY a l l' b1 b2 → R l' b b2) →
  ∃ l', whole env st fs now = Some l'
        ∧ (now ≤ clock l')%N
        ∧ ∀ idx b, Db.books st !! idx = Some b →
            ∃ b', Db.books (store l') !! idx = Some b' ∧ R l' b b'.
Proof.
  intros Hnd Hrefl Hstep.
  destruct (processQueue_invariant MAX_DOWNLOADS_PER_DAY
              MAX_DOWNLOADS_PER_USER_PER_DAY AA_API_KEY
              (λ l, unique_rowids (store l) ∧ (now ≤ clock l)%N
                    ∧ ∀ idx b, Db.books st !! idx = Some b →
                        ∃ b', Db.books (store l) !! idx = Some b' ∧ R l b b')
              env st fs now) as (l' & Hl' & _ & Hrows); [| | |by exists l'].
  - intros a l (Hu & Hclock & Hrows).
    assert (clock l ≤ clock (state_of (pass a l)))%N as Hmono.
    { unfold iteration. cbv zeta. repeat case_match; simpl; lia. }
    split_and!; [by apply iteration_unique|lia|].
    intros idx b Hb. destruct (Hrows idx b Hb) as (b1 & Hb1 & HR).
    destruct (iteration_row a l idx b1 Hu Hb1) as (b2 & Hb2 & Hrs).
    exists b2. split; [done|]. by eapply Hstep.
  - split_and!; [done|simpl; lia|]. intros idx b Hb. exists b. split; [done|]. apply Hrefl.
  - split_and!; [done|simpl; lia|]. intros idx b Hb. exists b. split; [done|]. apply Hrefl.
Qed.
End CycleRows.

Section CycleOutcomes.
Variable AA_API_KEY : option string.

Lemma attempt_needs_words a job us fs lg fs' lg' fn :
  attempt AA_API_KEY a job us fs lg = (fs', lg', Ok fn) →
  word_set (Db.title job) ≠ ∅.
Proof.
  intros Hatt He. unfold attempt in Hatt.
  destruct (String.eqb (searchTerm job) EmptyString); [done|].
  unfold findBookOnAnna in Hatt. by rewrite wordless_not_found in Hatt.
Qed.

Lemma temp_name_same b b' :
  Db.title b' = Db.title b → Db.author b' = Db.author b →
  temp_name b' = temp_name b.
Proof. unfold temp_name. by intros -> ->. Qed.

Lemma selected_is_pending l b :
  Db.nextPending MAX_ATTEMPTS (skippedBookIds l) (store l) = Some b →
  Db.status b = Db.pending.
Proof. by intros (_ & (? & _) & _)%nextPending_Some. Qed.

Lemma cycle_outcome_step now a l l' b b1 b2 :
  (now ≤ clock l)%N → cycle_outcome now l b b1 →
  row_step AA_API_KEY a l l' b1 b2 → cycle_outcome now l' b b2.
Proof.
  intros Hnow Hout [Hclock Hstep]. unfold cycle_outcome in *.
  destruct Hstep as [->|(Hsel & _ & Hcl & Hstep)].
  { destruct Hout as [->|(Hp & Ht & Ha & Hlt & Hout)]; [by left|].
    right. split_and!; [done..|].
    destruct Hout as [?|(Hd & t & ext & ? & ? & ? & ? & ?)]; [by left|].
    right. split; [done|]. exists t, ext. split_and!; [done..|lia|done]. }
  apply selected_is_pending in Hsel.
  assert (Db.status b = Db.pending ∧ Db.title b1 = Db.title b
          ∧ Db.author b1 = Db.author b ∧ Db.attempts b ≤ Db.attempts b1
          ∧ Db.downloaded_at b1 = Db.downloaded_at b
          ∧ Db.file_path b1 = Db.file_path b)
    as (Hp & Ht & Ha & Hle & Hda & Hfp).
  { destruct Hout as [->|(Hp & Ht & Ha & Hlt & Hout)]; [done|].
    destruct Hout as [(_ & ? & ?)|(Hd & _)]; [|congruence].
    split_and!; [done..|lia|done|done]. }
  right. destruct Hstep as [(fs & lg & fn & Hatt & ->)|(fs & lg & e & Hatt & ->)].
  - simpl. split_and!; [done..|lia|]. right. split; [done|].
    apply attempt_Ok in Hatt as (ext & size & -> & _).
    exists (clock l + elapsed a)%N, ext. split_and!; [done..|lia|lia|].
    by rewrite (temp_name_same b1 b).
  - case_bool_decide; simpl; (split_and!; [done..|lia|]); left;
      split_and!; (done || congruence).
Qed.

Lemma wordless_step a l l' b b1 b2 :
  (Db.title b1 = Db.title b
   ∧ (Db.status b1 = Db.downloaded →
      Db.status b = Db.downloaded ∨ word_set (Db.title b) ≠ ∅)) →
  row_step AA_API_KEY a l l' b1 b2 →
  Db.title b2 = Db.title b
  ∧ (Db.status b2 = Db.downloaded →
     Db.status b = Db.downloaded ∨ word_set (Db.title b) ≠ ∅).
Proof.
  intros [Ht Hd] [_ [->|(Hsel & _ & _ & Hstep)]]; [done|].
  destruct Hstep as [(fs & lg & fn & Hatt & ->)|(fs & lg & e & Hatt & ->)].
  - simpl. split; [done|]. intros _. right. rewrite <- Ht.
    by eapply attempt_needs_words.
  - apply selected_is_pending in Hsel.
    case_bool_decide; simpl; (split; [done|]); congruence.
Qed.
End CycleOutcomes.

(** X15: a pending book whose title holds no word is never marked
    downloaded: [processQueue] returns, and every row with such a title
    that was not downloaded before is not downloaded afterwards. *)
Theorem X15_wordless_title_is_never_marked_downloaded
    (cap capU : nat) (key : option string) (env : nat → Attempt)
    (st : Db.Store) (fs : Fs) (now : N) :
  unique_rowids st →
  ∃ l', processQueue cap capU key env st fs now = Some l'
        ∧ ∀ idx b, Db.books st !! idx = Some b →
            word_set (Db.title b) = ∅ → Db.status b ≠ Db.downloaded →
            ∃ b', Db.books (store l') !! idx = Some b'
                  ∧ Db.title b' = Db.title b
                  ∧ Db.status b' ≠ Db.downloaded.
Proof.
  intros Hnd.
  destruct (processQueue_rows cap capU key
              (λ _ b b', Db.title b' = Db.title b
                         ∧ (Db.status b' = Db.downloaded →
                            Db.status b = Db.downloaded
                            ∨ word_set (Db.title b) ≠ ∅))
              env st fs now Hnd) as (l' & Hl' & _ & Hrows).
  - intros _ b. split; [done|]. by left.
  - intros a l l1 b b1 b2 _. apply wordless_step.
  - exists l'. split; [done|]. intros idx b Hb He Hs.
    destruct (Hrows idx b Hb) as (b' & Hb' & Ht & Hd).
    exists b'. split_and!; [done..|]. intros Hdl. by destruct (Hd Hdl).
Qed.

(** X16: what a cycle leaves in each row. [processQueue] returns, and
    every row of the start is afterwards unchanged, or it was pending and
    has used attempts; then either it is not marked downloaded and keeps
    its [downloaded_at] and [file_path], or it is marked downloaded, with
    [downloaded_at] equal to [updated_at] at a time not before the start of
    the cycle and a cooldown before its end, and with the sanitized
    author-title name plus an extension as [file_path]. *)
Theorem X16_rows_after_a_cycle
    (cap capU : nat) (key : option string) (env : nat → Attempt)
    (st : Db.Store) (fs : Fs) (now : N) :
  unique_rowids st →
  ∃ l', processQueue cap capU key env st fs now = Some l'
        ∧ (now ≤ clock l')%N
        ∧ ∀ idx b, Db.books st !! idx = Some b →
            ∃ b', Db.books (store l') !! idx = Some b'
                  ∧ cycle_outcome now l' b b'.
Proof.
  intros Hnd.
  apply (processQueue_rows cap capU key (cycle_outcome now) env st fs now Hnd).
  - intros l b. by left.
  - intros a l l1 b b1 b2. apply cycle_outcome_step.
Qed.

Lemma unique_rowids_odd : unique_rowids Shelf.odd.
Proof. apply (bool_decide_unpack _). vm_compute. exact I. Defined.

Lemma X15_witness :
  ∃ l', processQueue 50 10 None (λ _, Sample.smooth) Shelf.odd ∅ 1000 = Some l'
        ∧ ∃ b', Db.books (store l') !! 1 = Some b'
                ∧ Db.title b' = Some "???"
                ∧ Db.status b' ≠ Db.downloaded.
Proof.
  destruct (X15_wordless_title_is_never_marked_downloaded
              50 10 None (λ _, Sample.smooth) Shelf.odd ∅ 1000
              unique_rowids_odd) as (l' & Hrun & Hrows).
  exists l'. split; [exact Hrun|].
  apply (Hrows 1 Shelf.untitled); [reflexivity|reflexivity|discriminate].
Defined.

Lemma X16_witness :
  ∃ l', processQueue 50 10 None (λ _, Sample.smooth) Shelf.odd ∅ 1000 = Some l'
        ∧ (1000 ≤ clock l')%N
        ∧ ∃ b', Db.books (store l') !! 0 = Some b'
                ∧ cycle_outcome 1000 l' Sample.dune b'.
Proof.
  destruct (X16_rows_after_a_cycle
              50 10 None (λ _, Sample.smooth) Shelf.odd ∅ 1000
              unique_rowids_odd) as (l' & Hrun & Hclock & Hrows).
  exists l'. split_and!; [exact Hrun|exact Hclock|].
  apply (Hrows 0 Sample.dune). reflexivity.
Defined.

Section CycleAccounts.
Variable MAX_DOWNLOADS_PER_DAY : nat.
Variable MAX_DOWNLOADS_PER_USER_PER_DAY : nat.
Variable AA_API_KEY : option string.

Local Abbreviation pass :=
  (iteration MAX_DOWNLOADS_PER_DAY MAX_DOWNLOADS_PER_USER_PER_DAY AA_API_KEY).

Ltac paths a l :=
  unfold iteration; cbv zeta;
  destruct (decide (MAX_DOWNLOADS_PER_DAY ≤ Db.countDownloadsToday (clock l) (store l)))
    as [Hcap|Hcap];
  [| destruct (Db.nextPending MAX_ATTEMPTS (skippedBookIds l) (store l))
       as [job|] eqn:Hjob;
     [ destruct (eligible l job) as [|u0 us] eqn:Helig;
       [| destruct (attempt AA_API_KEY a job (u0 :: us) (files l) (log l))
            as [[fs lg] [fn|e]] eqn:Hatt ]
     | ] ].

Ltac settle :=
  repeat match goal with
         | H : context [decide (?x = ?y)] |- _ =>
             destruct (decide (x = y)); try congruence
         end.

(** *** Sums over the rows *)

Lemma sum_touch (g : Db.Book → nat) id f (l : list Db.Book) job :
  NoDup (Db.rowid <$> l) → job ∈ l → Db.rowid job = id →
  sum_list (g <$> (touch id f <$> l)) + g job = sum_list (g <$> l) + g (f job).
Proof.
  intros Hnd Hin Hid. induction l as [|x l IH]; [by apply elem_of_nil in Hin|].
  rewrite fmap_cons in Hnd. apply NoDup_cons in Hnd as [Hx Hnd].
  rewrite !fmap_cons. change (sum_list (?y :: ?k)) with (y + sum_list k).
  apply elem_of_cons in Hin as [<-|Hin].
  - rewrite touch_same by done.
    assert (touch id f <$> l = l) as ->; [|lia].
    rewrite <- (list_fmap_id l) at 2. apply list_fmap_ext. intros i y Hy.
    apply touch_other. intros Heq. unfold Datatypes.id in Heq.
    apply Hx, list_elem_of_fmap.
    exists y. split; [congruence|]. by eapply list_elem_of_lookup_2.
  - rewrite touch_other.
    + specialize (IH Hnd Hin). lia.
    + intros Heq. apply Hx, list_elem_of_fmap. exists job. split; [congruence|done].
Qed.

Lemma sum_update_where (g : Db.Book → nat) f st job :
  unique_rowids st → job ∈ Db.books st →
  sum_list (g <$> Db.books (Db.update_where (Db.rowid job) f st)) + g job
  = sum_list (g <$> Db.books st) + g (f job).
Proof. intros Hnd Hin. by apply (sum_touch g _ f (Db.books st) job). Qed.

Lemma length_filter_sum {A} (P : A → Prop) `{∀ x, Decision (P x)} (l : list A) :
  length (filter P l) = sum_list ((λ x, if decide (P x) then 1 else 0) <$> l).
Proof.
  induction l as [|x l IH]; [done|]. rewrite filter_cons, fmap_cons.
  change (sum_list (?y :: ?k)) with (y + sum_list k).
  destruct (decide (P x)); simpl; lia.
Qed.

Lemma touched_row_present id f st job :
  job ∈ Db.books st → Db.rowid job = id →
  f job ∈ Db.books (Db.update_where id f st).
Proof.
  intros [i Hi]%list_elem_of_lookup <-.
  apply (list_elem_of_lookup_2 _ i). simpl.
  rewrite list_lookup_fmap, Hi. simpl. by rewrite decide_True.
Qed.

(** The effect of the two statements of an attempt on a sum over the
    rows. *)
Lemma sum_two_updates (g : Db.Book → nat) f1 f2 st job :
  unique_rowids st → job ∈ Db.books st →
  (∀ b, Db.rowid (f1 b) = Db.rowid b) →
  sum_list (g <$> Db.books (Db.update_where (Db.rowid job) f2
                              (Db.update_where (Db.rowid job) f1 st)))
  + g job
  = sum_list (g <$> Db.books st) + g (f2 (f1 job)).
Proof.
  intros Hnd Hin Hid.
  pose proof (sum_update_where g f1 st job Hnd Hin) as H1.
  pose proof (touched_row_present (Db.rowid job) f1 st job Hin eq_refl) as Hin1.
  pose proof (unique_rowids_update (Db.rowid job) f1 st Hid Hnd) as Hnd1.
  pose proof (sum_update_where g f2 _ (f1 job) Hnd1 Hin1) as H2.
  rewrite Hid in H2. lia.
Qed.

Lemma sum_success (g : Db.Book → nat) now1 now2 fn st job :
  unique_rowids st → job ∈ Db.books st →
  sum_list (g <$> Db.books (Db.markDownloaded now2 fn (Db.rowid job)
                              (Db.incrementAttempts now1 (Db.rowid job) st)))
  + g job
  = sum_list (g <$> Db.books st) + g (deliver now2 fn (bump now1 job)).
Proof.
  intros Hnd Hin.
  exact (sum_two_updates g (bump now1) (deliver now2 fn) st job Hnd Hin
           (λ _, eq_refl)).
Qed.

Lemma sum_failure (g : Db.Book → nat) now1 now2 st job :
  unique_rowids st → job ∈ Db.books st →
  sum_list (g <$> Db.books (Db.markFailed now2 (Db.rowid job)
                              (Db.incrementAttempts now1 (Db.rowid job) st)))
  + g job
  = sum_list (g <$> Db.books st) + g (abandon now2 (bump now1 job)).
Proof.
  intros Hnd Hin.
  exact (sum_two_updates g (bump now1) (abandon now2) st job Hnd Hin
           (λ _, eq_refl)).
Qed.

Lemma sum_retry (g : Db.Book → nat) now1 st job :
  unique_rowids st → job ∈ Db.books st →
  sum_list (g <$> Db.books (Db.incrementAttempts now1 (Db.rowid job) st)) + g job
  = sum_list (g <$> Db.books st) + g (bump now1 job).
Proof. intros Hnd Hin. exact (sum_update_where g (bump now1) st job Hnd Hin). Qed.

Lemma iteration_accounts a l A0 D0 F0 :
  unique_rowids (store l) →
  total_attempts (store l) = A0 + processed l →
  count_status Db.downloaded (store l) = D0 + succeeded l →
  count_status Db.failed (store l) ≤ F0 + failed l →
  total_attempts (store (state_of (pass a l)))
  = A0 + processed (state_of (pass a l))
  ∧ count_status Db.downloaded (store (state_of (pass a l)))
    = D0 + succeeded (state_of (pass a l))
  ∧ count_status Db.failed (store (state_of (pass a l)))
    ≤ F0 + failed (state_of (pass a l)).
Proof.
  intros Hnd HA HD HF. unfold total_attempts, count_status in *.
  rewrite !length_filter_sum in *.
  paths a l; cbn [state_of store processed succeeded failed]; try done;
    apply nextPending_Some in Hjob as (Hin & (Hp & _) & _).
  - (* success *)
    pose proof (sum_success Db.attempts (clock l) (clock l + elapsed a) fn
                  _ job Hnd Hin) as H1.
    pose proof (sum_success
                  (λ x, if decide (Db.status x = Db.downloaded) then 1 else 0)
                  (clock l) (clock l + elapsed a) fn _ job Hnd Hin) as H2.
    pose proof (sum_success
                  (λ x, if decide (Db.status x = Db.failed) then 1 else 0)
                  (clock l) (clock l + elapsed a) fn _ job Hnd Hin) as H3.
    cbn [deliver bump Db.status Db.attempts] in H1, H2, H3.
    rewrite Hp in H2, H3. settle. lia.
  - (* failure *)
    case_bool_decide.
    + pose proof (sum_failure Db.attempts (clock l) (clock l + elapsed a)
                    _ job Hnd Hin) as H1.
      pose proof (sum_failure
                    (λ x, if decide (Db.status x = Db.downloaded) then 1 else 0)
                    (clock l) (clock l + elapsed a) _ job Hnd Hin) as H2.
      pose proof (sum_failure
                    (λ x, if decide (Db.status x = Db.failed) then 1 else 0)
                    (clock l) (clock l + elapsed a) _ job Hnd Hin) as H3.
      cbn [abandon bump Db.status Db.attempts] in H1, H2, H3.
      rewrite Hp in H2, H3. settle. lia.
    + pose proof (sum_retry Db.attempts (clock l) _ job Hnd Hin) as H1.
      pose proof (sum_retry
                    (λ x, if decide (Db.status x = Db.downloaded) then 1 else 0)
                    (clock l) _ job Hnd Hin) as H2.
      pose proof (sum_retry
                    (λ x, if decide (Db.status x = Db.failed) then 1 else 0)
                    (clock l) _ job Hnd Hin) as H3.
      cbn [bump Db.status Db.attempts] in H1, H2, H3.
      rewrite Hp in H2, H3. settle. lia.
Qed.
End CycleAccounts.

(** X17: the counters of a cycle match the store. [processQueue] returns,
    and over all rows the attempts have grown by exactly the number of
    processed items, the rows marked downloaded by exactly the number of
    successes, and the rows marked failed by no more than the number of
    failures. *)
Theorem X17_counters_match_the_store
    (cap capU : nat) (key : option string) (env : nat → Attempt)
    (st : Db.Store) (fs : Fs) (now : N) :
  unique_rowids st →
  ∃ l', processQueue cap capU key env st fs now = Some l'
        ∧ total_attempts (store l') = total_attempts st + processed l'
        ∧ count_status Db.downloaded (store l')
          = count_status Db.downloaded st + succeeded l'
        ∧ count_status Db.failed (store l')
          ≤ count_status Db.failed st + failed l'.
Proof.
  intros Hnd.
  destruct (processQueue_invariant cap capU key
              (λ l, unique_rowids (store l)
                    ∧ total_attempts (store l) = total_attempts st + processed l
                    ∧ count_status Db.downloaded (store l)
                      = count_status Db.downloaded st + succeeded l
                    ∧ count_status Db.failed (store l)
                      ≤ count_status Db.failed st + failed l)
              env st fs now) as (l' & Hl' & _ & HA & HD & HF).
  - intros a l (Hu & HA & HD & HF).
    split; [by apply iteration_unique|]. by apply iteration_accounts.
  - simpl. split_and!; [done|lia..].
  - simpl. split_and!; [done|lia..].
  - by exists l'.
Qed.

Lemma X17_witness :
  ∃ l', processQueue 50 10 None (λ _, Sample.smooth) Shelf.odd ∅ 1000 = Some l'
        ∧ total_attempts (store l') = processed l'
        ∧ count_status Db.downloaded (store l') = succeeded l'.
Proof.
  destruct (X17_counters_match_the_store
              50 10 None (λ _, Sample.smooth) Shelf.odd ∅ 1000
              unique_rowids_odd) as (l' & Hrun & HA & HD & _).
  exists l'. split_and!; [exact Hrun|exact HA|exact HD].
Defined.

Section CycleUsers.
Variable MAX_DOWNLOADS_PER_DAY : nat.
Variable MAX_DOWNLOADS_PER_USER_PER_DAY : nat.
Variable AA_API_KEY : option string.

Local Abbreviation pass :=
  (iteration MAX_DOWNLOADS_PER_DAY MAX_DOWNLOADS_PER_USER_PER_DAY AA_API_KEY).

Ltac paths a l :=
  unfold iteration in *; cbv zeta in *;
  destruct (decide (MAX_DOWNLOADS_PER_DAY ≤ Db.countDownloadsToday (clock l) (store l)))
    as [Hcap|Hcap];
  [| destruct (Db.nextPending MAX_ATTEMPTS (skippedBookIds l) (store l))
       as [job|] eqn:Hjob;
     [ destruct (eligible l job) as [|u0 us] eqn:Helig;
       [| destruct (attempt AA_API_KEY a job (u0 :: us) (files l) (log l))
            as [[fs lg] [fn|e]] eqn:Hatt ]
     | ] ].

Lemma copy_to_users_log_inv a tempPath filename us fs lg e :
  e ∈ (copy_to_users a tempPath filename us fs lg).1.2 →
  e ∈ lg ∨ ∃ u p, u ∈ us ∧ e = LogSaved p (Db.user_rowid u).
Proof.
  revert fs lg. induction us as [|u us IH]; intros fs lg; simpl; [by left|].
  destruct (fs !! tempPath) as [size|]; [|by left].
  destruct (copy_ok a (Db.user_rowid u)); [|by left].
  intros [He|(v & p & Hv & ->)]%IH.
  - apply elem_of_app in He as [He|He]; [by left|].
    apply list_elem_of_singleton in He as ->. right.
    eexists u, _. split; [apply list_elem_of_here|done].
  - right. exists v, p. split; [by apply list_elem_of_further|done].
Qed.

Lemma attempt_log_inv a job us fs lg e :
  e ∈ (attempt AA_API_KEY a job us fs lg).1.2 →
  e ∈ lg ∨ (∃ p, e = LogCleanupFailed p)
  ∨ ∃ u p, u ∈ us ∧ e = LogSaved p (Db.user_rowid u).
Proof.
  unfold attempt.
  destruct (String.eqb (searchTerm job) EmptyString); [by left|].
  destruct (findBookOnAnna _ _ _ _ _) as [url|]; [|by left].
  destruct (downloadBook a fs url job) as [fs1 [[tempPath ext]|err]]; [|by left].
  pose proof (copy_to_users_log_inv a tempPath (temp_name job +:+ ext) us fs1 lg e)
    as Hcp.
  destruct (copy_to_users _ _ _ _ _ _) as [[fs2 lg2] [[]|err]]; simpl in Hcp.
  - destruct (unlink_ok a); simpl.
    + intros He. destruct (Hcp He) as [?|?]; [by left|by right; right].
    + intros [He|He]%elem_of_app.
      * destruct (Hcp He) as [?|?]; [by left|by right; right].
      * apply list_elem_of_singleton in He as ->. right. left. by eexists.
  - simpl. intros He. destruct (Hcp He) as [?|?]; [by left|by right; right].
Qed.

Lemma track_downloads_cons job u us m :
  track_downloads job (u :: us) m
  = track_downloads job us
      (<[Db.user_rowid u :=
           default [] (m !! Db.user_rowid u) ++ [(Db.title job, Db.author job)]]> m).
Proof. reflexivity. Qed.

Lemma track_downloads_None job us m u :
  m !! u = None → u ∉ Db.user_rowid <$> us →
  track_downloads job us m !! u = None.
Proof.
  revert m. induction us as [|v us IH]; intros m Hm Hu; [done|].
  rewrite track_downloads_cons. rewrite fmap_cons in Hu.
  apply not_elem_of_cons in Hu as [Hne Hu].
  apply IH; [|done]. by rewrite lookup_insert_ne.
Qed.

Lemma track_downloads_Some job us m u bs x :
  track_downloads job us m !! u = Some bs → x ∈ bs →
  (∃ bs0, m !! u = Some bs0 ∧ x ∈ bs0)
  ∨ (x = (Db.title job, Db.author job) ∧ u ∈ Db.user_rowid <$> us).
Proof.
  revert m. induction us as [|v us IH]; intros m Hbs Hx.
  { left. by exists bs. }
  rewrite track_downloads_cons in Hbs.
  destruct (IH _ Hbs Hx) as [(bs0 & Hbs0 & Hx0)|[-> Hu]].
  - destruct (decide (Db.user_rowid v = u)) as [<-|Hne].
    + rewrite lookup_insert_eq in Hbs0. injection Hbs0 as <-.
      apply elem_of_app in Hx0 as [Hx0|Hx0].
      * left. destruct (m !! Db.user_rowid v) as [old|]; [by exists old|].
        by apply elem_of_nil in Hx0.
      * apply list_elem_of_singleton in Hx0 as ->. right.
        split; [done|]. rewrite fmap_cons. apply list_elem_of_here.
    + rewrite lookup_insert_ne in Hbs0 by done. left. by exists bs0.
  - right. split; [done|]. rewrite fmap_cons. by apply list_elem_of_further.
Qed.

Lemma eligible_linked l job user :
  user ∈ eligible l job →
  user ∈ Db.users (store l)
  ∧ ∃ k, k ∈ Db.user_books (store l)
         ∧ Db.user_id k = Db.user_rowid user ∧ Db.book_id k = Db.rowid job.
Proof.
  intros Hu. split; [by eapply eligible_users|]. revert Hu.
  unfold eligible, Db.getUsersForBook.
  intros [_ Hu]%list_elem_of_filter.
  apply list_elem_of_bind in Hu as (v & Hu & Hv).
  apply list_elem_of_bind in Hu as (k & Hu & Hk).
  apply list_elem_of_singleton in Hu as ->.
  apply list_elem_of_filter in Hk as [[? ?] Hk]. by exists k.
Qed.

(** Users in the rate-limited set are served nothing by a pass. *)
Lemma iteration_limited a l (R0 : gset nat) :
  (R0 ⊆ rateLimitedUserIds l
   ∧ ∀ u, u ∈ R0 →
       downloadedPerUser l !! u = None ∧ ∀ p, LogSaved p u ∉ log l) →
  R0 ⊆ rateLimitedUserIds (state_of (pass a l))
  ∧ ∀ u, u ∈ R0 →
      downloadedPerUser (state_of (pass a l)) !! u = None
      ∧ ∀ p, LogSaved p u ∉ log (state_of (pass a l)).
Proof.
  intros [Hsub Hnone].
  assert (∀ job u, u ∈ R0 → u ∉ Db.user_rowid <$> eligible l job) as Hout.
  { intros job u Hu (user & -> & Huser)%list_elem_of_fmap.
    apply eligible_not_limited in Huser. apply Huser, Hsub, Hu. }
  assert (∀ job fs lg r u p,
            attempt AA_API_KEY a job (eligible l job) (files l) (log l)
            = (fs, lg, r) →
            u ∈ R0 → LogSaved p u ∉ lg) as Hlog.
  { intros job fs lg r u p Hatt Hu Hin.
    pose proof (attempt_log_inv a job (eligible l job) (files l) (log l)
                  (LogSaved p u)) as Hinv.
    rewrite Hatt in Hinv. destruct (Hinv Hin) as [?|[[? ?]|(v & q & Hv & Heq)]].
    - by apply (proj2 (Hnone u Hu) p).
    - done.
    - injection Heq as -> ->. apply (Hout job _ Hu), list_elem_of_fmap.
      by exists v. }
  paths a l; cbn [state_of rateLimitedUserIds downloadedPerUser log]; try done.
  - split; [done|]. intros u Hu. split; [apply Hnone, Hu|].
    intros p [Hin|Hin]%elem_of_app; [by apply (proj2 (Hnone u Hu) p)|].
    by apply list_elem_of_singleton in Hin.
  - rewrite <- Helig in *. split.
    { etrans; [done|]. apply union_subseteq_l. }
    intros u Hu. split.
    + apply track_downloads_None; [apply Hnone, Hu|by apply Hout].
    + intros p [Hin|Hin]%elem_of_app; [by eapply Hlog|].
      apply elem_of_cons in Hin as [?|Hin]; [done|].
      by apply list_elem_of_fmap in Hin as (? & ? & _).
  - rewrite <- Helig in *. split; [done|]. intros u Hu.
    split; [apply Hnone, Hu|].
    intros p [Hin|Hin]%elem_of_app; [by eapply Hlog|].
    apply elem_of_cons in Hin as [?|Hin]; [done|].
    apply list_elem_of_singleton in Hin. by destruct (bool_decide _).
Qed.

(** Every entry of the notification map stands for a delivered book. *)
Lemma iteration_notified a l links :
  (unique_rowids (store l) ∧ Db.user_books (store l) = links
   ∧ ∀ u bs x, downloadedPerUser l !! u = Some bs → x ∈ bs →
       ∃ b, b ∈ Db.books (store l) ∧ Db.status b = Db.downloaded
            ∧ (Db.title b, Db.author b) = x
            ∧ ∃ k, k ∈ links ∧ Db.user_id k = u ∧ Db.book_id k = Db.rowid b) →
  ∀ u bs x, downloadedPerUser (state_of (pass a l)) !! u = Some bs → x ∈ bs →
    ∃ b, b ∈ Db.books (store (state_of (pass a l))) ∧ Db.status b = Db.downloaded
         ∧ (Db.title b, Db.author b) = x
         ∧ ∃ k, k ∈ links ∧ Db.user_id k = u ∧ Db.book_id k = Db.rowid b.
Proof.
  intros (Hnd & Hlinks & Hold).
  assert (∀ b, b ∈ Db.books (store l) → Db.status b = Db.downloaded →
               b ∈ Db.books (store (state_of (pass a l)))) as Hkeep.
  { intros b [idx Hb]%list_elem_of_lookup Hd.
    destruct (iteration_row MAX_DOWNLOADS_PER_DAY MAX_DOWNLOADS_PER_USER_PER_DAY
                AA_API_KEY a l idx b Hnd Hb) as (b' & Hb' & _ & Hstep).
    destruct Hstep as [->|(Hsel & _)]; [by eapply list_elem_of_lookup_2|].
    apply selected_is_pending in Hsel. congruence. }
  assert (∀ u bs x, downloadedPerUser l !! u = Some bs → x ∈ bs →
            ∃ b, b ∈ Db.books (store (state_of (pass a l)))
                 ∧ Db.status b = Db.downloaded
                 ∧ (Db.title b, Db.author b) = x
                 ∧ ∃ k, k ∈ links ∧ Db.user_id k = u ∧ Db.book_id k = Db.rowid b)
    as Hold'.
  { intros u bs x Hbs Hx. destruct (Hold u bs x Hbs Hx) as (b & Hb & Hd & Hrest).
    exists b. split; [by apply Hkeep|done]. }
  clear Hkeep Hold.
  assert (∀ job fn, Db.nextPending MAX_ATTEMPTS (skippedBookIds l) (store l) = Some job →
            deliver (clock l + elapsed a) fn (bump (clock l) job)
            ∈ Db.books (Db.markDownloaded (clock l + elapsed a) fn (Db.rowid job)
                          (Db.incrementAttempts (clock l) (Db.rowid job) (store l))))
    as Hnew.
  { intros job fn (Hin & _)%nextPending_Some.
    apply (touched_row_present (Db.rowid job) (deliver (clock l + elapsed a) fn)
             (Db.incrementAttempts (clock l) (Db.rowid job) (store l))
             (bump (clock l) job)); [|done].
    by apply (touched_row_present (Db.rowid job) (bump (clock l)) (store l) job). }
  paths a l; cbn [state_of store downloadedPerUser] in *; try done.
  intros u bs x Hbs Hx.
  destruct (track_downloads_Some _ _ _ _ _ _ Hbs Hx)
    as [(bs0 & Hbs0 & Hx0)|[-> Hu]]; [by eapply Hold'|].
  exists (deliver (clock l + elapsed a) fn (bump (clock l) job)).
  split_and!; [by apply Hnew|done..|].
  apply list_elem_of_fmap in Hu as (user & -> & Huser).
  rewrite <- Helig in Huser.
  apply eligible_linked in Huser as (_ & k & Hk & ? & ?).
  exists k. rewrite <- Hlinks. by split_and!.
Qed.
End CycleUsers.

(** X18: a user whose count for the day has reached the per-user cap
    when a cycle starts is served nothing in that cycle: [processQueue]
    returns, no copy is logged for that user, and the notification map has
    no entry for that user. *)
Theorem X18_limited_users_are_served_nothing
    (cap capU : nat) (key : option string) (env : nat → Attempt)
    (st : Db.Store) (fs : Fs) (now : N) :
  ∃ l', processQueue cap capU key env st fs now = Some l'
        ∧ ∀ user, user ∈ Db.users st →
            capU ≤ Db.countUserDownloadsToday now (Db.user_rowid user) st →
            downloadedPerUser l' !! Db.user_rowid user = None
            ∧ ∀ p, LogSaved p (Db.user_rowid user) ∉ log l'.
Proof.
  destruct (processQueue_returns cap capU key env st fs now) as [l' Hl'].
  exists l'. split; [done|]. intros user Huser Hcount.
  unfold processQueue in Hl'. destruct (decide _) as [Hcap|Hcap].
  { injection Hl' as <-. simpl. split; [done|].
    intros p Hin. by apply list_elem_of_singleton in Hin. }
  set (R0 := list_to_set (at_user_limit capU now st (Db.getUsers st)) : gset nat).
  assert (Db.user_rowid user ∈ R0) as Hin.
  { apply elem_of_list_to_set, elem_of_at_user_limit. by exists user. }
  pose proof (run_invariant cap capU key
                (λ l, R0 ⊆ rateLimitedUserIds l
                      ∧ ∀ u, u ∈ R0 →
                          downloadedPerUser l !! u = None
                          ∧ ∀ p, LogSaved p u ∉ log l)
                env (S (budget (start capU st fs now))) (start capU st fs now) l'
                (λ a l, iteration_limited cap capU key a l R0)) as Hrun.
  destruct Hrun as [_ Hnone]; [|exact Hl'|by apply Hnone].
  split; [done|]. intros u Hu. simpl. split; [done|].
  by intros p (? & ? & _)%list_elem_of_fmap.
Qed.

Lemma X18_witness :
  ∃ l', processQueue 50 0 None (λ _, Sample.smooth) Sample.library ∅ 1000 = Some l'
        ∧ downloadedPerUser l' !! 1 = None.
Proof.
  destruct (X18_limited_users_are_served_nothing
              50 0 None (λ _, Sample.smooth) Sample.library ∅ 1000)
    as (l' & Hrun & Hnone).
  exists l'. split; [exact Hrun|].
  apply (Hnone Sample.alice); [apply list_elem_of_here|apply Nat.le_0_l].
Defined.

(** X19: the notification map that [processQueue] hands to the mailer
    names delivered books only: every entry under a user gives title and
    author of a row that is marked downloaded and linked to that user. *)
Theorem X19_notifications_name_delivered_books
    (cap capU : nat) (key : option string) (env : nat → Attempt)
    (st : Db.Store) (fs : Fs) (now : N) :
  unique_rowids st →
  ∃ l', processQueue cap capU key env st fs now = Some l'
        ∧ ∀ u bs t au,
            downloadedPerUser l' !! u = Some bs → (t, au) ∈ bs →
            ∃ b, b ∈ Db.books (store l') ∧ Db.status b = Db.downloaded
                 ∧ Db.title b = t ∧ Db.author b = au
                 ∧ ∃ k, k ∈ Db.user_books st
                        ∧ Db.user_id k = u ∧ Db.book_id k = Db.rowid b.
Proof.
  intros Hnd.
  destruct (processQueue_invariant cap capU key
              (λ l, unique_rowids (store l)
                    ∧ Db.user_books (store l) = Db.user_books st
                    ∧ ∀ u bs x, downloadedPerUser l !! u = Some bs → x ∈ bs →
                        ∃ b, b ∈ Db.books (store l) ∧ Db.status b = Db.downloaded
                             ∧ (Db.title b, Db.author b) = x
                             ∧ ∃ k, k ∈ Db.user_books st
                                    ∧ Db.user_id k = u ∧ Db.book_id k = Db.rowid b)
              env st fs now) as (l' & Hl' & _ & _ & Hall).
  - intros a l (Hu & Hk & Hall). split_and!.
    + by apply iteration_unique.
    + by rewrite (proj1 (proj2 (iteration_users cap capU key a l))).
    + by apply iteration_notified.
  - by split_and!.
  - by split_and!.
  - exists l'. split; [done|]. intros u bs t au Hbs Hx.
    destruct (Hall u bs (t, au) Hbs Hx) as (b & Hb & Hd & [= <- <-] & Hk).
    by exists b.
Qed.

Lemma X19_witness :
  ∃ l', processQueue 50 10 None (λ _, Sample.smooth) Shelf.odd ∅ 1000 = Some l'
        ∧ ∀ bs t au,
            downloadedPerUser l' !! 2 = Some bs → (t, au) ∈ bs →
            ∃ b, b ∈ Db.books (store l') ∧ Db.status b = Db.downloaded
                 ∧ Db.title b = t ∧ Db.author b = au.
Proof.
  destruct (X19_notifications_name_delivered_books
              50 10 None (λ _, Sample.smooth) Shelf.odd ∅ 1000
              unique_rowids_odd) as (l' & Hrun & Hall).
  exists l'. split; [exact Hrun|]. intros bs t au Hbs Hx.
  destruct (Hall 2 bs t au Hbs Hx) as (b & Hb & Hd & Ht & Ha & _).
  exists b. split_and!; [exact Hb|exact Hd|exact Ht|exact Ha].
Defined.

(** ** Further properties: feed ingestion *)

Section SyncFacts.
Import Db.

Lemma head_filter_Some {A} (P : A → Prop) `{∀ x, Decision (P x)} (l : list A) :
  is_Some (head (filter P l)) ↔ Exists P l.
Proof.
  induction l as [|x l IH]; simpl.
  - split; [by intros [? ?]|by intros ?%Exists_nil].
  - rewrite filter_cons, Exists_cons. destruct (decide (P x)); simpl.
    + split; [by left|by eexists].
    + rewrite IH. split; [by right|by intros [?|?]].
Qed.

Lemma head_filter_elem {A} (P : A → Prop) `{∀ x, Decision (P x)} (l : list A) x :
  head (filter P l) = Some x → x ∈ l ∧ P x.
Proof.
  intros Hx. apply head_Some_elem_of in Hx.
  apply list_elem_of_filter in Hx. tauto.
Qed.

Lemma getBook_None key st :
  getBookByGoodreadsId key st = None ↔ ¬ Exists (has_key key) (books st).
Proof.
  unfold getBookByGoodreadsId. rewrite <- head_filter_Some.
  rewrite eq_None_not_Some. done.
Qed.

(** After the upsert the row is there: the branch of [syncRSS] for a row
    that cannot be read back is never taken. *)
Lemma getBook_after_upsert now key i t a st :
  is_Some (getBookByGoodreadsId key
             (upsertBookByGoodreadsId now (Some key) i t a st)).
Proof.
  unfold getBookByGoodreadsId. apply head_filter_Some.
  destruct (decide (Exists (has_key key) (books st))) as [Hex|Hno].
  - rewrite upsert_existing by done. apply Exists_fmap.
    eapply Exists_impl; [done|]. intros b Hb. simpl.
    unfold has_key. by rewrite upsert_row_key.
  - rewrite upsert_new by done. apply Exists_app. right.
    apply Exists_cons. by left.
Qed.

Lemma length_upsert_new now key i t a st :
  getBookByGoodreadsId key st = None →
  length (books (upsertBookByGoodreadsId now (Some key) i t a st))
  = S (length (books st)).
Proof.
  intros Hno%getBook_None. rewrite upsert_new by done.
  rewrite length_app. simpl. lia.
Qed.

Lemma length_upsert_existing now key i t a st :
  is_Some (getBookByGoodreadsId key st) →
  length (books (upsertBookByGoodreadsId now (Some key) i t a st))
  = length (books st).
Proof.
  intros Hex%head_filter_Some. rewrite upsert_existing by done.
  by rewrite length_fmap.
Qed.

Lemma linkUserBook_books u b st : books (linkUserBook u b st) = books st.
Proof. unfold linkUserBook. by destruct (decide _). Qed.

Lemma linkUserBook_users u b st : users (linkUserBook u b st) = users st.
Proof. unfold linkUserBook. by destruct (decide _). Qed.

Lemma linkUserBook_seq u b st : book_seq (linkUserBook u b st) = book_seq st.
Proof. unfold linkUserBook. by destruct (decide _). Qed.

Lemma linkUserBook_links u b st :
  ∃ more, user_books (linkUserBook u b st) = user_books st ++ more.
Proof.
  unfold linkUserBook. destruct (decide _).
  - exists []. by rewrite app_nil_r.
  - by eexists.
Qed.

Lemma linkUserBook_linked u b st :
  ∃ k, k ∈ user_books (linkUserBook u b st) ∧ user_id k = u ∧ book_id k = b.
Proof.
  unfold linkUserBook. destruct (decide _) as [Hex|Hno].
  - apply Exists_exists in Hex as (k & Hk & ? & ?). by exists k.
  - eexists. split; [apply elem_of_app; right; apply list_elem_of_here|done].
Qed.

Lemma upsert_users now k i t a st :
  users (upsertBookByGoodreadsId now k i t a st) = users st.
Proof.
  unfold upsertBookByGoodreadsId. destruct k; [destruct (decide _)|]; done.
Qed.

(** *** One item *)

Lemma sync_item_cases now user st n item :
  (or_null (Feed.book_id item) = None
   ∧ sync_item now user (st, n) item = (st, count_skipped n))
  ∨ (∃ key book,
       or_null (Feed.book_id item) = Some key
       ∧ getBookByGoodreadsId key
           (upsertBookByGoodreadsId now (Some key) (item_isbn item)
              (or_null (Feed.title item)) (item_author item) st) = Some book
       ∧ sync_item now user (st, n) item
         = (linkUserBook (user_rowid user) (rowid book)
              (upsertBookByGoodreadsId now (Some key) (item_isbn item)
                 (or_null (Feed.title item)) (item_author item) st),
            match getBookByGoodreadsId key st with
            | Some _ => count_existing n
            | None => count_new n
            end)).
Proof.
  unfold sync_item. destruct (or_null (Feed.book_id item)) as [key|]; [|by left].
  right.
  destruct (getBook_after_upsert now key (item_isbn item)
              (or_null (Feed.title item)) (item_author item) st) as [book Hbook].
  exists key, book. by rewrite Hbook.
Qed.

(** *** What each statement preserves, ingestion preserves *)

Lemma foldl_step {A B} (f : A → B → A) (a : A) (x : B) (l : list B) :
  foldl f a (x :: l) = foldl f (f a x) l.
Proof. reflexivity. Qed.

Lemma sync_items_invariant (I : Store → Prop) now user items st n :
  (∀ k i t a st, I st → I (upsertBookByGoodreadsId now k i t a st)) →
  (∀ u b st, I st → I (linkUserBook u b st)) →
  I st → I (foldl (sync_item now user) (st, n) items).1.
Proof.
  intros Hup Hlink. revert st n. induction items as [|item items IH];
    intros st n Hst; [done|].
  rewrite foldl_step.
  destruct (sync_item_cases now user st n item)
    as [[_ ->]|(key & book & _ & _ & ->)]; apply IH; [done|].
  by apply Hlink, Hup.
Qed.

Lemma sync_users_invariant (I : Store → Prop) feeds us st report :
  (∀ now k i t a st, I st → I (upsertBookByGoodreadsId now k i t a st)) →
  (∀ u b st, I st → I (linkUserBook u b st)) →
  I st → I (foldl (sync_user feeds) (st, report) us).1.
Proof.
  intros Hup Hlink. revert st report. induction us as [|user us IH];
    intros st report Hst; [done|].
  rewrite foldl_step. unfold sync_user at 2. destruct (feeds user) as [|now items].
  - by apply IH.
  - pose proof (sync_items_invariant I now user items st no_stats (Hup now) Hlink Hst)
      as Hitems.
    destruct (foldl (sync_item now user) _ items) as [st1 n1]. by apply IH.
Qed.

Lemma syncRSS_invariant (I : Store → Prop) feeds st :
  (∀ now k i t a st, I st → I (upsertBookByGoodreadsId now k i t a st)) →
  (∀ u b st, I st → I (linkUserBook u b st)) →
  I st → I (syncRSS feeds st).1.
Proof. apply sync_users_invariant. Qed.

(** *** The store is only extended *)

Lemma kept_refl b : kept b b.
Proof. by unfold kept. Qed.

Lemma kept_trans b1 b2 b3 : kept b1 b2 → kept b2 b3 → kept b1 b3.
Proof.
  unfold kept. intros (? & ? & ? & ? & ? & ? & ?) (? & ? & ? & ? & ? & ? & ?).
  split_and!; congruence.
Qed.

Lemma kept_queued b b' : kept b b' → queued b → queued b'.
Proof.
  unfold kept, queued. intros (? & ? & ? & ? & ? & ? & ?) (? & ? & ? & ?).
  split_and!; congruence.
Qed.

Lemma Forall2_kept_refl (l : list Book) : Forall2 kept l l.
Proof. apply Forall_Forall2_diag, Forall_forall. intros. apply kept_refl. Qed.

Lemma extends_refl st : extends st st.
Proof.
  split_and!; [done| |exists []; by rewrite app_nil_r].
  exists (books st), []. split_and!; [by rewrite app_nil_r| |constructor].
  apply Forall2_kept_refl.
Qed.

Lemma extends_trans st1 st2 st3 : extends st1 st2 → extends st2 st3 → extends st1 st3.
Proof.
  intros (Hu1 & (o1 & f1 & Hb1 & Hk1 & Hq1) & (m1 & Hl1))
         (Hu2 & (o2 & f2 & Hb2 & Hk2 & Hq2) & (m2 & Hl2)).
  split_and!; [congruence| |exists (m1 ++ m2); by rewrite Hl2, Hl1, app_assoc].
  rewrite Hb1 in Hk2.
  apply Forall2_app_inv_l in Hk2 as (oa & ob & Hka & Hkb & ->).
  exists oa, (ob ++ f2). split_and!.
  - by rewrite Hb2, app_assoc.
  - eapply Forall2_trans; [|done..]. intros ???. apply kept_trans.
  - apply Forall_app. split; [|done].
    clear -Hq1 Hkb. induction Hkb as [|b b' l l' Hk _ IH]; [constructor|].
    apply Forall_cons in Hq1 as [Hq Hq1]. constructor; [by eapply kept_queued|auto].
Qed.

Lemma extends_upsert now k i t a st :
  extends st (upsertBookByGoodreadsId now k i t a st).
Proof.
  split_and!; [apply upsert_users| |exists []; by rewrite upsert_user_books, app_nil_r].
  assert (∃ olds fresh, books (insert_book now k i t a st) = olds ++ fresh
                        ∧ Forall2 kept (books st) olds ∧ Forall queued fresh) as Hins.
  { exists (books st), [new_book now (S (book_seq st)) k i t a].
    split_and!; [done|apply Forall2_kept_refl|]. by repeat constructor. }
  unfold upsertBookByGoodreadsId. destruct k as [key|]; [|done].
  destruct (decide _); [|done].
  eexists _, []. split_and!; [by rewrite app_nil_r| |constructor].
  simpl. apply Forall2_fmap_r, Forall_Forall2_diag, Forall_forall.
  intros b _. simpl. destruct (decide _); [|apply kept_refl]. by unfold kept.
Qed.

Lemma extends_link u b st : extends st (linkUserBook u b st).
Proof.
  split_and!; [apply linkUserBook_users| |apply linkUserBook_links].
  exists (books st), []. rewrite linkUserBook_books.
  split_and!; [by rewrite app_nil_r|apply Forall2_kept_refl|constructor].
Qed.

(** *** Keys and ids stay unique *)

Lemma unique_keys_link u b st : unique_keys st → unique_keys (linkUserBook u b st).
Proof. unfold unique_keys. by rewrite linkUserBook_books. Qed.

Lemma upsert_ids now k i t a st :
  unique_rowids st ∧ seq_bounds st →
  unique_rowids (upsertBookByGoodreadsId now k i t a st)
  ∧ seq_bounds (upsertBookByGoodreadsId now k i t a st).
Proof.
  intros [Hnd Hsb].
  assert (unique_rowids (insert_book now k i t a st)
          ∧ seq_bounds (insert_book now k i t a st)) as Hins.
  { unfold unique_rowids, seq_bounds in *. simpl. split.
    - rewrite fmap_app. apply NoDup_app. split_and!; [done| |apply NoDup_singleton].
      intros x (b & -> & Hb)%list_elem_of_fmap Hx.
      apply list_elem_of_singleton in Hx. simpl in Hx.
      rewrite Forall_forall in Hsb. specialize (Hsb b Hb). lia.
    - apply Forall_app. split; [|by repeat constructor].
      eapply Forall_impl; [done|]. simpl. intros. lia. }
  unfold upsertBookByGoodreadsId. destruct k as [key|]; [|done].
  destruct (decide _); [|done].
  unfold unique_rowids, seq_bounds in *. simpl. split.
  - rewrite <- list_fmap_compose.
    erewrite list_fmap_ext; [done|]. intros j b _. simpl.
    by destruct (decide _).
  - apply Forall_fmap. eapply Forall_impl; [done|]. intros b Hb. simpl in *.
    destruct (decide _); simpl; lia.
Qed.

Lemma link_ids u b st :
  unique_rowids st ∧ seq_bounds st →
  unique_rowids (linkUserBook u b st) ∧ seq_bounds (linkUserBook u b st).
Proof.
  unfold unique_rowids, seq_bounds.
  by rewrite linkUserBook_books, linkUserBook_seq.
Qed.

Lemma count_link day u b st :
  countDownloadsOn day (linkUserBook u b st) = countDownloadsOn day st.
Proof. unfold countDownloadsOn. by rewrite linkUserBook_books. Qed.
End SyncFacts.

(** X20: [syncRSS] only extends the store. The users stay as they are;
    every row that was there stays in its place with its id, dedup key,
    status, attempts, file path, [added_at] and [downloaded_at]; rows are
    added at the end only, pending, with no attempt made and no success
    recorded; links are added at the end only; and the number of downloads
    that the global daily limit counts is the same for every day. *)
Theorem X20_syncRSS_only_extends_the_store
    (feeds : Db.User → Feed.Reply) (st : Db.Store) :
  extends st (syncRSS feeds st).1
  ∧ ∀ day, Db.countDownloadsOn day (syncRSS feeds st).1
           = Db.countDownloadsOn day st.
Proof.
  split.
  - apply (syncRSS_invariant (extends st)).
    + intros now k i t a st1 H. eapply extends_trans; [done|apply extends_upsert].
    + intros u b st1 H. eapply extends_trans; [done|apply extends_link].
    + apply extends_refl.
  - intros day.
    apply (syncRSS_invariant
             (λ s, Db.countDownloadsOn day s = Db.countDownloadsOn day st)).
    + intros now k i t a st1 <-. apply upsert_counts. exact 0.
    + intros u b st1 <-. apply count_link.
    + done.
Qed.

(** X21: [syncRSS] keeps the constraints of the [books] table: when the
    dedup keys are unique, the ids are unique and none exceeds the
    AUTOINCREMENT counter, the same holds of the store it leaves. *)
Theorem X21_syncRSS_keeps_keys_and_ids_unique
    (feeds : Db.User → Feed.Reply) (st : Db.Store) :
  unique_keys st → unique_rowids st → seq_bounds st →
  unique_keys (syncRSS feeds st).1
  ∧ unique_rowids (syncRSS feeds st).1
  ∧ seq_bounds (syncRSS feeds st).1.
Proof.
  intros Hk Hnd Hsb. split.
  - apply (syncRSS_invariant unique_keys); [|apply unique_keys_link|done].
    intros now k i t a st1. apply upsert_unique_keys.
  - apply (syncRSS_invariant (λ s, unique_rowids s ∧ seq_bounds s)); [| |done].
    + intros now k i t a st1. apply upsert_ids.
    + intros u b st1. apply link_ids.
Qed.

Section SyncReach.
Import Db.

Lemma wanted_upsert key u now k i t a st :
  wanted key u st → wanted key u (upsertBookByGoodreadsId now k i t a st).
Proof.
  intros (b & l & Hb & Hkey & Hl & Hu & Hid).
  apply list_elem_of_lookup in Hb as [idx Hb].
  destruct (upsert_lookup now k i t a st idx b Hb) as (b' & Hb' & Hsame).
  exists b', l. rewrite upsert_user_books.
  split_and!; [by eapply list_elem_of_lookup_2| |done..|].
  - destruct Hsame as [->|[_ ->]]; done.
  - destruct Hsame as [->|[_ ->]]; done.
Qed.

Lemma wanted_link key u u' b' st :
  wanted key u st → wanted key u (linkUserBook u' b' st).
Proof.
  intros (b & l & Hb & Hkey & Hl & Hu & Hid). exists b, l.
  rewrite linkUserBook_books. split_and!; [done..| |done|done].
  destruct (linkUserBook_links u' b' st) as [more ->].
  apply elem_of_app. by left.
Qed.

Lemma sync_item_wanted now user st n item key :
  or_null (Feed.book_id item) = Some key →
  wanted key (user_rowid user) (sync_item now user (st, n) item).1.
Proof.
  intros Hkey.
  destruct (sync_item_cases now user st n item)
    as [[Hno _]|(key' & book & Hkey' & Hbook & ->)]; [congruence|].
  assert (key' = key) as -> by congruence. simpl.
  apply head_filter_elem in Hbook as [Hin Hhas].
  destruct (linkUserBook_linked (user_rowid user) (rowid book)
              (upsertBookByGoodreadsId now (Some key) (item_isbn item)
                 (or_null (Feed.title item)) (item_author item) st))
    as (l & Hl & Hu & Hb).
  exists book, l. rewrite linkUserBook_books. by split_and!.
Qed.

Lemma sync_items_wanted now user items st n item key :
  item ∈ items → or_null (Feed.book_id item) = Some key →
  wanted key (user_rowid user) (foldl (sync_item now user) (st, n) items).1.
Proof.
  revert st n. induction items as [|x items IH]; intros st n Hin Hkey.
  { by apply elem_of_nil in Hin. }
  rewrite foldl_step. apply elem_of_cons in Hin as [->|Hin].
  - pose proof (sync_item_wanted now user st n x key Hkey) as Hw.
    destruct (sync_item now user (st, n) x) as [st1 n1].
    apply (sync_items_invariant (wanted key (user_rowid user))); [| |done].
    + intros. by apply wanted_upsert.
    + intros. by apply wanted_link.
  - destruct (sync_item now user (st, n) x) as [st1 n1]. by apply IH.
Qed.

Lemma sync_users_wanted feeds us st report user now items item key :
  user ∈ us → feeds user = Feed.Items now items →
  item ∈ items → or_null (Feed.book_id item) = Some key →
  wanted key (user_rowid user) (foldl (sync_user feeds) (st, report) us).1.
Proof.
  revert st report. induction us as [|x us IH]; intros st report Hin Hfeed Hitem Hkey.
  { by apply elem_of_nil in Hin. }
  rewrite foldl_step. apply elem_of_cons in Hin as [<-|Hin].
  - unfold sync_user at 2. rewrite Hfeed.
    pose proof (sync_items_wanted now user items st no_stats item key Hitem Hkey)
      as Hw.
    destruct (foldl (sync_item now user) _ items) as [st1 n1].
    apply (sync_users_invariant (wanted key (user_rowid user))); [| |done].
    + intros. by apply wanted_upsert.
    + intros. by apply wanted_link.
  - destruct (sync_user feeds (st, report) x) as [st1 r1]. by apply IH.
Qed.

(** *** The summary *)

Lemma sync_items_stats now user items st n :
  Feed.newBooks (foldl (sync_item now user) (st, n) items).2
  + Feed.existingBooks (foldl (sync_item now user) (st, n) items).2
  + Feed.skipped (foldl (sync_item now user) (st, n) items).2
  = Feed.newBooks n + Feed.existingBooks n + Feed.skipped n + length items
  ∧ Feed.skipped (foldl (sync_item now user) (st, n) items).2
    = Feed.skipped n
      + length (filter (λ item, or_null (Feed.book_id item) = None) items)
  ∧ length (books (foldl (sync_item now user) (st, n) items).1) + Feed.newBooks n
    = length (books st) + Feed.newBooks (foldl (sync_item now user) (st, n) items).2.
Proof.
  revert st n. induction items as [|x items IH]; intros st n.
  { simpl. lia. }
  rewrite foldl_step, filter_cons.
  destruct (sync_item_cases now user st n x)
    as [[Hno ->]|(key & book & Hkey & Hbook & ->)].
  - rewrite decide_True by done. specialize (IH st (count_skipped n)).
    simpl in *. lia.
  - rewrite decide_False by congruence.
    match goal with |- context [foldl _ (?s, ?m) items] => specialize (IH s m) end.
    rewrite linkUserBook_books in IH.
    destruct (getBookByGoodreadsId key st) as [old|] eqn:Hold.
    + rewrite length_upsert_existing in IH by by rewrite Hold.
      simpl in *. lia.
    + rewrite length_upsert_new in IH by done.
      simpl in *. lia.
Qed.

Lemma total_new_cons x rs :
  total_new (x :: rs)
  = match x with Some n => Feed.newBooks n | None => 0 end + total_new rs.
Proof. reflexivity. Qed.

Lemma sync_users_stats feeds us st report :
  ∃ rs, (foldl (sync_user feeds) (st, report) us).2 = report ++ rs
        ∧ Forall2 (summary_of feeds) us rs
        ∧ length (books (foldl (sync_user feeds) (st, report) us).1)
          = length (books st) + total_new rs.
Proof.
  revert st report. induction us as [|user us IH]; intros st report.
  { exists []. simpl. rewrite app_nil_r. split_and!; [done|constructor|].
    unfold total_new. simpl. lia. }
  rewrite foldl_step. unfold sync_user at 2 4.
  destruct (feeds user) as [|now items] eqn:Hfeed.
  - destruct (IH st (report ++ [None])) as (rs & -> & Hall & Hlen).
    exists (None :: rs). split_and!.
    + by rewrite <- app_assoc.
    + constructor; [|done]. unfold summary_of. by rewrite Hfeed.
    + rewrite Hlen, total_new_cons. lia.
  - pose proof (sync_items_stats now user items st no_stats) as (Hsum & Hsk & Hnew).
    destruct (foldl (sync_item now user) _ items) as [st1 n1].
    destruct (IH st1 (report ++ [Some n1])) as (rs & -> & Hall & Hlen).
    exists (Some n1 :: rs). split_and!.
    + by rewrite <- app_assoc.
    + constructor; [|done]. unfold summary_of. rewrite Hfeed.
      exists n1. simpl in *. split_and!; [done|lia|lia].
    + rewrite Hlen, total_new_cons. simpl in *. lia.
Qed.
End SyncReach.

(** X22: after [syncRSS], every item with a book id in a feed that could
    be fetched is in the store and on the list of the user whose feed it
    came from: there is a row under that dedup key and a link from the user
    to it. *)
Theorem X22_syncRSS_queues_and_links_every_item
    (feeds : Db.User → Feed.Reply) (st : Db.Store)
    (user : Db.User) (now : N) (items : list Feed.Item)
    (item : Feed.Item) (key : string) :
  user ∈ Db.users st → feeds user = Feed.Items now items →
  item ∈ items → or_null (Feed.book_id item) = Some key →
  wanted key (Db.user_rowid user) (syncRSS feeds st).1.
Proof. apply sync_users_wanted. Qed.

(** X23: the summary of [syncRSS] adds up. There is one entry for each
    user, in order; a feed that could not be fetched gives none; otherwise
    new, existing and skipped items add up to the items of the feed, the
    skipped ones are those without a book id (a row is always found after
    its upsert), and the rows added to [books] are as many as the items
    counted as new over all users. *)
Theorem X23_syncRSS_summary_adds_up
    (feeds : Db.User → Feed.Reply) (st : Db.Store) :
  Forall2 (summary_of feeds) (Db.users st) (syncRSS feeds st).2
  ∧ length (Db.books (syncRSS feeds st).1)
    = length (Db.books st) + total_new (syncRSS feeds st).2.
Proof.
  unfold syncRSS.
  destruct (sync_users_stats feeds (Db.getUsers st) st []) as (rs & Hrs & Hall & Hlen).
  rewrite Hrs. simpl. by split.
Qed.

Lemma unique_keys_library : unique_keys Sample.library.
Proof.
  intros k. unfold Sample.library. simpl.
  rewrite filter_cons, filter_nil. destruct (decide _); simpl; lia.
Defined.

Lemma unique_rowids_library : unique_rowids Sample.library.
Proof. apply (bool_decide_unpack _). vm_compute. exact I. Defined.

Lemma seq_bounds_library : seq_bounds Sample.library.
Proof. apply (bool_decide_unpack _). vm_compute. exact I. Defined.

Lemma X21_witness :
  (Db.rowid <$> Db.books (syncRSS Feeds.to_read Sample.library).1) = [1; 3]
  ∧ Db.book_seq (syncRSS Feeds.to_read Sample.library).1 = 3
  ∧ unique_keys (syncRSS Feeds.to_read Sample.library).1
  ∧ unique_rowids (syncRSS Feeds.to_read Sample.library).1
  ∧ seq_bounds (syncRSS Feeds.to_read Sample.library).1.
Proof.
  split; [reflexivity|]. split; [reflexivity|].
  exact (X21_syncRSS_keeps_keys_and_ids_unique Feeds.to_read Sample.library
           unique_keys_library unique_rowids_library seq_bounds_library).
Defined.

Lemma X22_witness :
  wanted "6969" 1 (syncRSS Feeds.to_read Sample.library).1.
Proof.
  apply (X22_syncRSS_queues_and_links_every_item Feeds.to_read Sample.library
           Sample.alice 2000 [Feeds.dune_item; Feeds.stray_item; Feeds.emma_item]
           Feeds.emma_item "6969").
  - apply list_elem_of_here.
  - reflexivity.
  - apply list_elem_of_further, list_elem_of_further, list_elem_of_here.
  - reflexivity.
Defined.

Section IsbnFacts.

Lemma digits_spec n s d :
  digits n s = Some d → String.length d = n ∧ all_chars is_digit d = true.
Proof.
  revert s d. induction n as [|n IH]; intros s d; simpl.
  { by intros [= <-]. }
  destruct s as [|c r]; [done|]. destruct (is_digit c) eqn:Hc; [|done].
  destruct (digits n r) as [d'|] eqn:Hd; [|done]. intros [= <-].
  destruct (IH r d' Hd) as [<- Hall]. simpl. by rewrite Hc, Hall.
Qed.

Lemma isbn13Match_spec s d :
  isbn13Match s = Some d →
  String.length d = 13 ∧ all_chars is_digit d = true
  ∧ Match.includes s "isbn13:" = true.
Proof.
  induction s as [|c r IH]; [done|].
  change (isbn13Match (String c r))
    with (match (if String.prefix "isbn13:" (String c r)
                 then digits 13 (Match.skip_spaces (drop_chars 7 (String c r)))
                 else None) with
          | Some d => Some d
          | None => isbn13Match r
          end).
  change (Match.includes (String c r) "isbn13:")
    with (String.prefix "isbn13:" (String c r) || Match.includes r "isbn13:").
  destruct (String.prefix "isbn13:" (String c r)).
  - destruct (digits 13 _) as [d'|] eqn:Hd.
    + intros [= <-]. by destruct (digits_spec _ _ _ Hd).
    + intros H. by destruct (IH H) as (? & ? & _).
  - intros H. destruct (IH H) as (? & ? & ->). by rewrite orb_true_r.
Qed.
End IsbnFacts.

(** X24: the isbn that [syncRSS] stores for an item is never empty: it is
    the [isbn] field of the item with the white space around it removed,
    or else thirteen digits, found in a description that holds the word
    isbn13 followed by a colon. *)
Theorem X24_item_isbn_is_trimmed_field_or_thirteen_digits
    (item : Feed.Item) (s : string) :
  item_isbn item = Some s →
  s ≠ EmptyString
  ∧ ((∃ field, Feed.isbn item = Some field ∧ s = Match.trim field)
     ∨ (String.length s = 13 ∧ all_chars is_digit s = true
        ∧ ∃ c, Feed.content item = Some c
               ∧ Match.includes c "isbn13:" = true)).
Proof.
  unfold item_isbn.
  destruct (Feed.isbn item) as [field|] eqn:Hf.
  - destruct (Match.truthy (Some field) && (0 <? String.length (Match.trim field)))
      eqn:Hc.
    + intros [= <-]. apply andb_true_iff in Hc as [_ Hlen%Nat.ltb_lt].
      split; [|left; by exists field]. intros He. rewrite He in Hlen.
      simpl in Hlen. lia.
    + destruct (Feed.content item) as [[|c0 c]|]; cbn [Match.truthy default];
      try done.
      intros (Hlen & Hall & Hinc)%isbn13Match_spec.
      split; [intros ->; simpl in Hlen; lia|]. right. split_and!; [done..|].
      by eexists.
  - destruct (Feed.content item) as [[|c0 c]|]; cbn [Match.truthy default];
      try done.
    intros (Hlen & Hall & Hinc)%isbn13Match_spec.
    split; [intros ->; simpl in Hlen; lia|]. right. split_and!; [done..|].
    by eexists.
Qed.

Lemma X24_witness :
  item_isbn Feeds.emma_item = Some "9780141439587"
  ∧ "9780141439587" ≠ EmptyString.
Proof.
  assert (item_isbn Feeds.emma_item = Some "9780141439587") as H by reflexivity.
  split; [exact H|].
  exact (proj1 (X24_item_isbn_is_trimmed_field_or_thirteen_digits
                  Feeds.emma_item "9780141439587" H)).
Defined.

Section ResyncFacts.
Import Db.

Lemma foldl_invariant_elem {A B} (f : A → B → A) (I : A → Prop) (l : list B) (a : A) :
  (∀ x a, x ∈ l → I a → I (f a x)) → I a → I (foldl f a l).
Proof.
  revert a. induction l as [|x l IH]; intros a Hstep Ha; [done|].
  rewrite foldl_step. apply IH.
  - intros y b Hy. apply Hstep. by apply list_elem_of_further.
  - apply Hstep; [apply list_elem_of_here|done].
Qed.

Lemma same_key_same_row key (l : list Book) b c :
  length (filter (has_key key) l) ≤ 1 →
  b ∈ l → has_key key b → c ∈ l → has_key key c → b = c.
Proof.
  intros Hlen Hb Hkb Hc Hkc.
  assert (b ∈ filter (has_key key) l) as Hb' by by apply list_elem_of_filter.
  assert (c ∈ filter (has_key key) l) as Hc' by by apply list_elem_of_filter.
  destruct (filter (has_key key) l) as [|x [|y r]]; simpl in Hlen; [| |lia].
  - by apply elem_of_nil in Hb'.
  - apply list_elem_of_singleton in Hb', Hc'. congruence.
Qed.

Lemma sync_item_settled now user st1 st n item :
  (∀ key, or_null (Feed.book_id item) = Some key →
          wanted key (user_rowid user) st1) →
  settled st1 st ∧ Feed.newBooks n = 0 →
  settled st1 (sync_item now user (st, n) item).1
  ∧ Feed.newBooks (sync_item now user (st, n) item).2 = 0.
Proof.
  intros Hw [(Huk & Hl & Hlen & Hkeep) Hn].
  destruct (sync_item_cases now user st n item)
    as [[_ ->]|(key & book & Hkey & Hbook & ->)]; [done|].
  cbn [fst snd].
  set (st' := upsertBookByGoodreadsId now (Some key) (item_isbn item)
                (or_null (Feed.title item)) (item_author item) st) in *.
  pose proof (Hkeep _ _ (Hw key Hkey)) as Hwanted.
  assert (is_Some (getBookByGoodreadsId key st)) as Hsome.
  { destruct Hwanted as (b & _ & Hb & Hkb & _).
    apply head_filter_Some, Exists_exists. by exists b. }
  assert (unique_keys st') as Huk' by by apply upsert_unique_keys.
  assert (linkUserBook (user_rowid user) (rowid book) st' = st') as ->.
  { unfold linkUserBook. rewrite decide_True; [done|].
    apply (wanted_upsert key (user_rowid user) now (Some key) (item_isbn item)
             (or_null (Feed.title item)) (item_author item)) in Hwanted.
    destruct Hwanted as (b & k & Hb & Hkb & Hk & Hu & Hid).
    apply head_filter_elem in Hbook as [Hin Hhas].
    assert (b = book) as ->
      by exact (same_key_same_row key (books st') b book (Huk' key) Hb Hkb Hin Hhas).
    apply Exists_exists. by exists k. }
  split.
  - split_and!; [done| | |].
    + unfold st'. by rewrite upsert_user_books.
    + unfold st'. by rewrite length_upsert_existing.
    + intros key' u Hw'. by apply wanted_upsert, Hkeep.
  - destruct Hsome as [old ->]. done.
Qed.

Lemma total_new_snoc report x :
  total_new (report ++ [x])
  = total_new report + match x with Some n => Feed.newBooks n | None => 0 end.
Proof.
  induction report as [|y r IH].
  - rewrite app_nil_l, total_new_cons. unfold total_new. simpl. lia.
  - rewrite <- app_comm_cons, !total_new_cons, IH. lia.
Qed.

Lemma sync_user_settled feeds feeds' st0 st1 acc user :
  st1 = (syncRSS feeds st0).1 → user ∈ users st0 → same_items feeds feeds' st0 →
  settled st1 acc.1 ∧ total_new acc.2 = 0 →
  settled st1 (sync_user feeds' acc user).1
  ∧ total_new (sync_user feeds' acc user).2 = 0.
Proof.
  intros -> Huser Hsame [Hset Hnew]. destruct acc as [st report].
  specialize (Hsame user Huser). unfold sync_user.
  pose proof (total_new_snoc report) as Happ.
  destruct (feeds' user) as [|now' items']; simpl in *.
  { split; [done|]. rewrite Happ. lia. }
  destruct (feeds user) as [|now items] eqn:Hfeed; [done|]. subst items'.
  pose proof (foldl_invariant_elem (sync_item now' user)
                (λ acc, settled (syncRSS feeds st0).1 acc.1
                        ∧ Feed.newBooks acc.2 = 0)
                items (st, no_stats)) as Hfold.
  destruct (foldl (sync_item now' user) (st, no_stats) items) as [st' n'].
  destruct Hfold as [Hset' Hn'].
  - intros item [s n] Hitem. apply sync_item_settled.
    intros key Hkey. by eapply sync_users_wanted.
  - done.
  - simpl in *. split; [done|]. rewrite Happ. lia.
Qed.

Lemma resync_settled feeds feeds' st :
  unique_keys st → same_items feeds feeds' st →
  settled (syncRSS feeds st).1 (syncRSS feeds' (syncRSS feeds st).1).1
  ∧ total_new (syncRSS feeds' (syncRSS feeds st).1).2 = 0.
Proof.
  intros Huk Hsame.
  assert (users (syncRSS feeds st).1 = users st) as Husers.
  { apply (syncRSS_invariant (λ s, users s = users st)); [| |done].
    - intros. by rewrite upsert_users.
    - intros. by rewrite linkUserBook_users. }
  assert (unique_keys (syncRSS feeds st).1) as Huk1.
  { apply (syncRSS_invariant unique_keys); [|apply unique_keys_link|done].
    intros now k i t a st1. apply upsert_unique_keys. }
  remember (syncRSS feeds st).1 as st1 eqn:Hst1.
  unfold syncRSS, getUsers. rewrite Husers.
  apply (foldl_invariant_elem (sync_user feeds')
           (λ acc, settled st1 acc.1 ∧ total_new acc.2 = 0)).
  - intros user acc Huser. by apply (sync_user_settled feeds feeds' st).
  - simpl. split; [|done]. by split_and!.
Qed.
End ResyncFacts.

(** X25: fetching the same items again adds nothing. When the dedup keys
    are unique and every feed that is delivered the second time holds the
    items it held the first time, the second [syncRSS] adds no row and no
    link, and counts no item as new. *)
Theorem X25_syncRSS_again_adds_nothing
    (feeds feeds' : Db.User → Feed.Reply) (st : Db.Store) :
  unique_keys st → same_items feeds feeds' st →
  length (Db.books (syncRSS feeds' (syncRSS feeds st).1).1)
  = length (Db.books (syncRSS feeds st).1)
  ∧ Db.user_books (syncRSS feeds' (syncRSS feeds st).1).1
    = Db.user_books (syncRSS feeds st).1
  ∧ total_new (syncRSS feeds' (syncRSS feeds st).1).2 = 0.
Proof.
  intros Huk Hsame.
  destruct (resync_settled feeds feeds' st Huk Hsame) as [(_ & Hl & Hlen & _) Hn].
  by split_and!.
Qed.

Lemma X25_witness :
  length (Db.books (syncRSS Feeds.to_read (syncRSS Feeds.to_read Sample.library).1).1)
  = length (Db.books (syncRSS Feeds.to_read Sample.library).1)
  ∧ Db.user_books (syncRSS Feeds.to_read (syncRSS Feeds.to_read Sample.library).1).1
    = Db.user_books (syncRSS Feeds.to_read Sample.library).1
  ∧ total_new (syncRSS Feeds.to_read (syncRSS Feeds.to_read Sample.library).1).2 = 0.
Proof.
  apply (X25_syncRSS_again_adds_nothing Feeds.to_read Feeds.to_read Sample.library
           unique_keys_library).
  intros user _. unfold Feeds.to_read. destruct (_ =? _); [reflexivity|exact I].
Defined.

Section WholeCycle.
Variable MAX_DOWNLOADS_PER_DAY : nat.
Variable MAX_DOWNLOADS_PER_USER_PER_DAY : nat.
Variable AA_API_KEY : option string.

Lemma Forall2_filter_length {A} (R : A → A → Prop) (P : A → Prop)
    `{∀ x, Decision (P x)} (l l' : list A) :
  (∀ x y, R x y → (P x ↔ P y)) → Forall2 R l l' →
  length (filter P l') = length (filter P l).
Proof.
  intros HR. induction 1 as [|x y l l' Hxy _ IH]; [done|].
  rewrite !filter_cons. specialize (HR x y Hxy).
  destruct (decide (P x)), (decide (P y)); simpl; tauto || lia.
Qed.

Lemma constraints_same_book st st' :
  Db.book_seq st' = Db.book_seq st →
  Forall2 same_book (Db.books st) (Db.books st') →
  constraints st → constraints st'.
Proof.
  intros Hseq Hsame (Hk & Hr & Hs). split_and!.
  - intros k.
    rewrite (Forall2_filter_length same_book (Db.has_key k) (Db.books st)
               (Db.books st')); [apply Hk| |done].
    intros x y (_ & Hxy & _). unfold Db.has_key. by rewrite Hxy.
  - unfold unique_rowids in *.
    assert (Db.rowid <$> Db.books st' = Db.rowid <$> Db.books st) as ->; [|done].
    clear -Hsame. induction Hsame as [|x y l l' Hxy _ IH]; [done|].
    rewrite !fmap_cons, IH. f_equal. apply Hxy.
  - unfold seq_bounds in *. rewrite Hseq. clear -Hsame Hs.
    induction Hsame as [|x y l l' Hxy _ IH]; [done|].
    apply Forall_cons in Hs as [Hx Hs]. constructor; [|auto].
    destruct Hxy as (-> & _). done.
Qed.

Lemma no_future_extends now st st' :
  extends st st' → no_future now st → no_future now st'.
Proof.
  intros (_ & (olds & fresh & Hb & Hk & Hq) & _) Hnf. unfold no_future in *.
  rewrite Hb. apply Forall_app. split.
  - clear -Hk Hnf. induction Hk as [|x y l l' Hxy _ IH]; [done|].
    apply Forall_cons in Hnf as [Hx Hnf]. constructor; [|auto].
    destruct Hxy as (_ & _ & _ & _ & _ & _ & ->). done.
  - eapply Forall_impl; [done|]. intros b (_ & _ & _ & ->). done.
Qed.

Lemma processQueue_keeps env st fs now :
  constraints st → no_future now st → within_daily_cap MAX_DOWNLOADS_PER_DAY st →
  ∃ l', processQueue MAX_DOWNLOADS_PER_DAY MAX_DOWNLOADS_PER_USER_PER_DAY
          AA_API_KEY env st fs now = Some l'
        ∧ constraints (store l') ∧ no_future (clock l') (store l')
        ∧ within_daily_cap MAX_DOWNLOADS_PER_DAY (store l')
        ∧ (now ≤ clock l')%N.
Proof.
  intros Hc Hnf Hcap.
  assert (∀ l : list Db.Book, Forall2 same_book l l) as Hrefl.
  { intros k. apply Forall_Forall2_diag, Forall_forall. intros. apply same_book_refl. }
  destruct (processQueue_invariant MAX_DOWNLOADS_PER_DAY
              MAX_DOWNLOADS_PER_USER_PER_DAY AA_API_KEY
              (λ l, cap_invariant MAX_DOWNLOADS_PER_DAY l ∧ (now ≤ clock l)%N
                    ∧ Db.book_seq (store l) = Db.book_seq st
                    ∧ Forall2 same_book (Db.books st) (Db.books (store l)))
              env st fs now) as (l' & Hl' & (_ & Hnf' & Hcap') & Hclock & Hseq & Hsame).
  - intros a l (Hinv & Hclock & Hseq & Hsame).
    destruct (iteration_cap MAX_DOWNLOADS_PER_DAY MAX_DOWNLOADS_PER_USER_PER_DAY
                AA_API_KEY a l Hinv) as [Hinv' Hmono].
    destruct (iteration_users MAX_DOWNLOADS_PER_DAY MAX_DOWNLOADS_PER_USER_PER_DAY
                AA_API_KEY a l) as (_ & _ & ->).
    split_and!; [done|lia|done|].
    eapply Forall2_trans; [|done|apply iteration_same_book].
    intros ???. apply same_book_trans.
  - destruct Hc as (_ & Hr & _). simpl. split_and!; [by split_and!|lia|done|done].
  - destruct Hc as (_ & Hr & _). simpl. split_and!; [by split_and!|lia|done|done].
  - exists l'. split_and!; [done| |done..].
    by eapply constraints_same_book.
Qed.
End WholeCycle.

(** X26: what a whole cycle keeps. When the dedup keys and the ids are
    unique and bounded by the row counter, no success lies in the future
    of the clock and no day holds more successes than the global cap, a
    cycle (ingestion, then the queue) returns and leaves a store of which
    all this holds again, at a clock that has not gone back. *)
Theorem X26_a_cycle_keeps_the_constraints_and_the_cap
    (cap capU : nat) (key : option string) (feeds : Db.User → Feed.Reply)
    (env : nat → Attempt) (st : Db.Store) (fs : Fs) (now : N) :
  constraints st → no_future now st → within_daily_cap cap st →
  ∃ l', runCycle cap capU key feeds env st fs now = Some l'
        ∧ constraints (store l')
        ∧ no_future (clock l') (store l')
        ∧ within_daily_cap cap (store l')
        ∧ (now ≤ clock l')%N.
Proof.
  intros (Hk & Hr & Hs) Hnf Hcap. unfold runCycle.
  apply processQueue_keeps.
  - split.
    + apply (syncRSS_invariant unique_keys); [|apply unique_keys_link|done].
      intros t k i ti a st1. apply upsert_unique_keys.
    + apply (syncRSS_invariant (λ s, unique_rowids s ∧ seq_bounds s)); [| |done].
      * intros t k i ti a st1. apply upsert_ids.
      * intros u b st1. apply link_ids.
  - apply (no_future_extends now st); [|done].
    apply (syncRSS_invariant (extends st)).
    + intros t k i ti a st1 H. eapply extends_trans; [done|apply extends_upsert].
    + intros u b st1 H. eapply extends_trans; [done|apply extends_link].
    + apply extends_refl.
  - intros day.
    assert (Db.countDownloadsOn day (syncRSS feeds st).1
            = Db.countDownloadsOn day st) as ->; [|apply Hcap].
    apply (syncRSS_invariant
             (λ s, Db.countDownloadsOn day s = Db.countDownloadsOn day st)).
    + intros t k i ti a st1 <-. apply upsert_counts. exact 0.
    + intros u b st1 <-. apply count_link.
    + done.
Qed.

Lemma X26_witness :
  ∃ l', runCycle 50 10 None Feeds.to_read (λ _, Sample.smooth) Sample.library ∅ 3000
        = Some l'
        ∧ constraints (store l')
        ∧ within_daily_cap 50 (store l').
Proof.
  destruct (X26_a_cycle_keeps_the_constraints_and_the_cap
              50 10 None Feeds.to_read (λ _, Sample.smooth) Sample.library ∅ 3000)
    as (l' & Hrun & Hc & _ & Hcap & _).
  - split_and!; [exact unique_keys_library|exact unique_rowids_library
                 |exact seq_bounds_library].
  - unfold no_future, Sample.library. simpl.
    constructor; [intros t Ht; discriminate Ht|constructor].
  - intros day. unfold Db.countDownloadsOn, Sample.library.
    cbn [Db.books]. rewrite filter_cons, filter_nil.
    destruct (decide _) as [[Hd _]|_]; [discriminate Hd|simpl; lia].
  - exists l'. split_and!; [exact Hrun|exact Hc|exact Hcap].
Defined.

Section QuotaFacts.
Variable MAX_DOWNLOADS_PER_DAY : nat.
Variable MAX_DOWNLOADS_PER_USER_PER_DAY : nat.
Variable AA_API_KEY : option string.

Local Abbreviation pass :=
  (iteration MAX_DOWNLOADS_PER_DAY MAX_DOWNLOADS_PER_USER_PER_DAY AA_API_KEY).

Ltac paths a l :=
  unfold iteration in *; cbv zeta in *;
  destruct (decide (MAX_DOWNLOADS_PER_DAY ≤ Db.countDownloadsToday (clock l) (store l)))
    as [Hcap|Hcap];
  [| destruct (Db.nextPending MAX_ATTEMPTS (skippedBookIds l) (store l))
       as [job|] eqn:Hjob;
     [ destruct (eligible l job) as [|u0 us] eqn:Helig;
       [| destruct (attempt AA_API_KEY a job (u0 :: us) (files l) (log l))
            as [[fs lg] [fn|e]] eqn:Hatt ]
     | ] ].

Ltac settle :=
  repeat match goal with
         | H : context [decide (?x = ?y)] |- _ =>
             destruct (decide (x = y)); try congruence
         end.

Lemma user_count_sum day u st :
  Db.countUserDownloadsOn day u st = sum_list (share day u st <$> Db.books st).
Proof.
  unfold Db.countUserDownloadsOn. induction (Db.books st) as [|b l IH]; [done|].
  rewrite filter_cons, fmap_cons.
  change (sum_list (?y :: ?k)) with (y + sum_list k). unfold share at 1.
  destruct (decide (Db.downloaded_on day b)).
  - rewrite bind_cons, length_app, IH. done.
  - by rewrite IH.
Qed.

Lemma user_count_success day u now1 now2 fn st job :
  unique_rowids st → job ∈ Db.books st → Db.status job = Db.pending →
  Db.countUserDownloadsOn day u
    (Db.markDownloaded now2 fn (Db.rowid job)
       (Db.incrementAttempts now1 (Db.rowid job) st))
  = Db.countUserDownloadsOn day u st
    + (if decide (day = Db.date now2) then length (Db.links_of u job st) else 0).
Proof.
  intros Hnd Hin Hp. rewrite !user_count_sum.
  pose proof (sum_success (share day u st) now1 now2 fn st job Hnd Hin) as H.
  change (share day u (Db.markDownloaded now2 fn (Db.rowid job)
                         (Db.incrementAttempts now1 (Db.rowid job) st)))
    with (share day u st).
  unfold share at 2 4 in H. revert H.
  destruct (decide (Db.downloaded_on day job)) as [[Hd _]|_]; [congruence|].
  destruct (decide (Db.downloaded_on day (deliver now2 fn (bump now1 job))))
    as [[_ Hday]|Hno]; intros H.
  - simpl in Hday. injection Hday as <-. rewrite decide_True by done.
    change (Db.links_of u (deliver now2 fn (bump now1 job)) st)
      with (Db.links_of u job st) in H. lia.
  - rewrite decide_False; [lia|]. intros ->. by apply Hno.
Qed.

Lemma user_count_failure day u now1 now2 st job :
  unique_rowids st → job ∈ Db.books st → Db.status job = Db.pending →
  Db.countUserDownloadsOn day u
    (Db.markFailed now2 (Db.rowid job)
       (Db.incrementAttempts now1 (Db.rowid job) st))
  = Db.countUserDownloadsOn day u st.
Proof.
  intros Hnd Hin Hp. rewrite !user_count_sum.
  pose proof (sum_failure (share day u st) now1 now2 st job Hnd Hin) as H.
  change (share day u (Db.markFailed now2 (Db.rowid job)
                         (Db.incrementAttempts now1 (Db.rowid job) st)))
    with (share day u st).
  unfold share at 2 4 in H. revert H.
  destruct (decide (Db.downloaded_on day job)) as [[Hd _]|_]; [congruence|].
  destruct (decide (Db.downloaded_on day (abandon now2 (bump now1 job))))
    as [[Hd _]|_]; [done|]. lia.
Qed.

Lemma user_count_retry day u now1 st job :
  unique_rowids st → job ∈ Db.books st → Db.status job = Db.pending →
  Db.countUserDownloadsOn day u (Db.incrementAttempts now1 (Db.rowid job) st)
  = Db.countUserDownloadsOn day u st.
Proof.
  intros Hnd Hin Hp. rewrite !user_count_sum.
  pose proof (sum_retry (share day u st) now1 st job Hnd Hin) as H.
  change (share day u (Db.incrementAttempts now1 (Db.rowid job) st))
    with (share day u st).
  unfold share at 2 4 in H. revert H.
  destruct (decide (Db.downloaded_on day job)) as [[Hd _]|_]; [congruence|].
  destruct (decide (Db.downloaded_on day (bump now1 job)))
    as [[Hd _]|_]; [simpl in Hd; congruence|]. lia.
Qed.

Lemma user_count_zero_future now day u st :
  no_future now st → (Db.date now < day)%N → Db.countUserDownloadsOn day u st = 0.
Proof.
  intros Hnf Hlt. pose proof (count_zero_future now day st Hnf Hlt) as H.
  unfold Db.countDownloadsOn in H. apply nil_length_inv in H.
  unfold Db.countUserDownloadsOn. by rewrite H.
Qed.

Lemma linked_listed user job st k :
  user ∈ Db.users st → k ∈ Db.links_of (Db.user_rowid user) job st →
  user ∈ Db.getUsersForBook (Db.rowid job) st.
Proof.
  intros Hu Hk. unfold Db.getUsersForBook.
  apply list_elem_of_bind. exists user. split; [|done].
  apply list_elem_of_bind. exists k. split; [apply list_elem_of_here|].
  apply list_elem_of_filter in Hk as [[? ?] Hk].
  apply list_elem_of_filter. by split.
Qed.

(** The count of a user at a later clock, in a store without successes
    after [now]. *)
Lemma count_later now now' u st capU :
  no_future now st → (now ≤ now')%N →
  (Db.date now' = Db.date now → Db.countUserDownloadsToday now u st < capU) →
  0 < capU →
  Db.countUserDownloadsToday now' u st < capU.
Proof.
  intros Hnf Hle Hsame Hpos. unfold Db.countUserDownloadsToday in *.
  destruct (decide (Db.date now' = Db.date now)) as [Heq|Hne].
  - rewrite Heq. by apply Hsame.
  - rewrite (user_count_zero_future now); [done..|].
    apply date_mono in Hle. lia.
Qed.

Lemma iteration_quota a l :
  unique_rowids (store l) → no_future (clock l) (store l) →
  below_quota MAX_DOWNLOADS_PER_USER_PER_DAY l →
  below_quota MAX_DOWNLOADS_PER_USER_PER_DAY (state_of (pass a l)).
Proof.
  intros Hnd Hnf Hq. unfold below_quota in *.
  paths a l; cbn [state_of store clock rateLimitedUserIds]; try done;
    apply nextPending_Some in Hjob as (Hin & (Hp & _) & _).
  - (* success *)
    set (now := (clock l + elapsed a)%N).
    set (st2 := Db.markDownloaded now fn (Db.rowid job)
                  (Db.incrementAttempts (clock l) (Db.rowid job) (store l))).
    intros user Huser Hout. apply not_elem_of_union in Hout as [Hout Hfresh].
    specialize (Hq user Huser Hout).
    assert (0 < MAX_DOWNLOADS_PER_USER_PER_DAY) as Hpos by lia.
    assert (no_future now st2) as Hnf2.
    { apply no_future_update; [intros b t _ [= <-]; right; lia|].
      apply no_future_update; [intros b t _ Ht; by left|].
      eapply no_future_mono; [|done]. lia. }
    apply (count_later now); [done|lia| |done]. intros _.
    destruct (Db.links_of (Db.user_rowid user) job (store l)) as [|k r] eqn:Hl.
    + (* not linked to the book *)
      unfold Db.countUserDownloadsToday, st2.
      rewrite user_count_success, Hl by done.
      assert (∀ n, n + (if decide (Db.date now = Db.date now) then length (@nil Db.Link) else 0) = n)
        as -> by (intros; destruct (decide _); simpl; lia).
      apply (count_later (clock l)); [done|lia|done|done].
    + (* checked after the success *)
      assert (user ∈ eligible l job) as Helig'.
      { unfold eligible. apply list_elem_of_filter. split; [done|].
        apply (linked_listed user job (store l) k); [done|].
        rewrite Hl. apply list_elem_of_here. }
      apply Nat.nle_gt. intros Hle. apply Hfresh.
      apply elem_of_list_to_set, elem_of_at_user_limit.
      exists user. split_and!; [|done..].
      apply list_elem_of_filter. split; [done|]. by rewrite <- Helig.
  - (* failure *)
    intros user Huser Hout.
    assert (user ∈ Db.users (store l)) as Huser' by by destruct (bool_decide _).
    specialize (Hq user Huser' Hout).
    assert (0 < MAX_DOWNLOADS_PER_USER_PER_DAY) as Hpos by lia.
    assert (∀ day, Db.countUserDownloadsOn day (Db.user_rowid user)
                     (if bool_decide (MAX_ATTEMPTS ≤ Db.attempts job + 1)
                      then Db.markFailed (clock l + elapsed a) (Db.rowid job)
                             (Db.incrementAttempts (clock l) (Db.rowid job) (store l))
                      else Db.incrementAttempts (clock l) (Db.rowid job) (store l))
                   = Db.countUserDownloadsOn day (Db.user_rowid user) (store l))
      as Hsame.
    { intros day. destruct (bool_decide _).
      - by apply user_count_failure.
      - by apply user_count_retry. }
    unfold Db.countUserDownloadsToday in *. rewrite Hsame.
    apply (count_later (clock l)); [done|lia|done|done].
Qed.

Lemma start_quota st fs now :
  below_quota MAX_DOWNLOADS_PER_USER_PER_DAY
    (start MAX_DOWNLOADS_PER_USER_PER_DAY st fs now).
Proof.
  intros user Huser Hout. simpl in *. apply Nat.nle_gt. intros Hle.
  apply Hout, elem_of_list_to_set, elem_of_at_user_limit. by exists user.
Qed.
End QuotaFacts.

(** X27: users are served only while they are below their cap. On entry
    to the loop every user outside the rate-limited set is below the
    per-user cap for the day; every pass keeps it so (ids being unique and
    no success lying in the future of the clock); and so every user for
    whom a pass attempts a book is below the cap at that time. *)
Theorem X27_users_are_served_only_below_their_cap
    (cap capU : nat) (key : option string) :
  (∀ st fs now, below_quota capU (start capU st fs now))
  ∧ (∀ a l, unique_rowids (store l) → no_future (clock l) (store l) →
            below_quota capU l →
            below_quota capU (state_of (iteration cap capU key a l)))
  ∧ (∀ l job user, below_quota capU l → user ∈ eligible l job →
                   Db.countUserDownloadsToday (clock l) (Db.user_rowid user) (store l)
                   < capU).
Proof.
  split_and!.
  - apply start_quota.
  - apply iteration_quota.
  - intros l job user Hq Huser. apply Hq; [by eapply eligible_users|].
    by eapply eligible_not_limited.
Qed.

Lemma X27_witness :
  Db.countUserDownloadsToday 1000 1 Sample.library < 10.
Proof.
  destruct (X27_users_are_served_only_below_their_cap 50 10 None)
    as (Hstart & _ & Hserved).
  apply (Hserved (start 10 Sample.library ∅ 1000) Sample.dune Sample.alice).
  - apply Hstart.
  - assert (eligible (start 10 Sample.library ∅ 1000) Sample.dune
            = [Sample.alice; Sample.bob]) as -> by (vm_compute; reflexivity).
    apply list_elem_of_here.
Defined.

(** ** Further properties: maintenance *)

Section MaintenanceFacts.

Lemma date_yesterday now : Db.date (yesterday now) = (Db.date now - 1)%N.
Proof. unfold yesterday, Db.date. by rewrite N.div_mul. Qed.

Lemma reset_row_today now b :
  (86400 ≤ now)%N → ¬ Db.downloaded_on (Db.date now) (reset_row now b).
Proof.
  intros Hnow. unfold reset_row.
  destruct (decide (Db.downloaded_on (Db.date now) b)) as [Hd|Hd]; [|done].
  intros [_ Hday]. simpl in Hday. injection Hday as Hday.
  rewrite date_yesterday in Hday.
  assert (1 ≤ Db.date now)%N; [|lia].
  unfold Db.date. change 1%N with (86400 / 86400)%N.
  by apply N.Div0.div_le_mono.
Qed.

Lemma reset_none_today now (l : list Db.Book) :
  (86400 ≤ now)%N → filter (Db.downloaded_on (Db.date now)) (reset_row now <$> l) = [].
Proof.
  intros Hnow. induction l as [|b l IH]; [done|].
  rewrite fmap_cons, filter_cons, IH.
  destruct (decide _) as [Hd|_]; [|done]. by apply reset_row_today in Hd.
Qed.

Lemma reset_yesterday now (l : list Db.Book) :
  (86400 ≤ now)%N →
  length (filter (Db.downloaded_on (Db.date now - 1)) (reset_row now <$> l))
  = length (filter (Db.downloaded_on (Db.date now - 1)) l)
    + length (filter (Db.downloaded_on (Db.date now)) l).
Proof.
  intros Hnow.
  assert (1 ≤ Db.date now)%N as Hday.
  { unfold Db.date. change 1%N with (86400 / 86400)%N.
    by apply N.Div0.div_le_mono. }
  induction l as [|b l IH]; [done|].
  rewrite fmap_cons, (filter_cons _ b), (filter_cons _ b), (filter_cons _ (reset_row now b)).
  destruct (decide (Db.downloaded_on (Db.date now) b)) as [Hd|Hd].
  - assert (Db.downloaded_on (Db.date now - 1) (reset_row now b)) as Hy.
    { unfold reset_row. rewrite decide_True by done. destruct Hd as [Hs _].
      split; [done|]. simpl. by rewrite date_yesterday. }
    rewrite (decide_True (P := Db.downloaded_on (Db.date now - 1) (reset_row now b)))
      by done.
    rewrite decide_False.
    2:{ destruct Hd as [_ Ht]. intros [_ Ht']. rewrite Ht in Ht'.
        injection Ht' as Ht'. lia. }
    simpl. rewrite IH. lia.
  - assert (reset_row now b = b) as -> by (unfold reset_row; by rewrite decide_False).
    destruct (decide (Db.downloaded_on (Db.date now - 1) b)); simpl; rewrite IH; lia.
Qed.

Lemma backfill_row_dated b :
  Db.status (backfill_row b) = Db.downloaded → is_Some (Db.downloaded_at (backfill_row b)).
Proof.
  unfold backfill_row. destruct (decide _) as [Hd|Hd]; simpl; [by eexists|].
  intros Hs. destruct (Db.downloaded_at b); [by eexists|]. by destruct Hd.
Qed.

Lemma dated_upsert now k i t a st :
  dated st → dated (Db.upsertBookByGoodreadsId now k i t a st).
Proof.
  intros Hd. unfold dated in *.
  assert (Forall (λ b, Db.status b = Db.downloaded → is_Some (Db.downloaded_at b))
            (Db.books (Db.insert_book now k i t a st))) as Hins.
  { simpl. apply Forall_app. split; [done|]. by repeat constructor. }
  unfold Db.upsertBookByGoodreadsId. destruct k as [key|]; [|done].
  destruct (decide _); [|done]. simpl. apply Forall_fmap.
  eapply Forall_impl; [done|]. intros b Hb. simpl. by destruct (decide _).
Qed.

Lemma dated_link u k st : dated st → dated (Db.linkUserBook u k st).
Proof. unfold dated. by rewrite linkUserBook_books. Qed.

Lemma dated_update id f st :
  (∀ row, (Db.status row = Db.downloaded → is_Some (Db.downloaded_at row)) →
          Db.status (f row) = Db.downloaded → is_Some (Db.downloaded_at (f row))) →
  dated st → dated (Db.update_where id f st).
Proof.
  intros Hf Hd. unfold dated in *. simpl. apply Forall_fmap.
  eapply Forall_impl; [done|]. intros row Hrow. simpl.
  destruct (decide _); [by apply Hf|done].
Qed.

Lemma dated_iteration cap capU key a l :
  dated (store l) → dated (store (state_of (iteration cap capU key a l))).
Proof.
  intros Hd. unfold iteration. cbv zeta.
  repeat case_match; cbn [state_of store]; try done;
    unfold Db.markDownloaded, Db.markFailed, Db.incrementAttempts;
    repeat (apply dated_update; [intros row Hrow; simpl; try done|]); try done.
Qed.
End MaintenanceFacts.

(** X28: [reset-limits.js] clears the limits of the day. After it, the
    global count and every user's count for the day of the clock are zero;
    the successes it found move to the day before, as many as it reports;
    and users, links and the number of rows are as before. *)
Theorem X28_reset_limits_clears_the_day (now : N) (st : Db.Store) :
  (86400 ≤ now)%N →
  Db.countDownloadsToday now (reset_limits now st).1 = 0
  ∧ (∀ u, Db.countUserDownloadsToday now u (reset_limits now st).1 = 0)
  ∧ (reset_limits now st).2 = Db.countDownloadsToday now st
  ∧ Db.countDownloadsOn (Db.date now - 1) (reset_limits now st).1
    = Db.countDownloadsOn (Db.date now - 1) st + (reset_limits now st).2
  ∧ count_status Db.downloaded (reset_limits now st).1
    = count_status Db.downloaded st
  ∧ Db.users (reset_limits now st).1 = Db.users st
  ∧ Db.user_books (reset_limits now st).1 = Db.user_books st.
Proof.
  intros Hnow. unfold reset_limits. cbn [fst snd]. split_and!; try done.
  - unfold Db.countDownloadsToday, Db.countDownloadsOn. simpl.
    by rewrite reset_none_today.
  - intros u. unfold Db.countUserDownloadsToday, Db.countUserDownloadsOn. simpl.
    by rewrite reset_none_today.
  - unfold Db.countDownloadsToday, Db.countDownloadsOn. simpl.
    by apply reset_yesterday.
  - unfold count_status. simpl. induction (Db.books st) as [|b l IH]; [done|].
    rewrite fmap_cons, !filter_cons.
    assert (Db.status (reset_row now b) = Db.status b) as ->.
    { unfold reset_row. by destruct (decide _). }
    destruct (decide _); simpl; by rewrite IH.
Qed.

Lemma X28_witness :
  Db.countDownloadsToday 100000 (reset_limits 100000 Sample.shelves).1 = 0.
Proof.
  apply (X28_reset_limits_clears_the_day 100000 Sample.shelves). lia.
Defined.

(** X29: every success carries its time. The backfill that [initDb] runs
    when it adds the [downloaded_at] column leaves no downloaded row
    without one, and changes nothing in a store that has none; ingestion
    and the queue keep it so. *)
Theorem X29_every_success_carries_its_time
    (cap capU : nat) (key : option string) (feeds : Db.User → Feed.Reply)
    (env : nat → Attempt) (st : Db.Store) (fs : Fs) (now : N) :
  dated (backfill st)
  ∧ (dated st →
     backfill st = st
     ∧ dated (syncRSS feeds st).1
     ∧ ∃ l', processQueue cap capU key env st fs now = Some l'
             ∧ dated (store l')).
Proof.
  split.
  - unfold dated, backfill. simpl. apply Forall_fmap, Forall_forall.
    intros b _ Hs. by apply backfill_row_dated.
  - intros Hd. split_and!.
    + unfold backfill. destruct st as [bs us ls n]. unfold Db.with_books. simpl.
      f_equal. unfold dated in Hd. simpl in Hd.
      induction Hd as [|b l Hb _ IH]; [done|]. rewrite fmap_cons, IH. f_equal.
      unfold backfill_row. destruct (decide _) as [[Hs Hn]|_]; [|done].
      destruct (Hb Hs) as [t Ht]. congruence.
    + apply (syncRSS_invariant dated); [|apply dated_link|done].
      intros t k i ti a st1. apply dated_upsert.
    + destruct (processQueue_invariant cap capU key (λ l, dated (store l))
                  env st fs now) as (l' & Hl' & Hd'); [|done|done|by exists l'].
      intros a l. apply dated_iteration.
Qed.

Lemma X29_witness :
  backfill Sample.shelves = Sample.shelves.
Proof.
  refine (proj1 (proj2 (X29_every_success_carries_its_time
                          50 10 None Feeds.to_read (λ _, Sample.smooth)
                          Sample.shelves ∅ 1000) _)).
  unfold dated, Sample.shelves. simpl.
  repeat constructor; try discriminate. intros _. by eexists.
Defined.

Section CycleExit.
Variable MAX_DOWNLOADS_PER_DAY : nat.
Variable MAX_DOWNLOADS_PER_USER_PER_DAY : nat.
Variable AA_API_KEY : option string.

Local Abbreviation pass :=
  (iteration MAX_DOWNLOADS_PER_DAY MAX_DOWNLOADS_PER_USER_PER_DAY AA_API_KEY).
Local Abbreviation passes :=
  (run MAX_DOWNLOADS_PER_DAY MAX_DOWNLOADS_PER_USER_PER_DAY AA_API_KEY).

Ltac paths a l :=
  unfold iteration in *; cbv zeta in *;
  destruct (decide (MAX_DOWNLOADS_PER_DAY ≤ Db.countDownloadsToday (clock l) (store l)))
    as [Hcap|Hcap];
  [| destruct (Db.nextPending MAX_ATTEMPTS (skippedBookIds l) (store l))
       as [job|] eqn:Hjob;
     [ destruct (eligible l job) as [|u0 us] eqn:Helig;
       [| destruct (attempt AA_API_KEY a job (u0 :: us) (files l) (log l))
            as [[fs lg] [fn|e]] eqn:Hatt ]
     | ] ].

(** The loop is left from a pass that breaks. *)
Lemma run_exit env fuel l l' :
  passes fuel env l = Some l' → ∃ a l0, pass a l0 = Break l'.
Proof.
  revert l. induction fuel as [|fuel IH]; intros l Hrun; [done|].
  simpl in Hrun. destruct (pass (env (processed l)) l) as [l1|l1] eqn:Hit.
  - by apply (IH l1).
  - injection Hrun as <-. by eexists _, _.
Qed.

Lemma break_reason a l l' :
  pass a l = Break l' →
  MAX_DOWNLOADS_PER_DAY ≤ Db.countDownloadsToday (clock l') (store l')
  ∨ Db.nextPending MAX_ATTEMPTS (skippedBookIds l') (store l') = None.
Proof. paths a l; intros [= <-]; simpl; [by left|by right]. Qed.

(** Every book on the exclusion list has all its users in the
    rate-limited set. *)
Lemma iteration_skipped a l :
  (∀ id user, id ∈ skippedBookIds l →
              user ∈ Db.getUsersForBook id (store l) →
              Db.user_rowid user ∈ rateLimitedUserIds l) →
  ∀ id user, id ∈ skippedBookIds (state_of (pass a l)) →
             user ∈ Db.getUsersForBook id (store (state_of (pass a l))) →
             Db.user_rowid user ∈ rateLimitedUserIds (state_of (pass a l)).
Proof.
  intros Hinv.
  assert (∀ id, Db.getUsersForBook id (store (state_of (pass a l)))
                = Db.getUsersForBook id (store l)) as Hsame.
  { intros id. unfold Db.getUsersForBook.
    destruct (iteration_users MAX_DOWNLOADS_PER_DAY MAX_DOWNLOADS_PER_USER_PER_DAY
                AA_API_KEY a l) as (-> & -> & _). done. }
  intros id user Hid Huser. rewrite Hsame in Huser. revert Hid.
  paths a l; cbn [state_of skippedBookIds rateLimitedUserIds]; intros Hid;
    try (by eapply Hinv).
  - apply elem_of_app in Hid as [Hid|Hid]; [by eapply Hinv|].
    apply list_elem_of_singleton in Hid as ->.
    destruct (decide (Db.user_rowid user ∈ rateLimitedUserIds l)) as [|Hout]; [done|].
    assert (user ∈ eligible l job) as Hin.
    { unfold eligible. apply list_elem_of_filter. by split. }
    rewrite Helig in Hin. by apply elem_of_nil in Hin.
  - apply elem_of_union. left. by eapply Hinv.
Qed.
End CycleExit.

(** X30: [processQueue] stops only when the global daily cap is reached
    or nothing is left to select. It returns; in the state it returns,
    the downloads of the day have reached the cap, or every pending row
    with attempts left is on the list of skipped books; and every user
    linked to a skipped book is in the rate-limited set. *)
Theorem X30_processQueue_drains_the_queue
    (cap capU : nat) (key : option string) (env : nat → Attempt)
    (st : Db.Store) (fs : Fs) (now : N) :
  ∃ l', processQueue cap capU key env st fs now = Some l'
        ∧ (cap ≤ Db.countDownloadsToday (clock l') (store l')
           ∨ ∀ b, b ∈ Db.books (store l') → Db.status b = Db.pending →
                  Db.attempts b < MAX_ATTEMPTS →
                  Db.rowid b ∈ skippedBookIds l')
        ∧ ∀ id user, id ∈ skippedBookIds l' →
                     user ∈ Db.getUsersForBook id (store l') →
                     Db.user_rowid user ∈ rateLimitedUserIds l'.
Proof.
  destruct (processQueue_invariant cap capU key
              (λ l, ∀ id user, id ∈ skippedBookIds l →
                               user ∈ Db.getUsersForBook id (store l) →
                               Db.user_rowid user ∈ rateLimitedUserIds l)
              env st fs now) as (l' & Hl' & Hskip).
  - intros a l. apply iteration_skipped.
  - intros id user Hid. by apply elem_of_nil in Hid.
  - intros id user Hid. by apply elem_of_nil in Hid.
  - exists l'. split_and!; [done| |done].
    unfold processQueue in Hl'. destruct (decide _) as [Hcap|Hcap].
    { injection Hl' as <-. by left. }
    apply run_exit in Hl' as (a & l0 & Hbreak).
    apply break_reason in Hbreak as [?|Hnone]; [by left|]. right.
    intros b Hb Hp Hlt. rewrite nextPending_None in Hnone.
    specialize (Hnone b Hb).
    destruct (decide (Db.rowid b ∈ skippedBookIds l')) as [|Hout]; [done|].
    destruct Hnone. by split_and!.
Qed.

Lemma X30_witness :
  ∃ l', processQueue 50 0 None (λ _, Sample.smooth) Sample.library ∅ 1000 = Some l'
        ∧ (50 ≤ Db.countDownloadsToday (clock l') (store l')
           ∨ ∀ b, b ∈ Db.books (store l') → Db.status b = Db.pending →
                  Db.attempts b < MAX_ATTEMPTS →
                  Db.rowid b ∈ skippedBookIds l').
Proof.
  destruct (X30_processQueue_drains_the_queue
              50 0 None (λ _, Sample.smooth) Sample.library ∅ 1000)
    as (l' & Hrun & Hexit & _).
  exists l'. split; [exact Hrun|exact Hexit].
Defined.
